(** * Artemis: a tick-by-tick mean-reversion backtester

    A shallow embedding of the C++ sources (MarketDataReader, RollingStatistics,
    SignalGenerator, Backtester, LockFreeQueue) and the properties of the
    specification that are settled against them.

    Conventions of the embedding.
    - [int64_t] and [size_t] values are integers of [Z]; where the source can
      leave the range, the wrap-around is written out ([wrap_i64], [wrap_u64]).
      Offsets into the mapped file are [nat] indices of a [list byte]; they are
      bounded by the file size, so they never wrap.
    - [double] is an interface ([Double]): the arithmetic and the comparisons
      the sources use.  It has two instances: [IEEE], binary64 on the kernel's
      primitive floats, which is what the compiled program computes with and
      which is used to run the model on concrete inputs; and [Ideal], the real
      numbers, which is the arithmetic the specification is phrased in.
      Definitions are written once, over the interface.
    - An out-parameter ([Tick& tick], [T*& item]) is returned as a value, a C++
      exception as a constructor of the result type.
    - [std::stoll] is modelled in full; [std::stod] is an argument of the
      reader (a library function with three outcomes), with one instance,
      [stod], on the primitive floats. *)

From Stdlib Require Import Strings.Byte Strings.String DecimalString.
From Stdlib Require Import ZArith List Lia Bool.
From Stdlib Require Import Floats Reals Lra.
From Equations Require Import Equations.
Import ListNotations.

Local Open Scope Z_scope.

(** ** Machine integers *)

Definition wrap_u64 (z : Z) : Z := z mod 2 ^ 64.

Definition wrap_i64 (z : Z) : Z := (z + 2 ^ 63) mod 2 ^ 64 - 2 ^ 63.

Definition in_i64 (z : Z) : bool := (- 2 ^ 63 <=? z) && (z <? 2 ^ 63).

(** ** Exceptions the sources can raise *)

Inductive exn : Type :=
| invalid_argument       (* std::invalid_argument *)
| out_of_range           (* std::out_of_range *)
| runtime_error          (* std::runtime_error *)
| bad_array_new_length.  (* std::bad_array_new_length *)

(** Outcome of a [std::sto*] conversion. *)
Inductive conv (A : Type) : Type :=
| Converted (a : A)
| ConvFail (e : exn).
Arguments Converted {A} a.
Arguments ConvFail {A} e.

(** ** The [double] interface *)

Class Double (double : Type) : Type := {
  d_add : double -> double -> double;
  d_sub : double -> double -> double;
  d_mul : double -> double -> double;
  d_div : double -> double -> double;
  d_neg : double -> double;
  d_sqrt : double -> double;
  d_lt : double -> double -> bool;
  d_le : double -> double -> bool;
  (** conversion of an integer value ([int], [int64_t], [size_t]) *)
  d_of_Z : Z -> double;
  (** the decimal literal [m * 10^e] *)
  d_lit : Z -> Z -> double
}.

Declare Scope double_scope.
Delimit Scope double_scope with dbl.
Infix "+" := d_add : double_scope.
Infix "-" := d_sub : double_scope.
Infix "*" := d_mul : double_scope.
Infix "/" := d_div : double_scope.
Notation "- x" := (d_neg x) : double_scope.
Infix "<?" := d_lt : double_scope.
Infix "<=?" := d_le : double_scope.
Notation "x >? y" := (d_lt y x) : double_scope.
Notation "x >=? y" := (d_le y x) : double_scope.

(** *** IEEE binary64 *)

Definition float_of_Z (z : Z) : float :=
  SF2Prim (binary_normalize prec emax z 0 false).

(** The double nearest to [m * 10^e] (one rounding, ties to even). *)
Definition float_of_decimal (m e : Z) : float :=
  if 0 <=? e then float_of_Z (m * 10 ^ e)
  else
    let den := S754_finite false (Z.to_pos (10 ^ (- e))) 0 in
    match m with
    | Z0 => PrimFloat.zero
    | Zpos p => SF2Prim (SFdiv prec emax (S754_finite false p 0) den)
    | Zneg p => SF2Prim (SFdiv prec emax (S754_finite true p 0) den)
    end.

#[export] Instance IEEE : Double float := {|
  d_add := PrimFloat.add;
  d_sub := PrimFloat.sub;
  d_mul := PrimFloat.mul;
  d_div := PrimFloat.div;
  d_neg := PrimFloat.opp;
  d_sqrt := PrimFloat.sqrt;
  d_lt := PrimFloat.ltb;
  d_le := PrimFloat.leb;
  d_of_Z := float_of_Z;
  d_lit := float_of_decimal
|}.

(** *** Real numbers *)

Definition Rltb (x y : R) : bool := if Rlt_dec x y then true else false.
Definition Rleb (x y : R) : bool := if Rle_dec x y then true else false.

Definition R_of_decimal (m e : Z) : R :=
  if 0 <=? e then IZR (m * 10 ^ e) else (IZR m / IZR (10 ^ (- e)))%R.

#[export] Instance Ideal : Double R := {|
  d_add := Rplus;
  d_sub := Rminus;
  d_mul := Rmult;
  d_div := Rdiv;
  d_neg := Ropp;
  d_sqrt := sqrt;
  d_lt := Rltb;
  d_le := Rleb;
  d_of_Z := IZR;
  d_lit := R_of_decimal
|}.

(** ** MarketDataReader.hpp: [Tick] *)

Record Tick {double : Type} : Type := {
  timestamp : Z;     (* int64_t, microseconds since epoch *)
  bid : double;
  ask : double;
  volume : Z         (* int64_t *)
}.
Arguments Tick double : clear implicits.

Definition mid {double} `{Double double} (t : Tick double) : double :=
  ((bid t + ask t) / d_lit 2 0)%dbl.

(** ** Characters and [std::stoll] *)

Definition LF : byte := x0a.
Definition CR : byte := x0d.
Definition comma : byte := x2c.

(** [isspace] in the "C" locale: space, and HT LF VT FF CR. *)
Definition isspace (b : byte) : bool :=
  let n := Byte.to_N b in ((n =? 32) || ((9 <=? n) && (n <=? 13)))%N.

Definition isdigit (b : byte) : bool :=
  let n := Byte.to_N b in ((48 <=? n) && (n <=? 57))%N.

Definition digit_value (b : byte) : Z := Z.of_N (Byte.to_N b) - 48.

Fixpoint skip_space (s : list byte) : list byte :=
  match s with
  | b :: s' => if isspace b then skip_space s' else s
  | [] => []
  end.

(** Optional sign: [true] for '-'. *)
Definition read_sign (s : list byte) : bool * list byte :=
  match s with
  | x2d :: s' => (true, s')
  | x2b :: s' => (false, s')
  | _ => (false, s)
  end.

(** The longest prefix of decimal digits: its value (continuing [acc]), its
    length, and the rest. *)
Fixpoint read_digits (s : list byte) (acc : Z) (n : nat) : Z * nat * list byte :=
  match s with
  | b :: s' =>
      if isdigit b then read_digits s' (10 * acc + digit_value b) (S n)
      else (acc, n, s)
  | [] => (acc, n, [])
  end.

(** [std::stoll(token)]: [strtoll] in base 10; no digits is
    [std::invalid_argument], a value outside [int64_t] is [std::out_of_range];
    characters after the number are ignored. *)
Definition stoll (token : list byte) : conv Z :=
  let '(negative, s) := read_sign (skip_space token) in
  let '(v, n, _) := read_digits s 0 0 in
  match n with
  | O => ConvFail invalid_argument
  | S _ =>
      let v := if negative then - v else v in
      if in_i64 v then Converted v else ConvFail out_of_range
  end.

(** ** [std::stod] on binary64

    [strtod]: white space, a sign, then a decimal number with an optional
    exponent, a hexadecimal number with an optional binary exponent, or
    [inf]/[infinity]/[nan] in any case; the result is the nearest double.
    No conversion is [std::invalid_argument]; [ERANGE] (overflow, or a result
    below the least normal magnitude that is not the exact value) is
    [std::out_of_range]. *)

Definition to_lower (b : byte) : byte :=
  let n := Byte.to_N b in
  if ((65 <=? n) && (n <=? 90))%N
  then match Byte.of_N (n + 32) with Some c => c | None => b end
  else b.

Fixpoint has_prefix_ci (p s : list byte) : bool :=
  match p, s with
  | [], _ => true
  | c :: p', b :: s' => Byte.eqb c (to_lower b) && has_prefix_ci p' s'
  | _ :: _, [] => false
  end.

Definition hex_digit_value (b : byte) : option Z :=
  let n := Byte.to_N (to_lower b) in
  if ((48 <=? n) && (n <=? 57))%N then Some (Z.of_N n - 48)
  else if ((97 <=? n) && (n <=? 102))%N then Some (Z.of_N n - 87)
  else None.

Fixpoint read_hex_digits (s : list byte) (acc : Z) (n : nat) : Z * nat * list byte :=
  match s with
  | b :: s' =>
      match hex_digit_value b with
      | Some d => read_hex_digits s' (16 * acc + d) (S n)
      | None => (acc, n, s)
      end
  | [] => (acc, n, [])
  end.

(** The exponent part after the mantissa, introduced by [mark] (in lower
    case); it counts only when digits follow. *)
Definition read_exponent (mark : byte) (s : list byte) : Z :=
  match s with
  | b :: s' =>
      if Byte.eqb (to_lower b) mark then
        let '(negative, s'') := read_sign s' in
        let '(v, n, _) := read_digits s'' 0 0 in
        match n with
        | O => 0
        | S _ => if negative then - v else v
        end
      else 0
  | [] => 0
  end.

(** Mantissa digits around an optional radix point: the digits read as one
    integer, how many there are, how many follow the point, and the rest. *)
Definition read_mantissa (digits : list byte -> Z -> nat -> Z * nat * list byte)
    (s : list byte) : Z * nat * nat * list byte :=
  let '(ip, n1, s1) := digits s 0 0%nat in
  match s1 with
  | x2e :: s1' =>
      let '(m, n2, s2) := digits s1' ip 0%nat in (m, (n1 + n2)%nat, n2, s2)
  | _ => (ip, n1, 0%nat, s1)
  end.

Definition least_normal : float := 0x1p-1022%float.

(** Whether [x] is exactly [m * base ^ e]. *)
Definition exactly (base m e : Z) (x : float) : bool :=
  match Prim2SF x with
  | S754_zero _ => m =? 0
  | S754_finite s mx ex =>
      let v := if s then Zneg mx else Zpos mx in
      (m * base ^ Z.max e 0 * 2 ^ Z.max (- ex) 0
       =? v * 2 ^ Z.max ex 0 * base ^ Z.max (- e) 0)
  | _ => false
  end.

(** [ERANGE]: the value overflows, or the result is below the least normal
    magnitude and is not the value itself (a subnormal that the text denotes
    exactly is returned without error). *)
Definition stod_range (base m e : Z) (x : float) : conv float :=
  if m =? 0 then Converted x
  else if PrimFloat.is_infinity x then ConvFail out_of_range
  else if PrimFloat.ltb (PrimFloat.abs x) least_normal then
    if exactly base m e (PrimFloat.abs x) then Converted x
    else ConvFail out_of_range
  else Converted x.

Definition stod (token : list byte) : conv float :=
  let '(negative, s) := read_sign (skip_space token) in
  let signed (x : float) := if negative then PrimFloat.opp x else x in
  if has_prefix_ci [x69; x6e; x66] s then Converted (signed PrimFloat.infinity)
  else if has_prefix_ci [x6e; x61; x6e] s then Converted (signed PrimFloat.nan)
  else
    let hex :=
      if has_prefix_ci [x30; x78] s
      then Some (read_mantissa read_hex_digits (skipn 2 s))
      else None in
    match hex with
    | Some (m, S _, frac, rest) =>
        let e := read_exponent x70 rest - 4 * Z.of_nat frac in
        stod_range 2 m e
                   (signed (SF2Prim (binary_normalize prec emax m e false)))
    | _ =>
        let '(m, n, frac, rest) := read_mantissa read_digits s in
        match n with
        | O => ConvFail invalid_argument
        | S _ =>
            let e := read_exponent x65 rest - Z.of_nat frac in
            stod_range 10 m e (signed (float_of_decimal m e))
        end
    end.

(** ** [std::istringstream] and [std::getline] with a delimiter *)

(** The unread characters; [None] once [eofbit] is set. *)
Definition istringstream : Type := option (list byte).

Fixpoint until_delim (delim : byte) (s : list byte) : list byte * istringstream :=
  match s with
  | [] => ([], None)
  | b :: s' =>
      if Byte.eqb b delim then ([], Some s')
      else let (token, rest) := until_delim delim s' in (b :: token, rest)
  end.

(** [std::getline(iss, token, delim)]: the characters up to the delimiter,
    which is consumed, or up to the end, which sets [eofbit]; it fails when
    nothing at all could be extracted. *)
Definition getline (iss : istringstream) (delim : byte)
  : option (list byte) * istringstream :=
  match iss with
  | None => (None, None)
  | Some [] => (None, None)
  | Some s => let (token, rest) := until_delim delim s in (Some token, rest)
  end.

(** Outcome of a parse: a value, [return false], or an exception. *)
Inductive parsed (A : Type) : Type :=
| Parsed (a : A)
| NotParsed
| Threw (e : exn).
Arguments Parsed {A} a.
Arguments NotParsed {A}.
Arguments Threw {A} e.

Definition parsed_bind {A B} (p : parsed A) (k : A -> parsed B) : parsed B :=
  match p with
  | Parsed a => k a
  | NotParsed => NotParsed
  | Threw e => Threw e
  end.

Notation "' pat <- p ;; k" := (parsed_bind p (fun x => let 'pat := x in k))
  (at level 61, pat pattern, p at next level, right associativity).

(** [if (!std::getline(iss, token, ',')) return false; x = sto(token);] *)
Definition field {A} (sto : list byte -> conv A) (iss : istringstream)
  : parsed (A * istringstream) :=
  match getline iss comma with
  | (None, _) => NotParsed
  | (Some token, iss') =>
      match sto token with
      | Converted a => Parsed (a, iss')
      | ConvFail e => Threw e
      end
  end.

(** Keeps the equation of a test for the termination proofs. *)
Definition inspect {A : Type} (a : A) : {b : A | a = b} := exist _ a eq_refl.

(** ** MarketDataReader.cpp *)

Module MarketDataReader.

Record t : Type := {
  data_ : option (list byte);   (* the mapping; [None] is [nullptr] *)
  size_ : nat;
  position_ : nat
}.

Definition set_position (r : t) (p : nat) : t :=
  {| data_ := data_ r; size_ := size_ r; position_ := p |}.

Fixpoint find_byte (c : byte) (s : list byte) : option nat :=
  match s with
  | [] => None
  | b :: s' => if Byte.eqb b c then Some O else option_map S (find_byte c s')
  end.

(** [memchr(start + from, c, n)], as an offset from [start]. *)
Definition memchr (data : list byte) (from : nat) (c : byte) (n : nat) : option nat :=
  option_map (Nat.add from) (find_byte c (firstn n (skipn from data))).

(** The constructor (POSIX branch).  [file] is what [open], [fstat] and [mmap]
    deliver: [None] when the file cannot be opened; an empty file cannot be
    mapped.  Then the header line is skipped. *)
Definition new (file : option (list byte)) : t :=
  match file with
  | None => {| data_ := None; size_ := 0; position_ := 0 |}
  | Some bytes =>
      match bytes with
      | [] => {| data_ := None; size_ := 0; position_ := 0 |}
      | _ :: _ =>
          {| data_ := Some bytes;
             size_ := length bytes;
             position_ := match memchr bytes 0 LF (length bytes) with
                          | Some nl => S nl
                          | None => 0%nat
                          end |}
      end
  end.

Definition isValid (r : t) : bool :=
  match data_ r with
  | Some _ => (0 <? size_ r)%nat
  | None => false
  end.

Definition reset (r : t) : t :=
  match data_ r with
  | Some data =>
      if (0 <? size_ r)%nat then
        match memchr data 0 LF (size_ r) with
        | Some nl => set_position r (S nl)
        | None => set_position r 0
        end
      else set_position r 0
  | None => set_position r 0
  end.

Definition approximateTickCount (r : t) : nat :=
  match data_ r with
  | Some _ => if (size_ r =? 0)%nat then 0%nat else (size_ r / 50)%nat
  | None => 0%nat
  end.

Section Parse.
Context {double : Type}.
Variable stod : list byte -> conv double.

Definition parseLine (line : list byte) : parsed (Tick double) :=
  let iss : istringstream := Some line in
  '(timestamp, iss) <- field stoll iss ;;
  '(bid, iss) <- field stod iss ;;
  '(ask, iss) <- field stod iss ;;
  '(volume, iss) <- field stoll iss ;;
  Parsed {| timestamp := timestamp; bid := bid; ask := ask; volume := volume |}.

(** What one call of [next] returns: [true] with the tick, [false], or the
    exception that left it. *)
Inductive result : Type :=
| Yield (tick : Tick double)
| EndOfStream
| Raise (e : exn).

(** [!data_ || position_ >= size_] is false. *)
Definition has_input (r : t) : bool :=
  match data_ r with
  | Some _ => (position_ r <? size_ r)%nat
  | None => false
  end.

(** [nl]: the next newline at or after [position_], else [end]. *)
Definition line_end (r : t) : nat :=
  match data_ r with
  | Some data =>
      match memchr data (position_ r) LF (size_ r - position_ r) with
      | Some nl => nl
      | None => size_ r
      end
  | None => size_ r
  end.

(** [lineLen], after the trailing carriage return is dropped. *)
Definition line_length (data : list byte) (current nl : nat) : nat :=
  let lineLen := (nl - current)%nat in
  if (0 <? lineLen)%nat
     && match nth_error data (current + lineLen - 1) with
        | Some b => Byte.eqb b CR
        | None => false
        end
  then (lineLen - 1)%nat else lineLen.

(** [lineLen > 0 && parseLine(current, lineLen, tick)] *)
Definition parse_at (r : t) (nl : nat) : parsed (Tick double) :=
  match data_ r with
  | Some data =>
      let lineLen := line_length data (position_ r) nl in
      if (0 <? lineLen)%nat
      then parseLine (firstn lineLen (skipn (position_ r) data))
      else NotParsed
  | None => NotParsed
  end.

Lemma has_input_lt (r : t) :
  has_input r = true -> (position_ r < size_ r)%nat.
Proof.
  unfold has_input. destruct (data_ r); [|discriminate].
  apply Nat.ltb_lt.
Qed.

Equations? next (r : t) : result * t by wf (size_ r - position_ r)%nat lt :=
  next r with inspect (has_input r) := {
    | exist _ false _ => (EndOfStream, r)
    | exist _ true Hin with inspect (line_end r <=? position_ r)%nat := {
      | exist _ true _ => (EndOfStream, r)
      | exist _ false Hnl with parse_at r (line_end r) := {
        | Parsed tick => (Yield tick, set_position r (S (line_end r)))
        | Threw e => (Raise e, r)
        | NotParsed => next (set_position r (S (line_end r))) } } }.
Proof.
  apply has_input_lt in Hin. apply Nat.leb_gt in Hnl. lia.
Qed.

(** A successful [next] moves the cursor forward, inside the mapping. *)
Lemma next_Yield_measure (r r' : t) (tick : Tick double) :
  next r = (Yield tick, r') ->
  (size_ r' - position_ r' < size_ r - position_ r)%nat.
Proof.
  funelim (next r); intros E; try discriminate.
  - injection E as _ <-. cbn.
    pose proof (has_input_lt _ Hin).
    pose proof (proj1 (Nat.leb_gt _ _) Hnl). lia.
  - specialize (H _ _ E). cbn in H.
    pose proof (has_input_lt _ Hin).
    pose proof (proj1 (Nat.leb_gt _ _) Hnl). lia.
Qed.

(** [while (reader.next(tick)) { body }] over a loop state [St]: the state
    and the reader when [next] returns [false], or the exception that left
    the loop. *)
Section While.
Context {St : Type}.
Variable body : Tick double -> St -> St.

Equations? while_next (r : t) (s : St) : St * t * option exn
  by wf (size_ r - position_ r)%nat lt :=
  while_next r s with inspect (next r) := {
    | exist _ (Yield tick, r') Hnext => while_next r' (body tick s)
    | exist _ (EndOfStream, r') _ => (s, r', None)
    | exist _ (Raise e, r') _ => (s, r', Some e) }.
Proof. eapply next_Yield_measure; eassumption. Qed.
End While.

End Parse.

End MarketDataReader.

(** ** RollingStatistics.hpp / RollingStatistics.cpp

    [buffer_], the aligned ring of the last samples, is written by [update]
    and read by no member ([oldValue] is dead), so the state below leaves it
    out and keeps the index [update] advances. *)

Module RollingStatistics.
Section Stats.
Context {double : Type} `{Double double}.
Local Open Scope double_scope.

Record t : Type := {
  windowSize_ : Z;   (* const size_t *)
  writeIndex_ : Z;   (* std::atomic<size_t> *)
  count_ : Z;        (* std::atomic<size_t> *)
  alpha_ : double;
  mean_ : double;
  variance_ : double;
  m2_ : double
}.

Definition new (windowSize : Z) : t :=
  {| windowSize_ := windowSize;
     writeIndex_ := 0;
     count_ := 0;
     alpha_ := d_lit 2 0 / (d_of_Z windowSize + d_lit 1 0);
     mean_ := d_lit 0 0;
     variance_ := d_lit 0 0;
     m2_ := d_lit 0 0 |}.

Definition mean (s : t) : double := mean_ s.
Definition variance (s : t) : double := variance_ s.
Definition stddev (s : t) : double := d_sqrt (variance_ s).

Definition zscore (s : t) (value : double) : double :=
  let sd := stddev s in
  if sd >? d_lit 1 (-10) then (value - mean_ s) / sd else d_lit 0 0.

Definition count (s : t) : Z := count_ s.
Definition isReady (s : t) : bool := (windowSize_ s <=? count s)%Z.

Definition updateEWMA (s : t) (value : double) : t :=
  let oldMean := mean_ s in
  let mean' := alpha_ s * value + (d_lit 1 0 - alpha_ s) * mean_ s in
  let delta := value - oldMean in
  let variance' :=
    (d_lit 1 0 - alpha_ s) * (variance_ s + alpha_ s * delta * delta) in
  let variance' :=
    if variance' <? d_lit 0 0 then d_lit 0 0 else variance' in
  {| windowSize_ := windowSize_ s; writeIndex_ := writeIndex_ s;
     count_ := count_ s; alpha_ := alpha_ s;
     mean_ := mean'; variance_ := variance'; m2_ := m2_ s |}.

(** Both [fetch_add]s wrap on [size_t]; [oldCount + 1] does not, since
    [oldCount < windowSize_] where it is computed. *)
Definition update (s : t) (value : double) : t :=
  let oldCount := count_ s in
  let s := {| windowSize_ := windowSize_ s;
              writeIndex_ := wrap_u64 (writeIndex_ s + 1);
              count_ := wrap_u64 (count_ s + 1);
              alpha_ := alpha_ s; mean_ := mean_ s;
              variance_ := variance_ s; m2_ := m2_ s |} in
  if (oldCount <? windowSize_ s)%Z then
    if (oldCount =? 0)%Z then
      {| windowSize_ := windowSize_ s; writeIndex_ := writeIndex_ s;
         count_ := count_ s; alpha_ := alpha_ s;
         mean_ := value; variance_ := d_lit 0 0; m2_ := d_lit 0 0 |}
    else
      let delta := value - mean_ s in
      let mean' := mean_ s + delta / d_of_Z (oldCount + 1) in
      let delta2 := value - mean' in
      let m2' := m2_ s + delta * delta2 in
      {| windowSize_ := windowSize_ s; writeIndex_ := writeIndex_ s;
         count_ := count_ s; alpha_ := alpha_ s;
         mean_ := mean'; variance_ := m2' / d_of_Z (oldCount + 1);
         m2_ := m2' |}
  else updateEWMA s value.

End Stats.
Arguments t double : clear implicits.
End RollingStatistics.

(** ** SignalGenerator.hpp / SignalGenerator.cpp *)

Inductive Signal : Type := FLAT | LONG | SHORT.

Definition Signal_eqb (a b : Signal) : bool :=
  match a, b with
  | FLAT, FLAT | LONG, LONG | SHORT, SHORT => true
  | _, _ => false
  end.

Module SignalGenerator.
Section Gen.
Context {double : Type} `{Double double}.
Local Open Scope double_scope.

Record t : Type := {
  threshold_ : double;
  currentSignal_ : Signal;
  lastZScore_ : double
}.

Definition new (threshold : double) : t :=
  {| threshold_ := threshold; currentSignal_ := FLAT;
     lastZScore_ := d_lit 0 0 |}.

Definition currentSignal (g : t) : Signal := currentSignal_ g.

Definition set_signal (g : t) (s : Signal) : t :=
  {| threshold_ := threshold_ g; currentSignal_ := s;
     lastZScore_ := lastZScore_ g |}.

Definition generate (g : t) (price : double) (stats : RollingStatistics.t double)
  : Signal * t :=
  if negb (RollingStatistics.isReady stats) then (FLAT, g)
  else
    let zscore := RollingStatistics.zscore stats price in
    let g := {| threshold_ := threshold_ g;
                currentSignal_ := currentSignal_ g;
                lastZScore_ := zscore |} in
    let g :=
      match currentSignal_ g with
      | FLAT =>
          if zscore <? - threshold_ g then set_signal g LONG
          else if zscore >? threshold_ g then set_signal g SHORT
          else g
      | LONG =>
          if zscore >=? d_lit 0 0 then set_signal g FLAT else g
      | SHORT =>
          if zscore <=? d_lit 0 0 then set_signal g FLAT else g
      end in
    (currentSignal_ g, g).

Definition setThreshold (g : t) (threshold : double) : t :=
  {| threshold_ := threshold; currentSignal_ := currentSignal_ g;
     lastZScore_ := lastZScore_ g |}.

Definition getThreshold (g : t) : double := threshold_ g.

(** The private predicates of the class; [generate] does not call them. *)
Definition shouldEnterLong (g : t) (zscore : double) : bool :=
  zscore <? - threshold_ g.

Definition shouldEnterShort (g : t) (zscore : double) : bool :=
  zscore >? threshold_ g.

Definition shouldExit (g : t) (zscore : double) : bool :=
  (Signal_eqb (currentSignal_ g) LONG && (zscore >=? d_lit 0 0))
  || (Signal_eqb (currentSignal_ g) SHORT && (zscore <=? d_lit 0 0)).

End Gen.
Arguments t double : clear implicits.
End SignalGenerator.

(** ** Backtester.hpp / Backtester.cpp *)

Record Trade {double : Type} : Type := {
  entryTime : Z;
  exitTime : Z;
  entryPrice : double;
  exitPrice : double;
  direction : Signal;
  pnl : double;
  duration : Z       (* int64_t, microseconds *)
}.
Arguments Trade double : clear implicits.

Record PerformanceMetrics {double : Type} : Type := {
  totalReturn : double;
  volatility : double;
  sharpeRatio : double;
  maxDrawdown : double;
  winRate : double;
  avgTradeLength : double;
  ticksPerSecond : double;
  totalTrades : Z;
  winningTrades : Z;
  totalTicks : Z
}.
Arguments PerformanceMetrics double : clear implicits.

Module Backtester.
Section Engine.
Context {double : Type} `{Double double}.
Local Open Scope double_scope.

Record t : Type := {
  commission_ : double;
  slippage_ : double;
  trades_ : list (Trade double);
  equityCurve_ : list double;
  equityTimestamps_ : list Z;
  currentPosition_ : Signal;
  entryPrice_ : double;
  entryTime_ : Z;
  equity_ : double;
  peakEquity_ : double;
  maxDrawdown_ : double
}.

(** The constructor.  [slippage_] is declared, hence initialised, before
    the constant member [tickSize_ = 0.25] it is computed from, so the
    value it reads is not determined by the language; it is the argument
    [tickSize] here (0.25 once the member is initialised). *)
Definition new (commission slippage tickSize : double) : t :=
  {| commission_ := commission;
     slippage_ := slippage * tickSize;
     trades_ := [];
     equityCurve_ := [d_lit 100000 0];
     equityTimestamps_ := [0%Z];
     currentPosition_ := FLAT;
     entryPrice_ := d_lit 0 0;
     entryTime_ := 0;
     equity_ := d_lit 100000 0;
     peakEquity_ := d_lit 100000 0;
     maxDrawdown_ := d_lit 0 0 |}.

Definition getFillPrice (b : t) (midPrice : double) (direction : Signal) : double :=
  match direction with
  | LONG => midPrice + slippage_ b
  | SHORT => midPrice - slippage_ b
  | FLAT => midPrice
  end.

Definition closePosition (b : t) (price : double) (timestamp : Z) : t :=
  match currentPosition_ b with
  | FLAT => b
  | position =>
      let exitDirection :=
        match position with LONG => SHORT | _ => LONG end in
      let fillPrice := getFillPrice b price exitDirection in
      let pnl0 :=
        match position with
        | LONG => (fillPrice - entryPrice_ b) * d_of_Z 50
        | _ => (entryPrice_ b - fillPrice) * d_of_Z 50
        end in
      let pnl1 := pnl0 - commission_ b in
      let trade :=
        {| entryTime := entryTime_ b;
           exitTime := timestamp;
           entryPrice := entryPrice_ b;
           exitPrice := fillPrice;
           direction := position;
           pnl := pnl1;
           duration := wrap_i64 (timestamp - entryTime_ b) |} in
      {| commission_ := commission_ b;
         slippage_ := slippage_ b;
         trades_ := trades_ b ++ [trade];
         equityCurve_ := equityCurve_ b;
         equityTimestamps_ := equityTimestamps_ b;
         currentPosition_ := FLAT;
         entryPrice_ := entryPrice_ b;
         entryTime_ := entryTime_ b;
         equity_ := equity_ b + pnl1;
         peakEquity_ := peakEquity_ b;
         maxDrawdown_ := maxDrawdown_ b |}
  end.

(** The part of [updatePosition] that opens the new position. *)
Definition openPosition (b : t) (price : double) (timestamp : Z) (signal : Signal) : t :=
  match signal with
  | FLAT => b
  | _ =>
      let fillPrice := getFillPrice b price signal in
      {| commission_ := commission_ b;
         slippage_ := slippage_ b;
         trades_ := trades_ b;
         equityCurve_ := equityCurve_ b;
         equityTimestamps_ := equityTimestamps_ b;
         currentPosition_ := signal;
         entryPrice_ := fillPrice;
         entryTime_ := timestamp;
         equity_ := equity_ b - commission_ b;
         peakEquity_ := peakEquity_ b;
         maxDrawdown_ := maxDrawdown_ b |}
  end.

(** The end of [updatePosition]: the equity point, the peak, the drawdown. *)
Definition recordEquity (b : t) (timestamp : Z) : t :=
  let peak := if equity_ b >? peakEquity_ b then equity_ b else peakEquity_ b in
  let drawdown := (peak - equity_ b) / peak in
  {| commission_ := commission_ b;
     slippage_ := slippage_ b;
     trades_ := trades_ b;
     equityCurve_ := equityCurve_ b ++ [equity_ b];
     equityTimestamps_ := equityTimestamps_ b ++ [timestamp];
     currentPosition_ := currentPosition_ b;
     entryPrice_ := entryPrice_ b;
     entryTime_ := entryTime_ b;
     equity_ := equity_ b;
     peakEquity_ := peak;
     maxDrawdown_ :=
       if drawdown >? maxDrawdown_ b then drawdown else maxDrawdown_ b |}.

Definition updatePosition (b : t) (price : double) (timestamp : Z) (signal : Signal) : t :=
  if Signal_eqb signal (currentPosition_ b) then b
  else
    let b := match currentPosition_ b with
             | FLAT => b
             | _ => closePosition b price timestamp
             end in
    let b := openPosition b price timestamp signal in
    recordEquity b timestamp.

(** [seconds > 0 ? tickCount / seconds : 0.0] under [endTime > startTime]. *)
Definition ticksPerSecondOf (startTime endTime tickCount : Z) : double :=
  if (startTime <? endTime)%Z then
    let seconds := d_of_Z (wrap_i64 (endTime - startTime)) / d_lit 1 6 in
    if seconds >? d_lit 0 0 then d_of_Z tickCount / seconds else d_lit 0 0
  else d_lit 0 0.

(** The loop that collects the equity-curve returns. *)
Fixpoint returnsOf (previous : double) (rest : list double) : list double :=
  match rest with
  | [] => []
  | e :: rest' =>
      (if previous >? d_lit 0 0 then [(e - previous) / previous] else [])
      ++ returnsOf e rest'
  end.

Definition accumulate (l : list double) : double :=
  fold_left d_add l (d_lit 0 0).

Definition volatilityOf (equityCurve : list double) : double :=
  match equityCurve with
  | e0 :: (_ :: _) as rest =>
      let returns := returnsOf e0 rest in
      match returns with
      | [] => d_lit 0 0
      | _ :: _ =>
          let n := d_of_Z (Z.of_nat (length returns)) in
          let meanReturn := accumulate returns / n in
          let variance :=
            fold_left (fun v r => v + (r - meanReturn) * (r - meanReturn))
                      returns (d_lit 0 0) in
          let variance := variance / n in
          d_sqrt variance * d_sqrt (d_of_Z (252 * 24 * 60 * 60))
      end
  | _ => d_lit 0 0
  end.

Definition calculateMetrics (b : t) (startTime endTime tickCount : Z)
  : PerformanceMetrics double :=
  match trades_ b with
  | [] =>
      {| totalReturn := d_lit 0 0;
         volatility := d_lit 0 0;
         sharpeRatio := d_lit 0 0;
         maxDrawdown := maxDrawdown_ b;
         winRate := d_lit 0 0;
         avgTradeLength := d_lit 0 0;
         ticksPerSecond := ticksPerSecondOf startTime endTime tickCount;
         totalTrades := 0;
         winningTrades := 0;
         totalTicks := tickCount |}
  | _ :: _ =>
      let initialEquity := d_lit 100000 0 in
      let finalEquity := equity_ b in
      let totalReturn := (finalEquity - initialEquity) / initialEquity in
      let totalTrades := Z.of_nat (length (trades_ b)) in
      let winningTrades :=
        Z.of_nat (length (filter (fun t => pnl t >? d_lit 0 0) (trades_ b))) in
      let winRate :=
        if (0 <? totalTrades)%Z
        then d_of_Z winningTrades / d_of_Z totalTrades else d_lit 0 0 in
      let totalDuration :=
        fold_left (fun sum t => sum + d_of_Z (duration t)) (trades_ b) (d_lit 0 0) in
      let avgTradeLength :=
        if (0 <? totalTrades)%Z
        then (totalDuration / d_of_Z totalTrades) / d_lit 1 6 else d_lit 0 0 in
      let volatility := volatilityOf (equityCurve_ b) in
      let sharpeRatio :=
        if volatility >? d_lit 1 (-10)
        then totalReturn / volatility * d_sqrt (d_lit 252 0)
        else d_lit 0 0 in
      {| totalReturn := totalReturn;
         volatility := volatility;
         sharpeRatio := sharpeRatio;
         maxDrawdown := maxDrawdown_ b;
         winRate := winRate;
         avgTradeLength := avgTradeLength;
         ticksPerSecond := ticksPerSecondOf startTime endTime tickCount;
         totalTrades := totalTrades;
         winningTrades := winningTrades;
         totalTicks := tickCount |}
  end.

(** The locals of [run] that the loop carries. *)
Record loop : Type := {
  stats : RollingStatistics.t double;
  signalGen : SignalGenerator.t double;
  engine : t;
  lastTick : option (Tick double);   (* [None]: not yet assigned *)
  startTime : Z;
  endTime : Z;
  tickCount : Z
}.

(** The body of [while (reader.next(tick))]. *)
Definition onTick (tick : Tick double) (l : loop) : loop :=
  let midPrice := mid tick in
  let stats' := RollingStatistics.update (stats l) midPrice in
  let '(signal, signalGen') :=
    SignalGenerator.generate (signalGen l) midPrice stats' in
  {| stats := stats';
     signalGen := signalGen';
     engine := updatePosition (engine l) midPrice (timestamp tick) signal;
     lastTick := Some tick;
     startTime := if (startTime l =? 0)%Z then timestamp tick else startTime l;
     endTime := timestamp tick;
     tickCount := wrap_u64 (tickCount l + 1) |}.

(** The state [run] starts the loop from. *)
Definition start (b : t) (threshold : double) : loop :=
  {| stats := RollingStatistics.new 20000;
     signalGen := SignalGenerator.new threshold;
     engine :=
       {| commission_ := commission_ b;
          slippage_ := slippage_ b;
          trades_ := [];
          equityCurve_ := [d_lit 100000 0];
          equityTimestamps_ := [0%Z];
          currentPosition_ := FLAT;
          entryPrice_ := entryPrice_ b;
          entryTime_ := entryTime_ b;
          equity_ := d_lit 100000 0;
          peakEquity_ := d_lit 100000 0;
          maxDrawdown_ := d_lit 0 0 |};
     lastTick := None;
     startTime := 0;
     endTime := 0;
     tickCount := 0 |}.

(** "Close any open position at the end". *)
Definition finish (l : loop) : t :=
  match currentPosition_ (engine l), lastTick l with
  | (LONG | SHORT), Some tick =>
      if (0 <? tickCount l)%Z
      then closePosition (engine l) (mid tick) (timestamp tick)
      else engine l
  | _, _ => engine l
  end.

Variable stod : list byte -> conv double.

(** [run(dataFile, threshold)]: the metrics or the exception, and the
    engine as the call leaves it.  [dataFile] is the content the path
    names, [None] when it cannot be opened. *)
Definition run (b : t) (dataFile : option (list byte)) (threshold : double)
  : (exn + PerformanceMetrics double) * t :=
  let reader := MarketDataReader.new dataFile in
  if negb (MarketDataReader.isValid reader) then (inl runtime_error, b)
  else
    let '(l, _, thrown) :=
      MarketDataReader.while_next stod onTick reader (start b threshold) in
    match thrown with
    | Some e => (inl e, engine l)
    | None =>
        let b' := finish l in
        (inr (calculateMetrics b' (startTime l) (endTime l) (tickCount l)), b')
    end.

End Engine.


(** [std::string::find_last_of(c)]: the last position of [c]. *)
Fixpoint find_last_of (c : byte) (s : list byte) : option nat :=
  match s with
  | [] => None
  | b :: s' =>
      match find_last_of c s' with
      | Some i => Some (S i)
      | None => if Byte.eqb b c then Some O else None
      end
  end.

(** [writeResults], the name of the trades file made from [filename]. *)
Definition tradesFile (filename : list byte) : list byte :=
  match find_last_of x2e filename with
  | Some dotPos => firstn dotPos filename ++ list_byte_of_string "_trades.csv"
  | None => filename ++ list_byte_of_string "_trades.csv"
  end.

Arguments t double : clear implicits.
Arguments loop double : clear implicits.
End Backtester.

(** ** LockFreeQueue.hpp

    One operation at a time: the model gives what a call does when no other
    thread runs during it.  A slot holds [T*]; [None] is [nullptr].  An access
    outside the array is undefined in C++ and is the outcome [None] of the
    operation. *)

Module LockFreeQueue.
Section Queue.
Context {T : Type}.   (* the non-null values of [T*] *)

Record t : Type := {
  capacity_ : Z;              (* const size_t *)
  mask_ : Z;                  (* const size_t *)
  buffer_ : list (option T);  (* std::atomic<T*>[capacity] *)
  head_ : Z;
  tail_ : Z
}.

(** The constructor: the queue, or the exception it throws.  The member
    initialisers run first: [new std::atomic<T*>[capacity]] throws
    [std::bad_array_new_length] when the array of 8-byte slots would exceed
    [PTRDIFF_MAX] bytes, that is from capacity [2 ^ 60] on.  Whether the
    memory for a smaller array can be had ([std::bad_alloc]) depends on the
    machine and is not modelled.  The test of the capacity follows. *)
Definition new (capacity : Z) : exn + t :=
  let mask := wrap_u64 (capacity - 1) in
  if 2 ^ 60 <=? capacity then inl bad_array_new_length
  else if negb (Z.land capacity mask =? 0) then inl invalid_argument
  else
    inr {| capacity_ := capacity;
           mask_ := mask;
           buffer_ := repeat None (Z.to_nat capacity);
           head_ := 0;
           tail_ := 0 |}.

Definition slot (q : t) (i : Z) : option (option T) :=
  if (0 <=? i) then nth_error (buffer_ q) (Z.to_nat i) else None.

Fixpoint store_at (l : list (option T)) (i : nat) (v : option T) : list (option T) :=
  match l, i with
  | [], _ => []
  | _ :: l', O => v :: l'
  | x :: l', S i' => x :: store_at l' i' v
  end.

Definition set_slot (q : t) (i : Z) (v : option T) : t :=
  {| capacity_ := capacity_ q; mask_ := mask_ q;
     buffer_ := store_at (buffer_ q) (Z.to_nat i) v;
     head_ := head_ q; tail_ := tail_ q |}.

Definition set_tail (q : t) (v : Z) : t :=
  {| capacity_ := capacity_ q; mask_ := mask_ q; buffer_ := buffer_ q;
     head_ := head_ q; tail_ := v |}.

Definition set_head (q : t) (v : Z) : t :=
  {| capacity_ := capacity_ q; mask_ := mask_ q; buffer_ := buffer_ q;
     head_ := v; tail_ := tail_ q |}.

(** [tryPush(item)].  [spurious] tells whether [compare_exchange_weak]
    fails although the slot holds the expected value. *)
Definition tryPush (q : t) (item : option T) (spurious : bool) : option (bool * t) :=
  match item with
  | None => Some (false, q)
  | Some _ =>
      let currentTail := tail_ q in
      let nextTail := Z.land (wrap_u64 (currentTail + 1)) (mask_ q) in
      if nextTail =? head_ q then Some (false, q)
      else
        match slot q currentTail with
        | None => None
        | Some None =>
            if spurious then Some (false, q)
            else Some (true, set_tail (set_slot q currentTail item) nextTail)
        | Some (Some _) => Some (false, q)
        end
  end.

(** [tryPop(item)]: the popped pointer is the second component. *)
Definition tryPop (q : t) : option (option T * t) :=
  let currentHead := head_ q in
  if currentHead =? tail_ q then Some (None, q)
  else
    match slot q currentHead with
    | None => None
    | Some None => Some (None, q)
    | Some (Some value) =>
        Some (Some value,
              set_head (set_slot q currentHead None)
                       (Z.land (wrap_u64 (currentHead + 1)) (mask_ q)))
    end.

Definition empty (q : t) : bool := head_ q =? tail_ q.

Definition size (q : t) : Z := Z.land (wrap_u64 (tail_ q - head_ q)) (mask_ q).

(** The number of slots that hold a pointer. *)
Definition occupied (q : t) : nat :=
  length (filter (fun s => match s with Some _ => true | None => false end)
                 (buffer_ q)).

Lemma store_at_occupied (l : list (option T)) (i : nat) (value : T) :
  nth_error l i = Some (Some value) ->
  (length (filter (fun s => match s with Some _ => true | None => false end)
                  (store_at l i None))
   < length (filter (fun s => match s with Some _ => true | None => false end) l))%nat.
Proof.
  revert i. induction l as [|x l IH]; intros [|i] E; cbn in *; try discriminate.
  - injection E as ->. cbn. lia.
  - specialize (IH _ E). destruct x; cbn; lia.
Qed.

(** A successful [tryPop] empties a slot. *)
Lemma tryPop_occupied (q q' : t) (item : T) :
  tryPop q = Some (Some item, q') -> (occupied q' < occupied q)%nat.
Proof.
  unfold tryPop, slot.
  destruct (head_ q =? tail_ q); [discriminate|].
  destruct (0 <=? head_ q); [|discriminate].
  destruct (nth_error (buffer_ q) (Z.to_nat (head_ q))) as [[value|]|] eqn:E;
    try discriminate.
  intros [= <- <-]. unfold occupied. cbn.
  eapply store_at_occupied; eassumption.
Qed.

(** The destructor: [while (tryPop(item)) delete item;], as the pointers it
    deletes, in order ([delete[] buffer_] follows). *)
Equations? destroy (q : t) : option (list T) by wf (occupied q) lt :=
  destroy q with inspect (tryPop q) := {
    | exist _ None _ => None
    | exist _ (Some (None, _)) _ => Some []
    | exist _ (Some (Some item, q')) Hpop => option_map (cons item) (destroy q') }.
Proof. eapply tryPop_occupied; eassumption. Qed.

End Queue.
Arguments t T : clear implicits.
End LockFreeQueue.

(** ** The Tick Source, read as a function of the file

    What the iteration protocol of [MarketDataReader] amounts to, as plain
    recursion over the bytes after the cursor.  These are not translations of
    source functions; they are proved equal to the translated ones below. *)

(** The lines of [s]: the runs between newlines; a last run without a newline
    is a line, a newline at the very end starts no line. *)
Fixpoint lines (s : list byte) : list (list byte) :=
  match s with
  | [] => []
  | b :: s' =>
      if Byte.eqb b LF then [] :: lines s'
      else match lines s' with
           | [] => [[b]]
           | l :: ls => (b :: l) :: ls
           end
  end.

(** The first line of [s] and what follows its newline. *)
Fixpoint cut (s : list byte) : list byte * list byte :=
  match s with
  | [] => ([], [])
  | b :: s' =>
      if Byte.eqb b LF then ([], s')
      else let (l, rest) := cut s' in (b :: l, rest)
  end.

(** A line without its trailing carriage return. *)
Definition strip_cr (l : list byte) : list byte :=
  if (0 <? length l)%nat
     && match nth_error l (length l - 1) with
        | Some b => Byte.eqb b CR
        | None => false
        end
  then firstn (length l - 1) l else l.

Section Scan.
Context {double : Type}.
Variable stod : list byte -> conv double.

Definition parse_record (l : list byte) : parsed (Tick double) :=
  let l' := strip_cr l in
  if (0 <? length l')%nat then MarketDataReader.parseLine stod l' else NotParsed.

(** The ticks a pass yields from the remaining lines, and the exception
    that ends it, if any.  An empty line ends the pass. *)
Fixpoint scan (ls : list (list byte)) : list (Tick double) * option exn :=
  match ls with
  | [] => ([], None)
  | [] :: _ => ([], None)
  | l :: ls' =>
      match parse_record l with
      | Parsed tick => let (ticks, e) := scan ls' in (tick :: ticks, e)
      | NotParsed => scan ls'
      | Threw e => ([], Some e)
      end
  end.

(** The records of a file in the sense of the specification: every line
    after the header that parses, in file order. *)
Fixpoint records (ls : list (list byte)) : list (Tick double) :=
  match ls with
  | [] => []
  | l :: ls' =>
      match parse_record l with
      | Parsed tick => tick :: records ls'
      | _ => records ls'
      end
  end.

(** The bytes after the header line (the whole file when it has no
    newline, as the constructor leaves the cursor at 0 then). *)
Definition body_of (file : list byte) : list byte :=
  match MarketDataReader.find_byte LF file with
  | Some nl => skipn (S nl) file
  | None => file
  end.

(** One full pass over a reader: the ticks in the order [next] returns
    them, and the exception that ended the pass, if any. *)
Definition iterate (r : MarketDataReader.t) : list (Tick double) * option exn :=
  let '(ticks, _, e) :=
    MarketDataReader.while_next stod (fun tick acc => acc ++ [tick]) r [] in
  (ticks, e).

(** The reader a full pass leaves behind. *)
Definition after_pass (r : MarketDataReader.t) : MarketDataReader.t :=
  let '(_, r', _) :=
    MarketDataReader.while_next stod (fun tick (acc : unit) => acc) r tt in
  r'.

End Scan.

(** The engine of [Backtester::run] fed with the ticks of a pass. *)
Section RunOn.
Context {double : Type} `{Double double}.

Definition run_on (b : Backtester.t double) (threshold : double)
    (ticks : list (Tick double)) : Backtester.loop double :=
  fold_left (fun l tick => Backtester.onTick tick l) ticks
            (Backtester.start b threshold).



(** What [run] returns once the pass over the file is known. *)
Definition run_of (b : Backtester.t double) (threshold : double)
    (pass : list (Tick double) * option exn)
  : (exn + PerformanceMetrics double) * Backtester.t double :=
  let l := run_on b threshold (fst pass) in
  match snd pass with
  | Some e => (inl e, Backtester.engine l)
  | None =>
      let b' := Backtester.finish l in
      (inr (Backtester.calculateMetrics b' (Backtester.startTime l)
              (Backtester.endTime l) (Backtester.tickCount l)), b')
  end.

End RunOn.

(** ** Statistics of a finite sample, over the reals *)

Definition sum_list (xs : list R) : R := fold_right Rplus 0%R xs.

Definition average (xs : list R) : R :=
  (sum_list xs / IZR (Z.of_nat (length xs)))%R.

(** The population variance: the mean squared deviation from the average. *)
Definition population_variance (xs : list R) : R :=
  (sum_list (map (fun x => (x - average xs) * (x - average xs)) xs)
   / IZR (Z.of_nat (length xs)))%R.

(** The estimator after the samples [xs], oldest first. *)
Definition absorbed {double : Type} `{Double double} (windowSize : Z)
    (xs : list double) : RollingStatistics.t double :=
  fold_left RollingStatistics.update xs (RollingStatistics.new windowSize).

(** A generator with threshold 2.5 and statistics over the window 2 after the
    samples 99 and 101, over the reals. *)
Definition generator0 : SignalGenerator.t R := SignalGenerator.new (5 / 2)%R.

Definition statistics0 : RollingStatistics.t R :=
  {| RollingStatistics.windowSize_ := 2;
     RollingStatistics.writeIndex_ := 2;
     RollingStatistics.count_ := 2;
     RollingStatistics.alpha_ := (2 / (2 + 1))%R;
     RollingStatistics.mean_ := 100%R;
     RollingStatistics.variance_ := 1%R;
     RollingStatistics.m2_ := 2%R |}.

(** ** The Sharpe rule of the specification, on reported metrics *)

Definition sharpe_rule {double : Type} `{Double double}
    (m : PerformanceMetrics double) : Prop :=
  sharpeRatio m
  = if (volatility m >? d_lit 1 (-10))%dbl
    then (totalReturn m / volatility m * d_sqrt (d_lit 252 0))%dbl
    else d_lit 0 0.

(** ** Order of the tick timestamps *)

(** Every element is below its successor, strictly or not. *)
Fixpoint chainb (strict : bool) (l : list Z) : bool :=
  match l with
  | a :: (b :: _) as rest =>
      (if strict then a <? b else a <=? b) && chainb strict rest
  | _ => true
  end.

Definition nondecreasingb (l : list Z) : bool := chainb false l.
Definition increasingb (l : list Z) : bool := chainb true l.

(** ** Notions the properties are stated with *)

(** [r] maps the file content [data]. *)
Definition mapped (r : MarketDataReader.t) (data : list byte) : Prop :=
  MarketDataReader.data_ r = Some data /\
  MarketDataReader.size_ r = length data.

(** The bytes from the cursor on. *)
Definition rest_of (r : MarketDataReader.t) (data : list byte) : list byte :=
  skipn (MarketDataReader.position_ r) data.

(** Where the header line ends: one past its newline, 0 without one. *)
Definition header_end (file : option (list byte)) : nat :=
  match file with
  | Some data =>
      match MarketDataReader.find_byte LF data with
      | Some nl => S nl
      | None => 0%nat
      end
  | None => 0%nat
  end.

Definition power_of_two (c : Z) : Prop := exists k : Z, 0 <= k /\ c = 2 ^ k.

(** The sum of the squares of a sample. *)
Definition sum_squares (xs : list R) : R := sum_list (map (fun x => (x * x)%R) xs).

(** [a] before [b], strictly or not. *)
Definition below (strict : bool) (a b : Z) : Prop :=
  if strict then a < b else a <= b.

Section Observations.
Context {double : Type}.



(** A trade with its times in order, strictly or not, and its duration
    computed from them in [int64_t]. *)
Definition trade_ordered (strict : bool) (trade : Trade double) : Prop :=
  below strict (entryTime trade) (exitTime trade) /\
  duration trade = wrap_i64 (exitTime trade - entryTime trade).

(** An engine no trade has touched: the starting capital, and the seed
    point alone on the curve. *)
Definition pristine `{Double double} (b : Backtester.t double) : Prop :=
  Backtester.equity_ b = d_lit 100000 0 /\
  Backtester.equityCurve_ b = [d_lit 100000 0].

(** With an empty log and no open position, nothing has touched the engine. *)
Definition untouched `{Double double} (b : Backtester.t double) : Prop :=
  Backtester.trades_ b = [] -> Backtester.currentPosition_ b = FLAT -> pristine b.

(** The return and the volatility of section 4.5, from the final engine. *)
Definition return_of `{Double double} (b : Backtester.t double) : double :=
  ((Backtester.equity_ b - d_lit 100000 0) / d_lit 100000 0)%dbl.

(** The invariant of the loop: the logged trades are ordered, an open
    position was entered no later than the last tick seen, at time [seen],
    and [lastTick] is that tick. *)
Definition times_ok (strict : bool) (seen : Z) (l : Backtester.loop double) : Prop :=
  Forall (trade_ordered strict) (Backtester.trades_ (Backtester.engine l)) /\
  (Backtester.currentPosition_ (Backtester.engine l) <> FLAT ->
   Backtester.entryTime_ (Backtester.engine l) <= seen) /\
  (forall tick, Backtester.lastTick l = Some tick -> timestamp tick = seen).

End Observations.

(** The table of the signal state machine, with the tests as the code
    evaluates them: what [generate] may leave in [after] when it found
    [before] and computed the z-score [z]. *)
Definition tabled {double : Type} `{Double double}
    (threshold z : double) (before after : Signal) : Prop :=
  match before with
  | FLAT =>
      (after = LONG <-> (z <? - threshold)%dbl = true) /\
      (after = SHORT <-> (z >? threshold)%dbl = true) /\
      (after = FLAT <->
       (z <? - threshold)%dbl = false /\ (z >? threshold)%dbl = false)
  | LONG =>
      (after = FLAT <-> (z >=? d_lit 0 0)%dbl = true) /\
      (after = LONG <-> (z >=? d_lit 0 0)%dbl = false) /\
      after <> SHORT
  | SHORT =>
      (after = FLAT <-> (z <=? d_lit 0 0)%dbl = true) /\
      (after = SHORT <-> (z <=? d_lit 0 0)%dbl = false) /\
      after <> LONG
  end.

(** ** Input files used below *)

Definition line (s : string) : list byte := list_byte_of_string s ++ [LF].

Definition header : list byte := line "timestamp,bid,ask,volume".

(** The file of the repository's test [MarketDataReaderTest.MalformedLines]. *)
Definition file_malformed : list byte :=
  header
  ++ line "1000000,4500.25,4500.50,100"
  ++ line "invalid_line"
  ++ line "2000000,4500.75,4501.00,200"
  ++ line "another,bad,line"
  ++ line "3000000,4501.25,4501.50,150".

(** Two records separated by an empty line. *)
Definition file_blank : list byte :=
  header
  ++ line "1000000,4500.25,4500.50,100"
  ++ line ""
  ++ line "2000000,4500.75,4501.00,200".

Definition tick1 : Tick float :=
  {| timestamp := 1000000; bid := 4500.25%float; ask := 4500.5%float; volume := 100 |}.
Definition tick2 : Tick float :=
  {| timestamp := 2000000; bid := 4500.75%float; ask := 4501%float; volume := 200 |}.
Definition tick3 : Tick float :=
  {| timestamp := 3000000; bid := 4501.25%float; ask := 4501.5%float; volume := 150 |}.

(** The line of a tick at [time] with bid and ask both at [price]. *)
Definition tick_line (time : positive) (price : string) : list byte :=
  line (NilEmpty.string_of_uint (Pos.to_uint time)
        ++ "," ++ price ++ "," ++ price ++ ",1").

(** [n] ticks at the times [from], [from + 1], ..., with mids 99 (odd times)
    and 101 (even times). *)
Fixpoint fill_ticks (n : nat) (from : positive) : list byte :=
  match n with
  | O => []
  | S n' =>
      tick_line from (match from with xO _ => "101" | _ => "99" end)
      ++ fill_ticks n' (Pos.succ from)
  end.

(** 20000 ticks at the times 1 to 20000, which fill the window of [run] and
    leave mean 100 and variance 1; then a tick at 90: the signal turns LONG
    at that tick, the last of the file. *)
Definition file_entry_at_last_tick : list byte :=
  header ++ fill_ticks (200 * 100) 1 ++ tick_line 20001 "90".

(** The same file with one more tick, at 95: the position is still open when
    the stream ends and is closed there at a profit. *)
Definition file_open_at_end : list byte :=
  header ++ fill_ticks (200 * 100) 1
  ++ tick_line 20001 "90" ++ tick_line 20002 "95".


(** The same ticks, then a tick at 90, which opens a LONG again, and a tick
    at 95, which keeps it: the position, open since the tick before the
    last, is closed when the stream ends. *)
Definition file_two_trades : list byte :=
  header ++ fill_ticks (200 * 100) 1
  ++ tick_line 20001 "90" ++ tick_line 20002 "101"
  ++ tick_line 20003 "90" ++ tick_line 20004 "95".

(** [Backtester(2.10, 1.0)], the arguments [main] passes, with the tick size
    0.25 the class declares.  The constructor of the program reads
    [tickSize_] before that member is initialised, so the [slippage_] of the
    compiled program need not be 0.25. *)
Definition backtester0 : Backtester.t float :=
  Backtester.new (d_lit 21 (-1)) (d_lit 1 0) (d_lit 25 (-2)).

Definition threshold0 : float := d_lit 25 (-1).

(** ** Notions and inputs of the further properties *)

(** The queue [q] holds the items [l], oldest first: the capacity is a power
    of two with its mask, the indices are inside the array, [l] is shorter
    than the capacity, and the slot [i] places after [head_] holds the [i]-th
    item of [l], or [nullptr] past the end of [l]. *)
Definition holds {T : Type} (q : LockFreeQueue.t T) (l : list T) : Prop :=
  (exists k : Z, 0 <= k < 64 /\ LockFreeQueue.capacity_ q = 2 ^ k) /\
  LockFreeQueue.mask_ q = LockFreeQueue.capacity_ q - 1 /\
  length (LockFreeQueue.buffer_ q) = Z.to_nat (LockFreeQueue.capacity_ q) /\
  0 <= LockFreeQueue.head_ q < LockFreeQueue.capacity_ q /\
  Z.of_nat (length l) < LockFreeQueue.capacity_ q /\
  LockFreeQueue.tail_ q
  = (LockFreeQueue.head_ q + Z.of_nat (length l)) mod LockFreeQueue.capacity_ q /\
  forall i : Z,
    0 <= i < LockFreeQueue.capacity_ q ->
    LockFreeQueue.slot q ((LockFreeQueue.head_ q + i) mod LockFreeQueue.capacity_ q)
    = Some (nth_error l (Z.to_nat i)).



(** A queue of capacity 4 that holds the items 7 and 8. *)
Definition queue78 : LockFreeQueue.t Z :=
  {| LockFreeQueue.capacity_ := 4;
     LockFreeQueue.mask_ := 3;
     LockFreeQueue.buffer_ := [None; Some 7; Some 8; None];
     LockFreeQueue.head_ := 1;
     LockFreeQueue.tail_ := 3 |}.

(** A queue of capacity 4 that holds three items, 7, 8 and 9. *)
Definition queue789 : LockFreeQueue.t Z :=
  {| LockFreeQueue.capacity_ := 4;
     LockFreeQueue.mask_ := 3;
     LockFreeQueue.buffer_ := [None; Some 7; Some 8; Some 9];
     LockFreeQueue.head_ := 1;
     LockFreeQueue.tail_ := 0 |}.

(** The position of the engine is flat or is the state of the generator. *)
Definition follows {double : Type} (l : Backtester.loop double) : Prop :=
  Backtester.currentPosition_ (Backtester.engine l) = FLAT \/
  Backtester.currentPosition_ (Backtester.engine l)
  = SignalGenerator.currentSignal_ (Backtester.signalGen l).

(** Two engines with the same books: everything but the entry of a position
    that is not open. *)
Definition same_books {double : Type} (b1 b2 : Backtester.t double) : Prop :=
  Backtester.commission_ b1 = Backtester.commission_ b2 /\
  Backtester.slippage_ b1 = Backtester.slippage_ b2 /\
  Backtester.trades_ b1 = Backtester.trades_ b2 /\
  Backtester.equityCurve_ b1 = Backtester.equityCurve_ b2 /\
  Backtester.equityTimestamps_ b1 = Backtester.equityTimestamps_ b2 /\
  Backtester.currentPosition_ b1 = Backtester.currentPosition_ b2 /\
  Backtester.equity_ b1 = Backtester.equity_ b2 /\
  Backtester.peakEquity_ b1 = Backtester.peakEquity_ b2 /\
  Backtester.maxDrawdown_ b1 = Backtester.maxDrawdown_ b2 /\
  (Backtester.currentPosition_ b1 <> FLAT ->
   Backtester.entryPrice_ b1 = Backtester.entryPrice_ b2 /\
   Backtester.entryTime_ b1 = Backtester.entryTime_ b2).



(** An engine that has been used: a trade in its log, a curve, a changed
    equity and the entry of a position that is closed. *)
Definition backtester_used : Backtester.t float :=
  {| Backtester.commission_ := Backtester.commission_ backtester0;
     Backtester.slippage_ := Backtester.slippage_ backtester0;
     Backtester.trades_ :=
       [{| entryTime := 1; exitTime := 2; entryPrice := 90%float;
           exitPrice := 95%float; direction := LONG; pnl := 248%float;
           duration := 1 |}];
     Backtester.equityCurve_ := [100000%float; 99998%float];
     Backtester.equityTimestamps_ := [0; 1];
     Backtester.currentPosition_ := FLAT;
     Backtester.entryPrice_ := 90%float;
     Backtester.entryTime_ := 1;
     Backtester.equity_ := 100246%float;
     Backtester.peakEquity_ := 100000%float;
     Backtester.maxDrawdown_ := 0%float |}.



(** Statistics over a window of two samples, filled, in binary64. *)
Definition statistics_ready : RollingStatistics.t float :=
  {| RollingStatistics.windowSize_ := 2;
     RollingStatistics.writeIndex_ := 2;
     RollingStatistics.count_ := 2;
     RollingStatistics.alpha_ := (2 / 3)%float;
     RollingStatistics.mean_ := 100%float;
     RollingStatistics.variance_ := 1%float;
     RollingStatistics.m2_ := 2%float |}.

(** The file with every newline turned into carriage return, newline. *)
Definition to_crlf (file : list byte) : list byte :=
  flat_map (fun b => if Byte.eqb b LF then [CR; LF] else [b]) file.

(** A line as it is, or with a carriage return at its end. *)
Definition with_cr (l' l : list byte) : Prop := l' = l \/ l' = l ++ [CR].

(** A line that is not empty and does not end in a carriage return. *)
Definition plain_line (l : list byte) : Prop := l <> [] /\ last l LF <> CR.

(** Two records with newlines only. *)
Definition file_unix : list byte :=
  header
  ++ line "1000000,4500.25,4500.50,100"
  ++ line "2000000,4500.75,4501.00,200".

(** A field: a token without a comma. *)
Definition no_comma (token : list byte) : Prop :=
  Forall (fun b => b <> comma) token.

(** * Properties *)

(** ** Tick Source: unfolding [next] and the loop *)

Section ReaderFacts.
Context {double : Type}.
Variable stod : list byte -> conv double.
Import MarketDataReader.

Lemma next_eq (r : t) :
  next stod r =
  if has_input r then
    if (line_end r <=? position_ r)%nat then (EndOfStream, r)
    else match parse_at stod r (line_end r) with
         | Parsed tick => (Yield tick, set_position r (S (line_end r)))
         | Threw e => (Raise e, r)
         | NotParsed => next stod (set_position r (S (line_end r)))
         end
  else (EndOfStream, r).
Proof.
  funelim (next stod r);
    repeat match goal with
           | E : has_input _ = _ |- _ => rewrite E
           | E : Nat.leb _ _ = _ |- _ => rewrite E
           | E : parse_at _ _ _ = _ |- _ => rewrite E
           end; reflexivity.
Qed.

Lemma while_next_eq {St : Type} (body : Tick double -> St -> St)
    (r : t) (s : St) :
  while_next stod body r s =
  match next stod r with
  | (Yield tick, r') => while_next stod body r' (body tick s)
  | (EndOfStream, r') => (s, r', None)
  | (Raise e, r') => (s, r', Some e)
  end.
Proof.
  funelim (while_next stod body r s);
    match goal with E : next _ _ = _ |- _ => rewrite E end; reflexivity.
Qed.

End ReaderFacts.

(** ** Lines of a byte sequence *)

Lemma cut_find_None (s : list byte) :
  MarketDataReader.find_byte LF s = None -> cut s = (s, []).
Proof.
  induction s as [|b s IH]; cbn; [reflexivity|].
  destruct (Byte.eqb b LF); [discriminate|].
  destruct (MarketDataReader.find_byte LF s); [discriminate|].
  intros _. rewrite IH; reflexivity.
Qed.

Lemma cut_find_Some (s : list byte) (i : nat) :
  MarketDataReader.find_byte LF s = Some i ->
  cut s = (firstn i s, skipn (S i) s) /\ (i < length s)%nat.
Proof.
  revert i. induction s as [|b s IH]; cbn; [discriminate|].
  intros i. destruct (Byte.eqb b LF).
  - intros [= <-]. split; [reflexivity | lia].
  - destruct (MarketDataReader.find_byte LF s) as [j|]; [|discriminate].
    intros [= <-]. destruct (IH j eq_refl) as [-> Hj].
    split; [reflexivity | lia].
Qed.

(** The first line is a prefix, and the rest starts one byte after it. *)
Lemma cut_prefix (s : list byte) :
  firstn (length (fst (cut s))) s = fst (cut s) /\
  skipn (S (length (fst (cut s)))) s = snd (cut s) /\
  (length (fst (cut s)) <= length s)%nat.
Proof.
  induction s as [|b s IH]; cbn; [repeat split; lia|].
  destruct (Byte.eqb b LF); cbn; [repeat split; lia|].
  destruct (cut s) as [l rest]; cbn in *.
  destruct IH as (-> & H2 & H3). repeat split; [exact H2 | lia].
Qed.

Lemma cut_length (s : list byte) :
  MarketDataReader.find_byte LF s = None -> length (fst (cut s)) = length s.
Proof. intros E. rewrite (cut_find_None _ E). reflexivity. Qed.

Lemma cut_length_Some (s : list byte) (i : nat) :
  MarketDataReader.find_byte LF s = Some i -> length (fst (cut s)) = i.
Proof.
  intros E. destruct (cut_find_Some _ _ E) as [-> Hi]. cbn.
  rewrite length_firstn. lia.
Qed.

Lemma lines_cut (s : list byte) :
  s <> [] -> lines s = fst (cut s) :: lines (snd (cut s)).
Proof.
  induction s as [|b s IH]; [congruence|]. intros _. cbn.
  destruct (Byte.eqb b LF); [reflexivity|].
  destruct s as [|c s'].
  - reflexivity.
  - rewrite IH by discriminate.
    destruct (cut (c :: s')) as [l rest]. reflexivity.
Qed.

Lemma cut_rest_shorter (s : list byte) :
  s <> [] -> (length (snd (cut s)) < length s)%nat.
Proof.
  induction s as [|b s IH]; [congruence|]. intros _. cbn.
  destruct (Byte.eqb b LF); cbn; [lia|].
  destruct s as [|c s'].
  - cbn. lia.
  - specialize (IH ltac:(discriminate)).
    destruct (cut (c :: s')) as [l rest]. cbn in *. lia.
Qed.

Section ReaderScan.
Context {double : Type}.
Variable stod : list byte -> conv double.
Import MarketDataReader.

Lemma mapped_set_position (r : t) (data : list byte) (p : nat) :
  mapped r data -> mapped (set_position r p) data.
Proof. intros [? ?]; split; assumption. Qed.

Lemma has_input_rest (r : t) (data : list byte) :
  mapped r data ->
  has_input r = match rest_of r data with [] => false | _ :: _ => true end.
Proof.
  intros [Hd Hs]. unfold has_input, rest_of. rewrite Hd, Hs.
  destruct (skipn (position_ r) data) eqn:E.
  - apply Nat.ltb_ge. apply (f_equal (@length byte)) in E.
    rewrite length_skipn in E. cbn in E. lia.
  - apply Nat.ltb_lt. apply (f_equal (@length byte)) in E.
    rewrite length_skipn in E. cbn in E. lia.
Qed.

Lemma line_end_rest (r : t) (data : list byte) :
  mapped r data -> has_input r = true ->
  line_end r = (position_ r + length (fst (cut (rest_of r data))))%nat.
Proof.
  intros [Hd Hs] Hin. pose proof (has_input_lt _ Hin) as Hlt.
  unfold line_end, memchr, rest_of. rewrite Hd, Hs.
  rewrite firstn_all2 by (rewrite length_skipn; lia).
  destruct (find_byte LF (skipn (position_ r) data)) as [i|] eqn:E; cbn.
  - rewrite (cut_length_Some _ _ E). reflexivity.
  - rewrite (cut_length _ E), length_skipn. lia.
Qed.

Lemma parse_at_rest (r : t) (data : list byte) :
  mapped r data -> has_input r = true ->
  parse_at stod r (line_end r) = parse_record stod (fst (cut (rest_of r data))).
Proof.
  intros Hm Hin. rewrite (line_end_rest _ _ Hm Hin).
  destruct Hm as [Hd Hs]. unfold parse_at, parse_record. rewrite Hd.
  set (s := rest_of r data). set (l := fst (cut s)).
  destruct (cut_prefix s) as (Hpre & _ & Hlen). fold l in Hpre, Hlen.
  assert (Hline : line_length data (position_ r) (position_ r + length l)
                  = length (strip_cr l)).
  { unfold line_length, strip_cr.
    replace (position_ r + length l - position_ r)%nat with (length l) by lia.
    destruct (0 <? length l)%nat eqn:Hpos; cbn [andb]; [|reflexivity].
    apply Nat.ltb_lt in Hpos.
    replace (position_ r + length l - 1)%nat
      with (position_ r + (length l - 1))%nat by lia.
    rewrite <- nth_error_skipn. fold (rest_of r data). fold s.
    assert (Hn : nth_error s (length l - 1) = nth_error l (length l - 1)).
    { transitivity (nth_error (firstn (length l) s) (length l - 1));
        [|rewrite Hpre; reflexivity].
      rewrite nth_error_firstn.
      destruct (length l - 1 <? length l)%nat eqn:E; [reflexivity|].
      apply Nat.ltb_ge in E. lia. }
    rewrite Hn.
    destruct (nth_error l (length l - 1)) as [b|]; [|reflexivity].
    destruct (Byte.eqb b CR); [|reflexivity].
    rewrite length_firstn. lia. }
  rewrite Hline.
  assert (Hfirst : firstn (length (strip_cr l)) (skipn (position_ r) data)
                   = strip_cr l).
  { fold (rest_of r data). fold s. unfold strip_cr.
    destruct ((0 <? length l)%nat &&
              match nth_error l (length l - 1) with
              | Some b => Byte.eqb b CR
              | None => false
              end).
    - rewrite length_firstn.
      replace (Nat.min (length l - 1) (length l)) with (length l - 1)%nat by lia.
      transitivity (firstn (length l - 1) (firstn (length l) s));
        [|rewrite Hpre; reflexivity].
      rewrite firstn_firstn. f_equal. lia.
    - exact Hpre. }
  rewrite Hfirst. reflexivity.
Qed.

Lemma rest_of_advance (r : t) (data : list byte) :
  mapped r data -> has_input r = true ->
  rest_of (set_position r (S (line_end r))) data = snd (cut (rest_of r data)).
Proof.
  intros Hm Hin. rewrite (line_end_rest _ _ Hm Hin).
  unfold rest_of at 1. cbn [position_ set_position].
  destruct (cut_prefix (rest_of r data)) as (_ & Hskip & _).
  rewrite <- Hskip. unfold rest_of. rewrite skipn_skipn. f_equal. lia.
Qed.

(** [next], read over the bytes after the cursor. *)
Lemma next_rest (r : t) (data : list byte) :
  mapped r data ->
  next stod r =
  match rest_of r data with
  | [] => (EndOfStream, r)
  | _ :: _ =>
      match fst (cut (rest_of r data)) with
      | [] => (EndOfStream, r)
      | l =>
          match parse_record stod l with
          | Parsed tick => (Yield tick, set_position r (S (line_end r)))
          | Threw e => (Raise e, r)
          | NotParsed => next stod (set_position r (S (line_end r)))
          end
      end
  end.
Proof.
  intros Hm. rewrite next_eq. rewrite (has_input_rest _ _ Hm).
  destruct (rest_of r data) as [|b s] eqn:Erest; [reflexivity|].
  assert (Hin : has_input r = true)
    by (rewrite (has_input_rest _ _ Hm), Erest; reflexivity).
  rewrite (parse_at_rest _ _ Hm Hin), (line_end_rest _ _ Hm Hin), Erest.
  destruct (fst (cut (b :: s))) as [|c l] eqn:El.
  - cbn [length]. rewrite Nat.add_0_r, Nat.leb_refl. reflexivity.
  - replace (position_ r + length (c :: l) <=? position_ r)%nat with false
      by (symmetry; apply Nat.leb_gt; cbn; lia).
    reflexivity.
Qed.

(** The loop over [next] is a fold over the scanned ticks. *)
Lemma while_next_scan {St : Type} (body : Tick double -> St -> St)
    (data : list byte) (n : nat) :
  forall (r : t) (s : St),
    mapped r data -> (length (rest_of r data) <= n)%nat ->
    let '(s', _, e) := while_next stod body r s in
    s' = fold_left (fun s tick => body tick s)
                   (fst (scan stod (lines (rest_of r data)))) s /\
    e = snd (scan stod (lines (rest_of r data))).
Proof.
  induction n as [|n IH]; intros r s Hm Hn.
  - destruct (rest_of r data) eqn:E; [|cbn in Hn; lia].
    rewrite while_next_eq, (next_rest _ _ Hm), E. cbn. split; reflexivity.
  - rewrite while_next_eq, (next_rest _ _ Hm).
    destruct (rest_of r data) as [|b rest] eqn:E; [cbn; split; reflexivity|].
    rewrite lines_cut by discriminate.
    assert (Hin : has_input r = true)
      by (rewrite (has_input_rest _ _ Hm), E; reflexivity).
    pose proof (rest_of_advance _ _ Hm Hin) as Hadv. rewrite E in Hadv.
    pose proof (cut_rest_shorter (b :: rest) ltac:(discriminate)) as Hshort.
    pose proof (mapped_set_position _ _ (S (line_end r)) Hm) as Hm'.
    destruct (fst (cut (b :: rest))) as [|c l] eqn:El;
      [cbn; split; reflexivity|].
    cbn [scan].
    destruct (parse_record stod (c :: l)) as [tick| |e].
    + specialize (IH (set_position r (S (line_end r))) (body tick s) Hm').
      rewrite Hadv in IH. specialize (IH ltac:(cbn in *; lia)).
      destruct (while_next stod body _ (body tick s)) as [[s' r'] e'].
      destruct (scan stod (lines (snd (cut (b :: rest))))) as [ticks e0].
      cbn in *. exact IH.
    + rewrite <- while_next_eq.
      specialize (IH (set_position r (S (line_end r))) s Hm').
      rewrite Hadv in IH. specialize (IH ltac:(cbn in *; lia)).
      exact IH.
    + cbn. split; reflexivity.
Qed.

End ReaderScan.

(** ** Tick Source: the constructor, [reset] and a full pass *)

Section ReaderPass.
Context {double : Type}.
Variable stod : list byte -> conv double.
Import MarketDataReader.

Lemma memchr_0_all (data : list byte) :
  memchr data 0 LF (length data) = find_byte LF data.
Proof.
  unfold memchr. cbn [skipn]. rewrite firstn_all.
  destruct (find_byte LF data); reflexivity.
Qed.

Lemma new_mapped (b : byte) (file : list byte) :
  mapped (new (Some (b :: file))) (b :: file) /\
  rest_of (new (Some (b :: file))) (b :: file) = body_of (b :: file).
Proof.
  unfold new, mapped, rest_of, body_of. cbn [data_ size_ position_].
  rewrite memchr_0_all.
  destruct (find_byte LF (b :: file)); repeat split; reflexivity.
Qed.

Lemma next_preserves (r : t) :
  data_ (snd (next stod r)) = data_ r /\ size_ (snd (next stod r)) = size_ r.
Proof.
  funelim (next stod r); try (split; reflexivity).
  destruct H as [Hd Hs]. split; [exact Hd | exact Hs].
Qed.

Lemma while_next_preserves {St : Type} (body : Tick double -> St -> St)
    (r : t) (s : St) :
  data_ (snd (fst (while_next stod body r s))) = data_ r /\
  size_ (snd (fst (while_next stod body r s))) = size_ r.
Proof.
  funelim (while_next stod body r s);
    match goal with E : next _ _ = _ |- _ =>
      pose proof (next_preserves r) as Hp; rewrite E in Hp; cbn in Hp
    end.
  - destruct H as [Hd Hs], Hp as [Hd' Hs']. split; congruence.
  - exact Hp.
  - exact Hp.
Qed.

(** [reset] depends on the mapping only, and puts the cursor where the
    constructor put it. *)
Lemma reset_new (file : option (list byte)) (r : t) :
  data_ r = data_ (new file) -> size_ r = size_ (new file) ->
  reset r = new file.
Proof.
  intros Hd Hs. unfold reset. rewrite Hd, Hs.
  destruct file as [[|b file]|]; cbn [new data_ size_ set_position];
    try (unfold set_position; rewrite Hd, Hs; reflexivity).
  cbn [Nat.ltb Nat.leb length].
  destruct (memchr (b :: file) 0 LF (S (length file)));
    unfold set_position; rewrite Hd, Hs; reflexivity.
Qed.

Lemma fold_left_snoc {A : Type} (l acc : list A) :
  fold_left (fun s x => s ++ [x]) l acc = acc ++ l.
Proof.
  revert acc. induction l as [|x l IH]; intros acc; cbn.
  - rewrite app_nil_r; reflexivity.
  - rewrite IH, <- app_assoc. reflexivity.
Qed.

Lemma iterate_scan (file : list byte) :
  iterate stod (new (Some file)) = scan stod (lines (body_of file)).
Proof.
  unfold iterate. destruct file as [|b file].
  - rewrite while_next_eq, next_eq. cbn. reflexivity.
  - destruct (new_mapped b file) as [Hm Hrest].
    pose proof (while_next_scan stod (fun tick acc => acc ++ [tick])
                  (b :: file) _ (new (Some (b :: file))) [] Hm (le_n _)) as H.
    rewrite Hrest in H.
    destruct (while_next stod _ (new (Some (b :: file))) []) as [[ticks r'] e].
    destruct H as [-> ->].
    destruct (scan stod (lines (body_of (b :: file)))) as [ts e0]. cbn.
    f_equal. apply (fold_left_snoc ts []).
Qed.

End ReaderPass.

(** ** Tick Source: claims *)

Section ReaderClaims.
Context {double : Type}.
Variable stod : list byte -> conv double.
Import MarketDataReader.

(** C9: after a full pass over any file, [reset] puts the cursor back just
    past the header, leaves the mapping (pointer and size) as it is, and a
    second pass returns the same ticks, and ends the same way, as the first
    pass did. *)
Theorem reset_round_trip (file : option (list byte)) :
  let r0 := new file in
  let r1 := after_pass stod r0 in
  iterate stod (reset r1) = iterate stod r0 /\
  position_ (reset r1) = header_end file /\
  data_ (reset r1) = data_ r1 /\
  size_ (reset r1) = size_ r1.
Proof.
  intros r0 r1.
  assert (Hpres : data_ r1 = data_ r0 /\ size_ r1 = size_ r0).
  { unfold r1, after_pass.
    pose proof (while_next_preserves stod (fun _ (acc : unit) => acc) r0 tt) as Hp.
    destruct (while_next stod _ r0 tt) as [[u r'] e]. exact Hp. }
  destruct Hpres as [Hd Hs].
  assert (Hreset : reset r1 = r0) by (apply reset_new; assumption).
  rewrite Hreset. repeat split.
  - unfold r0, new, header_end.
    destruct file as [[|b data]|]; cbn [position_]; try reflexivity.
    rewrite memchr_0_all. reflexivity.
  - symmetry; exact Hd.
  - symmetry; exact Hs.
Qed.

(** Where no line after the header is empty and no conversion throws, a
    pass yields exactly the records of the file. *)
Lemma scan_records (ls : list (list byte)) :
  Forall (fun l => l <> [] /\ forall e, parse_record stod l <> Threw e) ls ->
  scan stod ls = (records stod ls, None).
Proof.
  induction 1 as [|l ls [Hne Hthrow] _ IH]; [reflexivity|].
  destruct l as [|b l]; [congruence|]. cbn [scan records].
  destruct (parse_record stod (b :: l)) as [tick| |e].
  - rewrite IH. reflexivity.
  - exact IH.
  - exfalso. exact (Hthrow e eq_refl).
Qed.

End ReaderClaims.

Lemma iterate_header {double : Type} (stod' : list byte -> conv double)
    (rest : list byte) :
  iterate stod' (MarketDataReader.new (Some (header ++ rest)))
  = scan stod' (lines rest).
Proof.
  rewrite iterate_scan.
  assert (Hbody : body_of (header ++ rest) = rest) by reflexivity.
  rewrite Hbody. reflexivity.
Qed.

(** With any [std::stod]: the pass over [file_blank] is the pass over the
    file cut before the empty line, and the pass over [file_malformed] is
    left by an exception. *)
Lemma pass_with_any_stod {double : Type} (stod' : list byte -> conv double) :
  iterate stod' (MarketDataReader.new (Some file_blank))
  = iterate stod'
      (MarketDataReader.new
         (Some (header ++ line "1000000,4500.25,4500.50,100"))) /\
  exists e : exn,
    snd (iterate stod' (MarketDataReader.new (Some file_malformed))) = Some e.
Proof.
  unfold file_blank, file_malformed. rewrite !iterate_header.
  set (l1 := list_byte_of_string "1000000,4500.25,4500.50,100").
  split.
  - assert (E1 : lines (line "1000000,4500.25,4500.50,100" ++ line ""
                        ++ line "2000000,4500.75,4501.00,200")
                 = [l1; []; list_byte_of_string "2000000,4500.75,4501.00,200"])
      by (vm_compute; reflexivity).
    assert (E2 : lines (line "1000000,4500.25,4500.50,100") = [l1])
      by (vm_compute; reflexivity).
    rewrite E1, E2. cbn [scan].
    assert (Hl1 : exists c l, l1 = c :: l) by (do 2 eexists; reflexivity).
    destruct Hl1 as (c & l & ->).
    destruct (parse_record stod' (c :: l)); reflexivity.
  - assert (E : exists rest,
               lines (line "1000000,4500.25,4500.50,100" ++ line "invalid_line"
                      ++ line "2000000,4500.75,4501.00,200"
                      ++ line "another,bad,line"
                      ++ line "3000000,4501.25,4501.50,150")
               = l1 :: list_byte_of_string "invalid_line" :: rest)
      by (eexists; vm_compute; reflexivity).
    destruct E as (rest & ->).
    assert (Hbad : parse_record stod' (list_byte_of_string "invalid_line")
                   = Threw invalid_argument) by reflexivity.
    assert (Hl1 : exists c l, l1 = c :: l) by (do 2 eexists; reflexivity).
    destruct Hl1 as (c & l & ->).
    cbn [scan]. destruct (parse_record stod' (c :: l)) as [tick| |e].
    + change (scan stod' (list_byte_of_string "invalid_line" :: rest))
        with (match parse_record stod' (list_byte_of_string "invalid_line") with
              | Parsed tick => let (ticks, e) := scan stod' rest in (tick :: ticks, e)
              | NotParsed => scan stod' rest
              | Threw e => ([], Some e)
              end).
      rewrite Hbad. eexists; reflexivity.
    + change (scan stod' (list_byte_of_string "invalid_line" :: rest))
        with (match parse_record stod' (list_byte_of_string "invalid_line") with
              | Parsed tick => let (ticks, e) := scan stod' rest in (tick :: ticks, e)
              | NotParsed => scan stod' rest
              | Threw e => ([], Some e)
              end).
      rewrite Hbad. eexists; reflexivity.
    + eexists; reflexivity.
Qed.

(** C1, at the inputs where the code departs from it.  On [file_blank] the
    pass ends at the empty line and the record after it is never returned; on
    [file_malformed], the file of the repository's own test, [std::stoll]
    throws at [invalid_line] and the pass is aborted after the first tick.
    In both files every record of the specification is listed by [records].
    The last two parts say the same for any [std::stod]. *)
Theorem next_stops_at_blank_and_throws_on_malformed :
  iterate stod (MarketDataReader.new (Some file_blank)) = ([tick1], None) /\
  records stod (lines (body_of file_blank)) = [tick1; tick2] /\
  iterate stod (MarketDataReader.new (Some file_malformed))
    = ([tick1], Some invalid_argument) /\
  records stod (lines (body_of file_malformed)) = [tick1; tick2; tick3] /\
  (forall (double : Type) (stod' : list byte -> conv double),
      iterate stod' (MarketDataReader.new (Some file_blank))
      = iterate stod'
          (MarketDataReader.new
             (Some (header ++ line "1000000,4500.25,4500.50,100")))) /\
  (forall (double : Type) (stod' : list byte -> conv double),
      exists e : exn,
        snd (iterate stod' (MarketDataReader.new (Some file_malformed)))
        = Some e).
Proof.
  rewrite !iterate_scan.
  split; [vm_compute; reflexivity|].
  split; [vm_compute; reflexivity|].
  split; [vm_compute; reflexivity|].
  split; [vm_compute; reflexivity|].
  split; intros double stod'; apply (pass_with_any_stod stod').
Qed.

(** ** [Backtester::run] as a fold over the ticks of the pass *)

Section RunScan.
Context {double : Type} `{Double double}.
Variable stod : list byte -> conv double.

Lemma run_scan (b : Backtester.t double) (c : byte) (file : list byte)
    (threshold : double) :
  Backtester.run stod b (Some (c :: file)) threshold =
  run_of b threshold (scan stod (lines (body_of (c :: file)))).
Proof.
  unfold Backtester.run, run_of, run_on.
  destruct (new_mapped c file) as [Hm Hrest].
  assert (Hvalid : MarketDataReader.isValid
                     (MarketDataReader.new (Some (c :: file))) = true)
    by reflexivity.
  rewrite Hvalid. cbn [negb].
  pose proof (while_next_scan stod Backtester.onTick (c :: file) _
                (MarketDataReader.new (Some (c :: file)))
                (Backtester.start b threshold) Hm (le_n _)) as Hw.
  rewrite Hrest in Hw.
  destruct (MarketDataReader.while_next stod Backtester.onTick _ _)
    as [[l r'] e].
  destruct Hw as [-> ->]. reflexivity.
Qed.

(** The same for a file that starts with the header line. *)
Lemma run_scan_header (b : Backtester.t double) (rest : list byte)
    (threshold : double) :
  Backtester.run stod b (Some (header ++ rest)) threshold =
  run_of b threshold (scan stod (lines rest)).
Proof.
  assert (Hbody : body_of (header ++ rest) = rest) by reflexivity.
  rewrite <- Hbody at 2. apply run_scan.
Qed.

Lemma run_invalid (b : Backtester.t double) (threshold : double) :
  Backtester.run stod b None threshold = (inl runtime_error, b) /\
  Backtester.run stod b (Some []) threshold = (inl runtime_error, b).
Proof. split; reflexivity. Qed.

End RunScan.

(** ** LockFreeQueue: the capacity test and [tryPush(nullptr)] *)

Lemma land_pred_power_of_two (k : Z) : 0 <= k -> Z.land (2 ^ k) (2 ^ k - 1) = 0.
Proof.
  intros Hk. replace (2 ^ k - 1) with (Z.ones k)
    by (rewrite Z.ones_equiv; lia).
  rewrite Z.land_ones by exact Hk. apply Z.mod_same.
  pose proof (Z.pow_pos_nonneg 2 k); lia.
Qed.

Lemma land_pred_zero (c : Z) : 0 < c -> Z.land c (c - 1) = 0 -> power_of_two c.
Proof.
  intros Hc Hland. exists (Z.log2 c).
  pose proof (Z.log2_nonneg c) as Hk. split; [exact Hk|].
  destruct (Z.log2_spec c Hc) as [Hlo Hhi].
  destruct (Z.eq_dec c (2 ^ Z.log2 c)) as [E|Hne]; [exact E|exfalso].
  assert (Hlog : Z.log2 (c - 1) = Z.log2 c).
  { apply Z.log2_unique; [exact Hk | lia]. }
  assert (Hbit : Z.testbit (Z.land c (c - 1)) (Z.log2 c) = true).
  { rewrite Z.land_spec, Z.bit_log2 by exact Hc.
    rewrite <- Hlog. rewrite Z.bit_log2 by lia. reflexivity. }
  rewrite Hland, Z.bits_0 in Hbit. discriminate.
Qed.

Section QueueClaims.
Context {T : Type}.
Import LockFreeQueue.

(** For a capacity from 1 whose array can be allocated, the constructor
    throws exactly when the capacity is not a power of two. *)
Lemma new_positive_capacity (capacity : Z) :
  0 < capacity < 2 ^ 60 ->
  (power_of_two capacity -> exists q : t T, new capacity = inr q) /\
  (~ power_of_two capacity -> new (T := T) capacity = inl invalid_argument).
Proof.
  intros Hc. unfold new, wrap_u64.
  destruct (2 ^ 60 <=? capacity) eqn:Ebig; [apply Z.leb_le in Ebig; lia|].
  rewrite Z.mod_small by lia. split.
  - intros (k & Hk & ->). rewrite land_pred_power_of_two by exact Hk.
    cbn. eexists; reflexivity.
  - intros Hnp. destruct (Z.land capacity (capacity - 1) =? 0) eqn:E.
    + apply Z.eqb_eq in E. exfalso. apply Hnp.
      apply land_pred_zero; [lia | exact E].
    + reflexivity.
Qed.

(** C10: pushing [nullptr] returns [false] and changes nothing: every slot,
    the head and the tail are as before, in every state of the queue and
    whatever the compare-exchange would have done. *)
Theorem tryPush_nullptr (q : t T) (spurious : bool) :
  tryPush q None spurious = Some (false, q).
Proof. reflexivity. Qed.

End QueueClaims.

Lemma zero_not_power_of_two : ~ power_of_two 0.
Proof.
  intros (k & Hk & E). pose proof (Z.pow_pos_nonneg 2 k ltac:(lia) Hk). lia.
Qed.

Lemma not_power_of_two_1000 : ~ power_of_two 1000.
Proof.
  intros (k & Hk & E).
  assert (k < 10) by (apply (Z.pow_lt_mono_r_iff 2); lia).
  assert (9 < k) by (apply (Z.pow_lt_mono_r_iff 2); lia).
  lia.
Qed.

(** C7, at the input where the code departs from it, and at the two inputs of
    the specification's scenario: capacity 0 is not a power of two, yet the
    constructor returns a queue (the test [capacity & (capacity - 1)] is 0
    there); capacity 1000 throws [std::invalid_argument]; 1024 succeeds. *)
Theorem new_accepts_capacity_zero :
  (exists q : LockFreeQueue.t unit,
      LockFreeQueue.new 0 = inr q /\ LockFreeQueue.buffer_ q = [] /\
      LockFreeQueue.mask_ q = 2 ^ 64 - 1) /\
  ~ power_of_two 0 /\
  LockFreeQueue.new (T := unit) 1000 = inl invalid_argument /\
  (exists q : LockFreeQueue.t unit, LockFreeQueue.new 1024 = inr q).
Proof.
  split; [eexists; repeat split|].
  split; [exact zero_not_power_of_two|].
  split; [reflexivity | eexists; reflexivity].
Qed.

(** ** The real-number instance *)

Lemma Rltb_true (x y : R) : Rltb x y = true <-> (x < y)%R.
Proof. unfold Rltb. destruct (Rlt_dec x y); split; intros; try discriminate; tauto. Qed.

Lemma Rltb_false (x y : R) : Rltb x y = false <-> (y <= x)%R.
Proof.
  unfold Rltb. destruct (Rlt_dec x y); split; intros; try discriminate;
    try reflexivity; lra.
Qed.

Lemma Rleb_true (x y : R) : Rleb x y = true <-> (x <= y)%R.
Proof. unfold Rleb. destruct (Rle_dec x y); split; intros; try discriminate; tauto. Qed.

Lemma Rleb_false (x y : R) : Rleb x y = false <-> (y < x)%R.
Proof.
  unfold Rleb. destruct (Rle_dec x y); split; intros; try discriminate;
    try reflexivity; lra.
Qed.

Lemma ideal_lit_int (m : Z) : d_lit (Double := Ideal) m 0 = IZR m.
Proof.
  cbn [d_lit Ideal]. unfold R_of_decimal. cbn [Z.leb Z.compare].
  rewrite Z.pow_0_r, Z.mul_1_r. reflexivity.
Qed.

(** Unfolds the interface at the reals and turns the tests into facts. *)
Ltac ideal :=
  cbn [d_add d_sub d_mul d_div d_neg d_sqrt d_lt d_le d_of_Z Ideal] in *;
  rewrite ?ideal_lit_int in *.

Ltac ideal_tests :=
  repeat match goal with
         | H : Rltb _ _ = true |- _ => apply Rltb_true in H
         | H : Rltb _ _ = false |- _ => apply Rltb_false in H
         | H : Rleb _ _ = true |- _ => apply Rleb_true in H
         | H : Rleb _ _ = false |- _ => apply Rleb_false in H
         end.

(** ** SignalGenerator *)

Section SignalClaims.
Import SignalGenerator.
Local Open Scope R_scope.

(** The state machine over the reals, with the comparisons of the table. *)
Lemma generate_transitions_real (g : SignalGenerator.t R) (price : R)
    (stats : RollingStatistics.t R) :
  0 <= threshold_ g ->
  let z := RollingStatistics.zscore stats price in
  let signal := fst (generate g price stats) in
  let g' := snd (generate g price stats) in
  (RollingStatistics.isReady stats = false -> signal = FLAT /\ g' = g) /\
  (RollingStatistics.isReady stats = true ->
   signal = currentSignal_ g' /\
   threshold_ g' = threshold_ g /\
   match currentSignal_ g with
   | FLAT =>
       (currentSignal_ g' = LONG <-> z < - threshold_ g) /\
       (currentSignal_ g' = SHORT <-> z > threshold_ g) /\
       (currentSignal_ g' = FLAT <-> - threshold_ g <= z <= threshold_ g)
   | LONG =>
       (currentSignal_ g' = FLAT <-> z >= 0) /\
       (currentSignal_ g' = LONG <-> z < 0) /\
       currentSignal_ g' <> SHORT
   | SHORT =>
       (currentSignal_ g' = FLAT <-> z <= 0) /\
       (currentSignal_ g' = SHORT <-> z > 0) /\
       currentSignal_ g' <> LONG
   end).
Proof.
  intros Hth z signal g'. subst signal g'. unfold generate.
  destruct (RollingStatistics.isReady stats); cbn [negb fst snd].
  - split; [discriminate|]. intros _. fold z.
    destruct g as [th cur lastz]. cbn [threshold_ currentSignal_] in *.
    destruct cur; ideal.
    + destruct (Rltb z (- th)) eqn:E1; [|destruct (Rltb th z) eqn:E2];
        ideal_tests; cbn; repeat split; intros; try discriminate; try lra.
    + destruct (Rleb 0 z) eqn:E1; ideal_tests; cbn;
        repeat split; intros; try discriminate; try lra.
    + destruct (Rleb z 0) eqn:E1; ideal_tests; cbn;
        repeat split; intros; try discriminate; try lra.
  - split; [intros _; split; reflexivity | discriminate].
Qed.

End SignalClaims.

(** The same table in any arithmetic in which the two entry tests exclude
    each other, and in binary64 in particular. *)
Section SignalTable.
Context {double : Type} `{Double double}.
Import SignalGenerator.

Lemma generate_tabled (g : SignalGenerator.t double) (price : double)
    (stats : RollingStatistics.t double) :
  let z := RollingStatistics.zscore stats price in
  ((z <? - threshold_ g)%dbl = true -> (z >? threshold_ g)%dbl = false) ->
  RollingStatistics.isReady stats = true ->
  fst (generate g price stats) = currentSignal_ (snd (generate g price stats)) /\
  tabled (threshold_ g) z (currentSignal_ g)
         (currentSignal_ (snd (generate g price stats))).
Proof.
  intros z Hexcl Hready. unfold generate. rewrite Hready. cbn [negb fst snd].
  fold z. split; [reflexivity|].
  destruct g as [th cur lastz]. cbn [threshold_ currentSignal_] in *.
  unfold tabled. destruct cur; cbn [currentSignal_ threshold_ set_signal].
  - destruct (z <? - th)%dbl eqn:E1.
    + rewrite (Hexcl eq_refl). cbn.
      repeat split; intros; try discriminate; try tauto.
      match goal with Hc : _ /\ _ |- _ => destruct Hc; discriminate end.
    + destruct (z >? th)%dbl eqn:E2; cbn;
        repeat split; intros; try discriminate; try tauto;
        match goal with Hc : _ /\ _ |- _ => destruct Hc; discriminate end.
  - destruct (z >=? d_lit 0 0)%dbl; cbn;
      repeat split; intros; try discriminate; reflexivity.
  - destruct (z <=? d_lit 0 0)%dbl; cbn;
      repeat split; intros; try discriminate; reflexivity.
Qed.

Lemma generate_not_ready (g : SignalGenerator.t double) (price : double)
    (stats : RollingStatistics.t double) :
  RollingStatistics.isReady stats = false ->
  generate g price stats = (FLAT, g).
Proof. intros Hready. unfold generate. rewrite Hready. reflexivity. Qed.

Lemma generate_threshold (g : SignalGenerator.t double) (price : double)
    (stats : RollingStatistics.t double) :
  threshold_ (snd (generate g price stats)) = threshold_ g.
Proof.
  unfold generate. destruct (RollingStatistics.isReady stats); [|reflexivity].
  cbn [negb]. destruct g as [th cur lastz]. cbn [currentSignal_ threshold_].
  destruct cur; cbn [snd];
    repeat match goal with
           | |- context [if ?c then _ else _] => destruct c
           end; reflexivity.
Qed.

End SignalTable.

(** In binary64 a value below the negated threshold is negative and one above
    a threshold that is not negative is positive. *)
Lemma entry_tests_exclusive (z threshold : float) :
  (0 <=? threshold)%float = true ->
  (z <? - threshold)%float = true -> (threshold <? z)%float = false.
Proof.
  rewrite leb_spec, !ltb_spec, opp_spec.
  assert (Hzero : Prim2SF 0%float = S754_zero false) by reflexivity.
  rewrite Hzero.
  destruct (Prim2SF z) as [[|]|[|]| |[|] mz ez];
    destruct (Prim2SF threshold) as [[|]|[|]| |[|] mt et];
    cbn; intros; try reflexivity; try discriminate.
Qed.

Lemma generate_tabled_binary64 (g : SignalGenerator.t float) (price : float)
    (stats : RollingStatistics.t float) :
  (0 <=? SignalGenerator.threshold_ g)%float = true ->
  RollingStatistics.isReady stats = true ->
  tabled (SignalGenerator.threshold_ g)
         (RollingStatistics.zscore stats price)
         (SignalGenerator.currentSignal_ g)
         (SignalGenerator.currentSignal_
            (snd (SignalGenerator.generate g price stats))).
Proof.
  intros Hth Hready. apply generate_tabled; [|exact Hready].
  cbn [d_lt d_neg IEEE]. apply entry_tests_exclusive. exact Hth.
Qed.

(** C3: [generate] on statistics that are not ready returns FLAT and leaves
    the generator as it was; on ready statistics, with
    [z = stats.zscore(price)] and a threshold that is not negative, the
    stored signal moves exactly as the table says (FLAT to LONG iff
    [z < -threshold], FLAT to SHORT iff [z > threshold], LONG to FLAT iff
    [z >= 0], SHORT to FLAT iff [z <= 0], unchanged otherwise), the call
    returns the stored signal, and LONG never becomes SHORT nor SHORT LONG
    within one call.  Over the reals (first part) and in binary64, with the
    comparisons as the machine evaluates them (second part). *)
Theorem generate_transitions :
  (forall (g : SignalGenerator.t R) (price : R) (stats : RollingStatistics.t R),
      (0 <= SignalGenerator.threshold_ g)%R ->
      let z := RollingStatistics.zscore stats price in
      let signal := fst (SignalGenerator.generate g price stats) in
      let g' := snd (SignalGenerator.generate g price stats) in
      let before := SignalGenerator.currentSignal_ g in
      let after := SignalGenerator.currentSignal_ g' in
      let threshold := SignalGenerator.threshold_ g in
      (RollingStatistics.isReady stats = false -> signal = FLAT /\ g' = g) /\
      (RollingStatistics.isReady stats = true ->
       signal = after /\
       SignalGenerator.threshold_ g' = threshold /\
       match before with
       | FLAT =>
           (after = LONG <-> z < - threshold)%R /\
           (after = SHORT <-> z > threshold)%R /\
           (after = FLAT <-> - threshold <= z <= threshold)%R
       | LONG =>
           (after = FLAT <-> z >= 0)%R /\
           (after = LONG <-> z < 0)%R /\
           after <> SHORT
       | SHORT =>
           (after = FLAT <-> z <= 0)%R /\
           (after = SHORT <-> z > 0)%R /\
           after <> LONG
       end)) /\
  (forall (g : SignalGenerator.t float) (price : float)
          (stats : RollingStatistics.t float),
      (0 <=? SignalGenerator.threshold_ g)%float = true ->
      let z := RollingStatistics.zscore stats price in
      let signal := fst (SignalGenerator.generate g price stats) in
      let g' := snd (SignalGenerator.generate g price stats) in
      (RollingStatistics.isReady stats = false -> signal = FLAT /\ g' = g) /\
      (RollingStatistics.isReady stats = true ->
       signal = SignalGenerator.currentSignal_ g' /\
       SignalGenerator.threshold_ g' = SignalGenerator.threshold_ g /\
       tabled (SignalGenerator.threshold_ g) z
              (SignalGenerator.currentSignal_ g)
              (SignalGenerator.currentSignal_ g'))).
Proof.
  split.
  - exact generate_transitions_real.
  - intros g price stats Hth z signal g'. subst signal g'. split.
    + intros Hready. rewrite (generate_not_ready g price stats Hready).
      split; reflexivity.
    + intros Hready.
      assert (Hexcl : (z <? - SignalGenerator.threshold_ g)%dbl = true ->
                      (z >? SignalGenerator.threshold_ g)%dbl = false)
        by (cbn [d_lt d_neg IEEE]; apply entry_tests_exclusive; exact Hth).
      destruct (generate_tabled g price stats Hexcl Hready) as [Hsig Htab].
      split; [exact Hsig|]. split; [apply generate_threshold | exact Htab].
Qed.

(** The theorem of C3 applied, over the reals: generator at threshold 2.5,
    FLAT; statistics ready with mean 100 and deviation 1; price 90, so
    [z = -10]: LONG. *)
Lemma generate_transitions_witness :
  (0 <= SignalGenerator.threshold_ generator0)%R /\
  SignalGenerator.currentSignal_
    (snd (SignalGenerator.generate generator0 90%R statistics0)) = LONG.
Proof.
  assert (Hth : (0 <= SignalGenerator.threshold_ generator0)%R)
    by (cbn; lra).
  split; [exact Hth|].
  destruct (proj1 generate_transitions generator0 90%R statistics0 Hth)
    as [_ H].
  destruct (H eq_refl) as (_ & _ & Hlong & _).
  apply Hlong. unfold RollingStatistics.zscore, RollingStatistics.stddev.
  cbn [RollingStatistics.variance_ RollingStatistics.mean_ statistics0
       SignalGenerator.threshold_ generator0 SignalGenerator.new].
  ideal. rewrite sqrt_1.
  assert (Hsd : Rltb (d_lit (Double := Ideal) 1 (-10)) 1 = true).
  { apply Rltb_true. cbn. lra. }
  rewrite Hsd. lra.
Defined.

Lemma statistics0_absorbed : absorbed 2 [99%R; 101%R] = statistics0.
Proof.
  unfold absorbed, statistics0, RollingStatistics.new. cbn [fold_left].
  unfold RollingStatistics.update at 2. cbn -[d_lit d_of_Z d_add d_div].
  unfold RollingStatistics.update. cbn -[d_lit d_of_Z d_add d_div d_sub d_mul].
  ideal. f_equal; lra.
Qed.



(** ** RollingStatistics *)

Section StatsFacts.
Context {double : Type} `{Double double}.
Import RollingStatistics.

Lemma update_fixed (s : t double) (x : double) :
  windowSize_ (update s x) = windowSize_ s /\
  alpha_ (update s x) = alpha_ s /\
  count_ (update s x) = wrap_u64 (count_ s + 1).
Proof.
  unfold update, updateEWMA. cbn [windowSize_ count_ alpha_].
  destruct (count_ s <? windowSize_ s); [destruct (count_ s =? 0)|];
    cbn [windowSize_ count_ alpha_]; repeat split; reflexivity.
Qed.

Lemma fold_update_fixed (xs : list double) (s : t double) :
  0 <= count_ s < 2 ^ 64 ->
  windowSize_ (fold_left update xs s) = windowSize_ s /\
  alpha_ (fold_left update xs s) = alpha_ s /\
  count_ (fold_left update xs s)
  = (count_ s + Z.of_nat (length xs)) mod 2 ^ 64.
Proof.
  revert s. induction xs as [|x xs IH]; intros s Hs; cbn [fold_left length].
  - repeat split. rewrite Z.add_0_r, Z.mod_small by lia. reflexivity.
  - destruct (update_fixed s x) as (Hw' & Ha' & Hc').
    assert (Hs' : 0 <= count_ (update s x) < 2 ^ 64).
    { rewrite Hc'. unfold wrap_u64. apply Z.mod_pos_bound. lia. }
    destruct (IH (update s x) Hs') as (Hw & Ha & Hc).
    repeat split; try congruence.
    rewrite Hc, Hc'. unfold wrap_u64.
    rewrite Zplus_mod_idemp_l. f_equal. lia.
Qed.

Lemma absorbed_fixed (windowSize : Z) (xs : list double) :
  Z.of_nat (length xs) < 2 ^ 64 ->
  windowSize_ (absorbed windowSize xs) = windowSize /\
  alpha_ (absorbed windowSize xs) = alpha_ (new windowSize) /\
  count_ (absorbed windowSize xs) = Z.of_nat (length xs).
Proof.
  intros Hlen. unfold absorbed.
  destruct (fold_update_fixed xs (new windowSize)) as (Hw & Ha & Hc);
    [cbn; lia|].
  repeat split; try assumption.
  rewrite Hc. cbn [count_ new]. rewrite Z.add_0_l, Z.mod_small by lia.
  reflexivity.
Qed.

(** The three cases of [update], by the count before the call.  They hold
    in every arithmetic, binary64 included. *)
Lemma update_first (s : t double) (x : double) :
  count_ s = 0 -> 0 < windowSize_ s ->
  mean_ (update s x) = x /\
  variance_ (update s x) = d_lit 0 0 /\
  m2_ (update s x) = d_lit 0 0.
Proof.
  intros Hc HW. unfold update. cbv zeta. cbn [windowSize_ count_].
  rewrite Hc. replace (0 <? windowSize_ s) with true
    by (symmetry; apply Z.ltb_lt; exact HW).
  cbn [Z.eqb]. repeat split.
Qed.

Lemma update_welford (s : t double) (x : double) :
  0 < count_ s < windowSize_ s ->
  (mean_ (update s x)
   = mean_ s + (x - mean_ s) / d_of_Z (count_ s + 1))%dbl /\
  (m2_ (update s x)
   = m2_ s + (x - mean_ s) * (x - mean_ (update s x)))%dbl /\
  (variance_ (update s x)
   = m2_ (update s x) / d_of_Z (count_ s + 1))%dbl.
Proof.
  intros Hc. unfold update. cbv zeta. cbn [windowSize_ count_].
  replace (count_ s <? windowSize_ s) with true
    by (symmetry; apply Z.ltb_lt; lia).
  replace (count_ s =? 0) with false
    by (symmetry; apply Z.eqb_neq; lia).
  cbn [mean_ m2_ variance_]. repeat split.
Qed.

Lemma update_steady (s : t double) (x : double) :
  windowSize_ s <= count_ s ->
  let v := ((d_lit 1 0 - alpha_ s)
            * (variance_ s + alpha_ s * (x - mean_ s) * (x - mean_ s)))%dbl in
  (mean_ (update s x)
   = alpha_ s * x + (d_lit 1 0 - alpha_ s) * mean_ s)%dbl /\
  variance_ (update s x) = (if (v <? d_lit 0 0)%dbl then d_lit 0 0 else v).
Proof.
  intros Hc. unfold update. cbv zeta. cbn [windowSize_ count_].
  replace (count_ s <? windowSize_ s) with false
    by (symmetry; apply Z.ltb_ge; lia).
  unfold updateEWMA. cbn [mean_ variance_ alpha_]. split; reflexivity.
Qed.

Lemma absorbed_snoc (windowSize : Z) (xs : list double) (x : double) :
  absorbed windowSize (xs ++ [x]) = update (absorbed windowSize xs) x.
Proof. unfold absorbed. rewrite fold_left_app. reflexivity. Qed.

End StatsFacts.

Section Welford.
Import RollingStatistics.
Local Open Scope R_scope.

Lemma sum_list_app (xs ys : list R) :
  sum_list (xs ++ ys) = sum_list xs + sum_list ys.
Proof.
  unfold sum_list. induction xs as [|x xs IH]; cbn [app fold_right]; [lra|].
  rewrite IH. lra.
Qed.

Lemma sum_squares_app (xs ys : list R) :
  sum_squares (xs ++ ys) = sum_squares xs + sum_squares ys.
Proof. unfold sum_squares. rewrite map_app. apply sum_list_app. Qed.

Lemma IZR_length_snoc (xs : list R) (x : R) :
  IZR (Z.of_nat (length (xs ++ [x]))) = IZR (Z.of_nat (length xs)) + 1.
Proof.
  rewrite length_app. cbn [length]. rewrite Nat2Z.inj_add, plus_IZR.
  reflexivity.
Qed.

Lemma IZR_length_pos (xs : list R) :
  xs <> [] -> 0 < IZR (Z.of_nat (length xs)).
Proof.
  intros Hne. apply (IZR_lt 0). destruct xs; [congruence|]. cbn [length]. lia.
Qed.

(** Squared deviations from any centre [c]. *)
Lemma sum_deviations (xs : list R) (c : R) :
  sum_list (map (fun x => (x - c) * (x - c)) xs)
  = sum_squares xs - 2 * c * sum_list xs + IZR (Z.of_nat (length xs)) * c * c.
Proof.
  induction xs as [|x xs IH].
  - cbn. lra.
  - change (x :: xs) with ([x] ++ xs) at 2 3.
    cbn [map]. unfold sum_list at 1. cbn [fold_right].
    fold (sum_list (map (fun x0 => (x0 - c) * (x0 - c)) xs)). rewrite IH.
    rewrite sum_squares_app, sum_list_app.
    cbn [length]. rewrite Nat2Z.inj_succ, succ_IZR.
    unfold sum_squares. cbn. lra.
Qed.

Lemma population_variance_moments (xs : list R) :
  xs <> [] ->
  population_variance xs
  = (sum_squares xs
     - sum_list xs * sum_list xs / IZR (Z.of_nat (length xs)))
    / IZR (Z.of_nat (length xs)).
Proof.
  intros Hne. pose proof (IZR_length_pos xs Hne) as Hn.
  unfold population_variance, average. rewrite sum_deviations.
  field. lra.
Qed.

(** What Welford's recurrence maintains during the fill phase. *)
Lemma welford_moments (windowSize : Z) (xs : list R) :
  (0 < windowSize < 2 ^ 64)%Z ->
  xs <> [] -> (Z.of_nat (length xs) <= windowSize)%Z ->
  let s := absorbed windowSize xs in
  let n := IZR (Z.of_nat (length xs)) in
  mean_ s = sum_list xs / n /\
  m2_ s = sum_squares xs - sum_list xs * sum_list xs / n /\
  variance_ s = m2_ s / n.
Proof.
  intros HW. induction xs as [|x xs IH] using rev_ind; [congruence|].
  intros _ Hlen. rewrite length_app in Hlen. cbn [length] in Hlen.
  cbv zeta.
  rewrite absorbed_snoc, IZR_length_snoc, sum_list_app, sum_squares_app.
  destruct (absorbed_fixed windowSize xs ltac:(lia)) as (Hw & _ & Hc).
  destruct xs as [|y ys].
  - destruct (update_first (absorbed windowSize []) x) as (Hm & Hv & Hm2);
      [exact Hc | rewrite Hw; lia |].
    rewrite Hm, Hv, Hm2. ideal. unfold sum_squares. cbn.
    repeat split; field.
  - specialize (IH ltac:(discriminate) ltac:(lia)). cbv zeta in IH.
    destruct IH as (Hmean & Hm2 & Hvar).
    pose proof (IZR_length_pos (y :: ys) ltac:(discriminate)) as Hn.
    destruct (update_welford (absorbed windowSize (y :: ys)) x)
      as (Em & Em2 & Ev); [rewrite Hc, Hw; cbn [length] in *; lia|].
    rewrite Ev, Em2, Em, Hc. ideal. rewrite plus_IZR, Hmean, Hm2.
    set (n := IZR (Z.of_nat (length (y :: ys)))) in *.
    set (S1 := sum_list (y :: ys)). set (S2 := sum_squares (y :: ys)).
    unfold sum_squares, sum_list. cbn [map fold_right].
    repeat split; field; lra.
Qed.

(** The two phases over the reals, from the initial state: the recurrences,
    and the exact average and population variance during the fill phase. *)
Lemma update_two_phase_real (windowSize : Z) (xs : list R) (x : R) :
  (0 < windowSize < 2 ^ 64)%Z ->
  (Z.of_nat (length xs) < 2 ^ 64)%Z ->
  let s := absorbed windowSize xs in
  let s' := update s x in
  let k := Z.of_nat (length xs) in
  let alpha := 2 / (IZR windowSize + 1) in
  count_ s = k /\
  (k = 0%Z -> mean_ s' = x /\ variance_ s' = 0 /\ m2_ s' = 0) /\
  ((0 < k < windowSize)%Z ->
   mean_ s' = mean_ s + (x - mean_ s) / (IZR k + 1) /\
   m2_ s' = m2_ s + (x - mean_ s) * (x - mean_ s') /\
   variance_ s' = m2_ s' / (IZR k + 1)) /\
  ((k < windowSize)%Z ->
   mean_ s' = average (xs ++ [x]) /\
   variance_ s' = population_variance (xs ++ [x])) /\
  ((windowSize <= k)%Z ->
   mean_ s' = alpha * x + (1 - alpha) * mean_ s /\
   variance_ s'
   = Rmax ((1 - alpha) * (variance_ s + alpha * ((x - mean_ s) * (x - mean_ s)))) 0).
Proof.
  intros HW Hlen s s' k alpha.
  destruct (absorbed_fixed windowSize xs Hlen) as (Hw & Ha & Hc).
  fold s in Hw, Ha, Hc. fold k in Hc.
  split; [exact Hc|]. split; [|split; [|split]].
  - intros Hk. subst s'.
    destruct (update_first s x) as (Hm & Hv & Hm2);
      [congruence | rewrite Hw; lia |].
    rewrite Hm, Hv, Hm2. ideal. repeat split.
  - intros Hk. subst s'.
    destruct (update_welford s x) as (Hm & Hm2 & Hv);
      [rewrite Hc, Hw; exact Hk|].
    rewrite Hv, Hm2, Hm, Hc. ideal. rewrite plus_IZR.
    repeat split.
  - intros Hk. subst s' s. rewrite <- absorbed_snoc.
    assert (Hne : xs ++ [x] <> []) by (destruct xs; discriminate).
    assert (Hlen' : (Z.of_nat (length (xs ++ [x])) <= windowSize)%Z).
    { rewrite length_app. cbn [length]. subst k. lia. }
    destruct (welford_moments windowSize (xs ++ [x]) HW Hne Hlen')
      as (Hm & Hm2 & Hv).
    split; [exact Hm|].
    rewrite Hv, Hm2. symmetry. apply population_variance_moments. exact Hne.
  - intros Hk. subst s'.
    destruct (update_steady s x) as (Hm & Hv); [rewrite Hc, Hw; exact Hk|].
    rewrite Hm, Hv, Ha. cbn [alpha_ new]. ideal. fold alpha.
    split; [reflexivity|].
    set (v := (1 - alpha) * (variance_ s + alpha * (x - mean_ s) * (x - mean_ s))).
    replace ((1 - alpha) * (variance_ s + alpha * ((x - mean_ s) * (x - mean_ s))))
      with v by (unfold v; ring).
    unfold Rmax. destruct (Rltb v 0) eqn:E; ideal_tests;
      destruct (Rle_dec v 0); lra.
Qed.

End Welford.

(** The recurrences as the code computes them, in any arithmetic, from the
    initial state. *)
Lemma update_recurrences {double : Type} `{Double double}
    (windowSize : Z) (xs : list double) (x : double) :
  0 < windowSize < 2 ^ 64 ->
  Z.of_nat (length xs) < 2 ^ 64 ->
  let s := absorbed windowSize xs in
  let s' := RollingStatistics.update s x in
  let k := Z.of_nat (length xs) in
  let alpha := (d_lit 2 0 / (d_of_Z windowSize + d_lit 1 0))%dbl in
  let mean := RollingStatistics.mean_ in
  let variance := RollingStatistics.variance_ in
  let m2 := RollingStatistics.m2_ in
  (k = 0 -> mean s' = x /\ variance s' = d_lit 0 0 /\ m2 s' = d_lit 0 0) /\
  (0 < k < windowSize ->
   (mean s' = mean s + (x - mean s) / d_of_Z (k + 1))%dbl /\
   (m2 s' = m2 s + (x - mean s) * (x - mean s'))%dbl /\
   (variance s' = m2 s' / d_of_Z (k + 1))%dbl) /\
  (windowSize <= k ->
   let v := ((d_lit 1 0 - alpha)
             * (variance s + alpha * (x - mean s) * (x - mean s)))%dbl in
   (mean s' = alpha * x + (d_lit 1 0 - alpha) * mean s)%dbl /\
   variance s' = (if (v <? d_lit 0 0)%dbl then d_lit 0 0 else v)).
Proof.
  intros HW Hlen s s' k alpha mean variance m2.
  destruct (absorbed_fixed windowSize xs Hlen) as (Hw & Ha & Hc).
  fold s in Hw, Ha, Hc. fold k in Hc. subst s' mean variance m2.
  split; [|split].
  - intros Hk. apply update_first; [congruence | rewrite Hw; lia].
  - intros Hk. rewrite <- Hc. apply update_welford. rewrite Hc, Hw. exact Hk.
  - intros Hk. cbv zeta.
    destruct (update_steady s x) as (Hm & Hv);
      [rewrite Hc, Hw; exact Hk|].
    rewrite Ha in Hm, Hv. split; [exact Hm | exact Hv].
Qed.

(** C2: with [k] samples absorbed before (window [W], [0 < W], counts within
    [size_t]), [update(x)] does the following.  If [k = 0]: mean = x and
    variance = m2 = 0.  If [0 < k < W]: Welford's recurrence with the divisor
    [k + 1].  If [k >= W]: with [alpha = 2 / (W + 1)], mean becomes
    [alpha x + (1 - alpha) mean_old] and variance becomes
    [(1 - alpha) (variance + alpha (x - mean_old)^2)] clamped at 0, the old
    mean being the one before the call.  This holds as computed, in every
    arithmetic, binary64 included (first part).  In exact arithmetic (second
    part, over the reals) the fill phase moreover leaves the average and the
    exact population variance of the [k + 1] samples, and the clamp is
    [max (_, 0)]. *)
Theorem update_two_phase :
  (forall (double : Type) (D : Double double)
          (windowSize : Z) (xs : list double) (x : double),
      0 < windowSize < 2 ^ 64 ->
      Z.of_nat (length xs) < 2 ^ 64 ->
      let s := absorbed windowSize xs in
      let s' := RollingStatistics.update s x in
      let k := Z.of_nat (length xs) in
      let alpha := (d_lit 2 0 / (d_of_Z windowSize + d_lit 1 0))%dbl in
      let mean := RollingStatistics.mean_ in
      let variance := RollingStatistics.variance_ in
      let m2 := RollingStatistics.m2_ in
      (k = 0 -> mean s' = x /\ variance s' = d_lit 0 0 /\ m2 s' = d_lit 0 0) /\
      (0 < k < windowSize ->
       (mean s' = mean s + (x - mean s) / d_of_Z (k + 1))%dbl /\
       (m2 s' = m2 s + (x - mean s) * (x - mean s'))%dbl /\
       (variance s' = m2 s' / d_of_Z (k + 1))%dbl) /\
      (windowSize <= k ->
       let v := ((d_lit 1 0 - alpha)
                 * (variance s + alpha * (x - mean s) * (x - mean s)))%dbl in
       (mean s' = alpha * x + (d_lit 1 0 - alpha) * mean s)%dbl /\
       variance s' = (if (v <? d_lit 0 0)%dbl then d_lit 0 0 else v))) /\
  (forall (windowSize : Z) (xs : list R) (x : R),
      0 < windowSize < 2 ^ 64 ->
      Z.of_nat (length xs) < 2 ^ 64 ->
      let s := absorbed windowSize xs in
      let s' := RollingStatistics.update s x in
      let k := Z.of_nat (length xs) in
      let alpha := (2 / (IZR windowSize + 1))%R in
      let mean := RollingStatistics.mean_ in
      let variance := RollingStatistics.variance_ in
      let m2 := RollingStatistics.m2_ in
      RollingStatistics.count_ s = k /\
      (k = 0 -> mean s' = x /\ variance s' = 0%R /\ m2 s' = 0%R) /\
      (0 < k < windowSize ->
       mean s' = (mean s + (x - mean s) / (IZR k + 1))%R /\
       m2 s' = (m2 s + (x - mean s) * (x - mean s'))%R /\
       variance s' = (m2 s' / (IZR k + 1))%R) /\
      (k < windowSize ->
       mean s' = average (xs ++ [x]) /\
       variance s' = population_variance (xs ++ [x])) /\
      (windowSize <= k ->
       mean s' = (alpha * x + (1 - alpha) * mean s)%R /\
       variance s'
       = Rmax ((1 - alpha)
               * (variance s + alpha * ((x - mean s) * (x - mean s))))%R 0%R)).
Proof.
  split.
  - intros double D. exact (@update_recurrences double D).
  - exact update_two_phase_real.
Qed.

(** The theorem of C2 applied, over the reals: window 2, one sample 99
    absorbed, then 101; the variance after the call is the population
    variance of both.  And in binary64: the same call computes the mean
    [99 + (101 - 99) / 2] and the variance [m2 / 2]. *)
Lemma update_two_phase_witness :
  (0 < 2 < 2 ^ 64)%Z /\
  (Z.of_nat (length [99%R]) < 2 ^ 64)%Z /\
  RollingStatistics.variance_
    (RollingStatistics.update (absorbed 2 [99%R]) 101%R)
  = population_variance [99%R; 101%R] /\
  RollingStatistics.mean_
    (RollingStatistics.update (absorbed 2 [99%float]) 101%float)
  = 100%float.
Proof.
  assert (HW : (0 < 2 < 2 ^ 64)%Z) by lia.
  assert (Hlen : (Z.of_nat (length [99%R]) < 2 ^ 64)%Z) by (cbn; lia).
  assert (Hlen' : (Z.of_nat (length [99%float]) < 2 ^ 64)%Z) by (cbn; lia).
  split; [exact HW|]. split; [exact Hlen|]. split.
  - destruct (proj2 update_two_phase 2 [99%R] 101%R HW Hlen)
      as (_ & _ & _ & Hfill & _).
    apply Hfill. cbn. lia.
  - destruct (proj1 update_two_phase float IEEE 2 [99%float] 101%float HW Hlen')
      as (_ & Hwelford & _).
    destruct Hwelford as (Hmean & _); [cbn; lia|].
    rewrite Hmean. vm_compute. reflexivity.
Defined.

(** ** Metrics *)

Section MetricsFacts.
Context {double : Type} `{Double double}.
Variable stod : list byte -> conv double.

(** In an arithmetic where [0 > 1e-10] is false, the reported Sharpe ratio
    follows the rule from the reported return and volatility, also on the
    early exit for an empty trade log, which reports all three as 0. *)
Lemma calculateMetrics_sharpe (b : Backtester.t double)
    (startTime endTime tickCount : Z) :
  (d_lit 0 0 >? d_lit 1 (-10))%dbl = false ->
  sharpe_rule (Backtester.calculateMetrics b startTime endTime tickCount).
Proof.
  intros Hzero. unfold sharpe_rule, Backtester.calculateMetrics.
  destruct (Backtester.trades_ b) as [|trade trades];
    cbn [sharpeRatio volatility totalReturn].
  - rewrite Hzero. reflexivity.
  - reflexivity.
Qed.

Lemma run_sharpe (b : Backtester.t double) (file : option (list byte))
    (threshold : double) :
  (d_lit 0 0 >? d_lit 1 (-10))%dbl = false ->
  match Backtester.run stod b file threshold with
  | (inr m, _) => sharpe_rule m
  | (inl _, _) => True
  end.
Proof.
  intros Hzero. unfold Backtester.run.
  destruct (negb (MarketDataReader.isValid (MarketDataReader.new file)));
    [exact I|].
  destruct (MarketDataReader.while_next stod Backtester.onTick _ _)
    as [[l r'] [e|]]; [exact I|].
  apply calculateMetrics_sharpe. exact Hzero.
Qed.

End MetricsFacts.

(** ** Backtester: one step *)

Lemma Signal_eqb_eq (a b : Signal) : Signal_eqb a b = true <-> a = b.
Proof. destruct a, b; cbn; split; intros; congruence. Qed.

Lemma Signal_eqb_refl (a : Signal) : Signal_eqb a a = true.
Proof. destruct a; reflexivity. Qed.

Section StepFacts.
Context {double : Type} `{Double double}.
Import Backtester.

(** What [updatePosition] leaves in the logs. *)
Lemma updatePosition_logs (b : t double) (price : double) (time : Z)
    (signal : Signal) :
  let b' := updatePosition b price time signal in
  Signal_eqb (currentPosition_ b') (currentPosition_ b)
  = Signal_eqb signal (currentPosition_ b) /\
  (Signal_eqb signal (currentPosition_ b) = true -> b' = b) /\
  (Signal_eqb signal (currentPosition_ b) = false ->
   currentPosition_ b' = signal /\
   equityCurve_ b' = equityCurve_ b ++ [equity_ b'] /\
   equityTimestamps_ b' = equityTimestamps_ b ++ [time] /\
   entryTime_ b' = match signal with FLAT => entryTime_ b | _ => time end /\
   match currentPosition_ b with
   | FLAT => trades_ b' = trades_ b
   | position =>
       exists fill profit : double,
         trades_ b' = trades_ b ++
           [{| entryTime := entryTime_ b;
               exitTime := time;
               entryPrice := entryPrice_ b;
               exitPrice := fill;
               direction := position;
               pnl := profit;
               duration := wrap_i64 (time - entryTime_ b) |}]
   end).
Proof.
  cbv zeta. unfold updatePosition.
  destruct (Signal_eqb signal (currentPosition_ b)) eqn:E.
  - split; [apply Signal_eqb_refl|]. split; [reflexivity | discriminate].
  - split; [|split; [discriminate|intros _]].
    + destruct b as [c s tr ec et pos ep en eq pk dd].
      cbn [currentPosition_] in *.
      destruct pos, signal; cbn in *; congruence.
    + destruct b as [c s tr ec et pos ep en eq pk dd].
      cbn [currentPosition_] in *.
      destruct pos, signal; try discriminate; cbn;
        repeat split; try reflexivity; do 2 eexists; reflexivity.
Qed.

(** The step of the loop, seen from the engine. *)
Lemma onTick_engine (tick : Tick double) (l : loop double) :
  exists signal : Signal,
    engine (onTick tick l)
    = updatePosition (engine l) (mid tick) (timestamp tick) signal /\
    lastTick (onTick tick l) = Some tick.
Proof.
  unfold onTick.
  destruct (SignalGenerator.generate _ _ _) as [signal g'].
  exists signal. split; reflexivity.
Qed.

End StepFacts.

(** ** Backtester: the equity curve *)


Section CurveFacts.
Context {double : Type} `{Double double}.
Import Backtester.





Variable stod : list byte -> conv double.

(** A valid reader is the reader of a non-empty file. *)
Lemma isValid_new (file : option (list byte)) :
  MarketDataReader.isValid (MarketDataReader.new file) = true ->
  exists (c : byte) (rest : list byte), file = Some (c :: rest).
Proof.
  destruct file as [[|c rest]|]; cbn; try discriminate.
  intros _. exists c, rest. reflexivity.
Qed.

(** The engine [run] leaves, in terms of the ticks of the pass. *)
Lemma run_engine (b : t double) (file : option (list byte)) (threshold : double) :
  MarketDataReader.isValid (MarketDataReader.new file) = true ->
  let pass := iterate stod (MarketDataReader.new file) in
  let l := run_on b threshold (fst pass) in
  snd (run stod b file threshold)
  = match snd pass with Some _ => engine l | None => finish l end.
Proof.
  intros Hvalid. destruct (isValid_new _ Hvalid) as (c & rest & ->).
  cbv zeta. rewrite run_scan, iterate_scan. unfold run_of.
  destruct (snd (scan stod (lines (body_of (c :: rest))))); reflexivity.
Qed.


End CurveFacts.

(** ** Backtester: the trade log *)

Section TradeFacts.
Context {double : Type} `{Double double}.
Import Backtester.

Lemma below_le (strict : bool) (a b : Z) : below strict a b -> a <= b.
Proof. destruct strict; cbn; lia. Qed.

Lemma below_trans (strict : bool) (a b c : Z) :
  a <= b -> below strict b c -> below strict a c.
Proof. destruct strict; cbn; lia. Qed.

Lemma chainb_cons (strict : bool) (a b : Z) (l : list Z) :
  chainb strict (a :: b :: l) = true ->
  below strict a b /\ chainb strict (b :: l) = true.
Proof.
  cbn [chainb]. intros Hc. apply andb_prop in Hc. destruct Hc as [Hab Hl].
  split; [|exact Hl]. destruct strict; cbn; lia.
Qed.

Lemma times_ok_step (strict : bool) (seen : Z) (tick : Tick double)
    (l : loop double) :
  times_ok strict seen l -> below strict seen (timestamp tick) ->
  times_ok strict (timestamp tick) (onTick tick l).
Proof.
  intros (Htr & Hopen & _) Hnext.
  destruct (onTick_engine tick l) as (signal & Heng & Hlast).
  unfold times_ok. rewrite Heng, Hlast.
  destruct (updatePosition_logs (engine l) (mid tick) (timestamp tick) signal)
    as (_ & Hsame & Hnew). cbv zeta in Hsame, Hnew.
  destruct (Signal_eqb signal (currentPosition_ (engine l))).
  - rewrite (Hsame eq_refl). repeat split.
    + exact Htr.
    + intros Hpos. pose proof (below_le _ _ _ Hnext). specialize (Hopen Hpos). lia.
    + intros t [= <-]. reflexivity.
  - destruct (Hnew eq_refl) as (Hpos' & _ & _ & Hentry & Htrades).
    repeat split.
    + destruct (currentPosition_ (engine l)) eqn:Epos.
      * rewrite Htrades. exact Htr.
      * destruct Htrades as (fill & profit & ->). apply Forall_app.
        split; [exact Htr|]. constructor; [|constructor].
        unfold trade_ordered. cbn [entryTime exitTime duration].
        split; [|reflexivity].
        apply (below_trans strict _ seen); [apply Hopen; discriminate | exact Hnext].
      * destruct Htrades as (fill & profit & ->). apply Forall_app.
        split; [exact Htr|]. constructor; [|constructor].
        unfold trade_ordered. cbn [entryTime exitTime duration].
        split; [|reflexivity].
        apply (below_trans strict _ seen); [apply Hopen; discriminate | exact Hnext].
    + intros Hpos. rewrite Hentry. rewrite Hpos' in Hpos.
      destruct signal; [congruence | lia | lia].
    + intros t [= <-]. reflexivity.
Qed.

Lemma times_ok_fold (strict : bool) (ticks : list (Tick double)) :
  forall (seen : Z) (l : loop double),
    times_ok strict seen l ->
    chainb strict (seen :: map timestamp ticks) = true ->
    exists seen' : Z,
      times_ok strict seen'
               (fold_left (fun l tick => onTick tick l) ticks l).
Proof.
  induction ticks as [|tick ticks IH]; intros seen l Hok Hchain.
  - exists seen. exact Hok.
  - cbn [map] in Hchain. apply chainb_cons in Hchain.
    destruct Hchain as [Hnext Hchain]. cbn [fold_left].
    apply (IH (timestamp tick)); [|exact Hchain].
    apply (times_ok_step strict seen); assumption.
Qed.

Lemma times_ok_start (strict : bool) (seen : Z) (b : t double)
    (threshold : double) :
  times_ok strict seen (start b threshold).
Proof.
  unfold times_ok, start. cbn. repeat split.
  - constructor.
  - congruence.
  - discriminate.
Qed.

Lemma times_ok_run_on (strict : bool) (b : t double) (threshold : double)
    (ticks : list (Tick double)) :
  chainb strict (map timestamp ticks) = true ->
  exists seen : Z, times_ok strict seen (run_on b threshold ticks).
Proof.
  intros Hchain. destruct ticks as [|tick ticks].
  - exists 0. apply times_ok_start.
  - apply (times_ok_fold strict (tick :: ticks) (timestamp tick - 1)).
    + apply times_ok_start.
    + cbn [map]. cbn [map] in Hchain. cbn [chainb]. cbn [chainb] in Hchain.
      rewrite Hchain. replace (if strict then _ else _) with true; [reflexivity|].
      symmetry. destruct strict; [apply Z.ltb_lt | apply Z.leb_le]; lia.
Qed.

(** The loop before its last tick: what it has seen is before that tick. *)
Lemma times_ok_fold_snoc (strict : bool) (front : list (Tick double)) :
  forall (seen : Z) (l : loop double) (tick : Tick double),
    times_ok strict seen l ->
    chainb strict (seen :: map timestamp (front ++ [tick])) = true ->
    exists seen' : Z,
      times_ok strict seen' (fold_left (fun l tick => onTick tick l) front l) /\
      below strict seen' (timestamp tick).
Proof.
  induction front as [|tick0 front IH]; intros seen l tick Hok Hchain.
  - exists seen. split; [exact Hok|].
    cbn [app map] in Hchain. apply chainb_cons in Hchain. exact (proj1 Hchain).
  - cbn [app map] in Hchain. apply chainb_cons in Hchain.
    destruct Hchain as [Hnext Hchain]. cbn [fold_left].
    apply (IH (timestamp tick0)); [|exact Hchain].
    apply (times_ok_step strict seen); assumption.
Qed.

Lemma times_ok_before_last (strict : bool) (b : t double) (threshold : double)
    (front : list (Tick double)) (tick : Tick double) :
  chainb strict (map timestamp (front ++ [tick])) = true ->
  exists seen : Z,
    times_ok strict seen (run_on b threshold front) /\
    below strict seen (timestamp tick).
Proof.
  intros Hchain.
  apply (times_ok_fold_snoc strict front
           (match front with
            | [] => timestamp tick - 1
            | tick0 :: _ => timestamp tick0 - 1
            end)).
  - apply times_ok_start.
  - destruct front as [|tick0 front]; cbn [app map] in *; cbn [chainb].
    + replace (if strict then _ else _) with true; [reflexivity|].
      symmetry. destruct strict; [apply Z.ltb_lt | apply Z.leb_le]; lia.
    + cbn [chainb] in Hchain. rewrite Hchain.
      replace (if strict then _ else _) with true; [reflexivity|].
      symmetry. destruct strict; [apply Z.ltb_lt | apply Z.leb_le]; lia.
Qed.

Lemma run_on_snoc (b : t double) (threshold : double)
    (front : list (Tick double)) (tick : Tick double) :
  run_on b threshold (front ++ [tick]) = onTick tick (run_on b threshold front).
Proof. unfold run_on. rewrite fold_left_app. reflexivity. Qed.

(** The entry time of the position that is open after a tick: the time of
    that tick when the tick changed the position, an earlier time when it
    did not. *)
Lemma entry_after_tick (seen : Z) (tick : Tick double) (l : loop double) :
  times_ok true seen l -> seen < timestamp tick ->
  currentPosition_ (engine (onTick tick l)) <> FLAT ->
  (currentPosition_ (engine l) = currentPosition_ (engine (onTick tick l)) ->
   entryTime_ (engine (onTick tick l)) < timestamp tick) /\
  (currentPosition_ (engine l) <> currentPosition_ (engine (onTick tick l)) ->
   entryTime_ (engine (onTick tick l)) = timestamp tick).
Proof.
  intros (_ & Hopen & _) Hnext.
  destruct (onTick_engine tick l) as (signal & -> & _).
  destruct (updatePosition_logs (engine l) (mid tick) (timestamp tick) signal)
    as (_ & Hsame & Hnew). cbv zeta in Hsame, Hnew.
  destruct (Signal_eqb signal (currentPosition_ (engine l))) eqn:E.
  - rewrite (Hsame eq_refl). intros Hpos. split; [|congruence].
    intros _. specialize (Hopen Hpos). lia.
  - destruct (Hnew eq_refl) as (Hpos' & _ & _ & Hentry & _).
    rewrite Hpos', Hentry. intros Hpos. split.
    + intros Heq. rewrite Heq, Signal_eqb_refl in E. discriminate.
    + intros _. destruct signal; [congruence | reflexivity | reflexivity].
Qed.

(** The forced close at the end of the stream: it logs at most one trade,
    after those the signals closed; the trade leaves the open position at
    the last tick. *)
Lemma finish_forced (l : loop double) :
  exists forced : list (Trade double),
    trades_ (finish l) = trades_ (engine l) ++ forced /\
    (forced = [] \/
     exists (trade : Trade double) (tick : Tick double),
       forced = [trade] /\ lastTick l = Some tick /\
       entryTime trade = entryTime_ (engine l) /\
       exitTime trade = timestamp tick /\
       direction trade = currentPosition_ (engine l) /\
       direction trade <> FLAT /\
       duration trade = wrap_i64 (exitTime trade - entryTime trade)).
Proof.
  unfold finish.
  destruct (currentPosition_ (engine l)) eqn:Epos;
    [exists []; rewrite app_nil_r; split; [reflexivity | left; reflexivity]| |];
    (destruct (lastTick l) as [tick|];
     [|exists []; rewrite app_nil_r; split; [reflexivity | left; reflexivity]]);
    (destruct (0 <? tickCount l);
     [|exists []; rewrite app_nil_r; split; [reflexivity | left; reflexivity]]);
    unfold closePosition; rewrite Epos; cbn [trades_];
    eexists; (split; [reflexivity|]); right; do 2 eexists;
    cbn [entryTime exitTime direction duration];
    repeat split; discriminate.
Qed.

Lemma finish_trades (seen : Z) (l : loop double) :
  times_ok false seen l ->
  Forall (trade_ordered false) (trades_ (finish l)).
Proof.
  intros (Htr & Hopen & Hlast).
  destruct (finish_forced l) as (forced & -> & Hforced).
  apply Forall_app. split; [exact Htr|].
  destruct Hforced as [-> | (trade & tick & -> & Htick & Hentry & Hexit & Hdir & Hopened & Hdur)];
    constructor; [|constructor].
  split; [|exact Hdur].
  cbn [below]. rewrite Hentry, Hexit, (Hlast tick Htick).
  apply Hopen. rewrite <- Hdir. exact Hopened.
Qed.

Lemma wrap_i64_small (z : Z) : - 2 ^ 63 <= z < 2 ^ 63 -> wrap_i64 z = z.
Proof.
  intros Hz. unfold wrap_i64. rewrite Z.mod_small; lia.
Qed.

Variable stod : list byte -> conv double.

(** C5, amended.  On a valid file whose ticks come with strictly increasing
    timestamps, the log of a run is the trades the signals closed followed
    by at most one trade of the forced close at the end of the stream.
    Every trade a signal closed has [entry_time < exit_time].  The trade of
    the forced close exits at the last tick; it has [entry_time < exit_time]
    when the position was already open before the last tick, and
    [entry_time = exit_time] exactly when the last tick itself opened the
    position.  With timestamps that only never decrease, every trade of the
    log has [entry_time <= exit_time].  In all cases the duration is
    [exit_time - entry_time] computed in [int64_t], which is that difference
    whenever it is below [2 ^ 63]. *)
Theorem trade_times_ordered (b : t double) (file : option (list byte))
    (threshold : double) :
  MarketDataReader.isValid (MarketDataReader.new file) = true ->
  let ticks := fst (iterate stod (MarketDataReader.new file)) in
  let l := run_on b threshold ticks in
  let log := trades_ (snd (run stod b file threshold)) in
  nondecreasingb (map timestamp ticks) = true ->
  Forall (fun trade =>
            entryTime trade <= exitTime trade /\
            duration trade = wrap_i64 (exitTime trade - entryTime trade) /\
            (exitTime trade - entryTime trade < 2 ^ 63 ->
             duration trade = exitTime trade - entryTime trade)) log /\
  (increasingb (map timestamp ticks) = true ->
   exists forced : list (Trade double),
     log = trades_ (engine l) ++ forced /\
     Forall (fun trade => entryTime trade < exitTime trade)
            (trades_ (engine l)) /\
     (forced = [] \/
      exists (trade : Trade double) (front : list (Tick double))
             (tick : Tick double),
        forced = [trade] /\
        ticks = front ++ [tick] /\
        exitTime trade = timestamp tick /\
        direction trade = currentPosition_ (engine l) /\
        direction trade <> FLAT /\
        (currentPosition_ (engine (run_on b threshold front)) = direction trade ->
         entryTime trade < exitTime trade) /\
        (currentPosition_ (engine (run_on b threshold front)) <> direction trade ->
         entryTime trade = exitTime trade))).
Proof.
  intros Hvalid ticks l log Hchain.
  assert (Hlog : log = trades_ (match snd (iterate stod (MarketDataReader.new file)) with
                                | Some _ => engine l
                                | None => finish l
                                end)).
  { subst log l ticks. rewrite (run_engine stod b file threshold Hvalid).
    reflexivity. }
  split.
  - rewrite Hlog.
    destruct (times_ok_run_on false b threshold ticks Hchain) as (seen & Hok).
    fold l in Hok.
    assert (Hall : Forall (trade_ordered false)
                          (trades_ (match snd (iterate stod (MarketDataReader.new file)) with
                                    | Some _ => engine l
                                    | None => finish l
                                    end))).
    { destruct (snd (iterate stod (MarketDataReader.new file)));
        [exact (proj1 Hok) | exact (finish_trades seen l Hok)]. }
    revert Hall. apply Forall_impl. intros trade [Hle Hdur]. cbn [below] in Hle.
    split; [exact Hle|]. split; [exact Hdur|].
    intros Hfit. rewrite Hdur. apply wrap_i64_small. lia.
  - intros Hstrict.
    destruct (times_ok_run_on true b threshold ticks Hstrict) as (seen & Hok).
    fold l in Hok.
    assert (Hclosed : Forall (fun trade => entryTime trade < exitTime trade)
                             (trades_ (engine l))).
    { generalize (proj1 Hok). apply Forall_impl. intros trade [Hlt _]. exact Hlt. }
    destruct (snd (iterate stod (MarketDataReader.new file))) as [e|].
    { exists []. rewrite app_nil_r. split; [exact Hlog|].
      split; [exact Hclosed | left; reflexivity]. }
    destruct (finish_forced l) as (forced & Hfin & Hforced).
    exists forced. split; [rewrite Hlog; exact Hfin|]. split; [exact Hclosed|].
    destruct Hforced
      as [-> | (trade & tick & -> & Htick & Hentry & Hexit & Hdir & Hopened & _)];
      [left; reflexivity | right].
    destruct (exists_last (l := ticks)) as (front & tick' & Hticks).
    { intros Hnil. subst l. rewrite Hnil in Htick. discriminate. }
    assert (Hl : l = onTick tick' (run_on b threshold front)).
    { subst l. rewrite Hticks. apply run_on_snoc. }
    assert (tick' = tick).
    { destruct (onTick_engine tick' (run_on b threshold front)) as (_ & _ & Hlast).
      rewrite <- Hl, Htick in Hlast. congruence. }
    subst tick'.
    exists trade, front, tick.
    split; [reflexivity|]. split; [exact Hticks|]. split; [exact Hexit|].
    split; [exact Hdir|]. split; [exact Hopened|].
    rewrite Hticks in Hstrict.
    destruct (times_ok_before_last true b threshold front tick Hstrict)
      as (seen' & Hok' & Hnext). cbn [below] in Hnext.
    assert (Hopen : currentPosition_ (engine (onTick tick (run_on b threshold front)))
                    <> FLAT).
    { rewrite <- Hl, <- Hdir. exact Hopened. }
    destruct (entry_after_tick seen' tick (run_on b threshold front) Hok' Hnext Hopen)
      as [Hheld Hnew].
    rewrite <- Hl in Hheld, Hnew. rewrite Hdir, Hentry, Hexit.
    split; [exact Hheld | exact Hnew].
Qed.

End TradeFacts.

(** ** The early exit of [calculateMetrics] agrees with the formulas *)

Section ReportedFacts.
Context {double : Type} `{Double double}.
Import Backtester.

Lemma untouched_step (b : t double) (price : double) (time : Z) (signal : Signal) :
  untouched b -> untouched (updatePosition b price time signal).
Proof.
  intros Hb.
  destruct (updatePosition_logs b price time signal) as (_ & Hsame & Hnew).
  cbv zeta in Hsame, Hnew.
  destruct (Signal_eqb signal (currentPosition_ b)) eqn:E.
  - rewrite (Hsame eq_refl). exact Hb.
  - destruct (Hnew eq_refl) as (Hpos & _ & _ & _ & Htrades).
    intros Hempty Hflat. exfalso. rewrite Hpos in Hflat. subst signal.
    destruct (currentPosition_ b) eqn:Eb; [discriminate| |];
      destruct Htrades as (fill & profit & Ht); rewrite Ht in Hempty;
      destruct (trades_ b); discriminate.
Qed.

(** Through the loop: the engine is untouched in the sense above, the tick
    counter counts, and an open position means a tick was seen. *)
Lemma loop_counts (ticks : list (Tick double)) (l : loop double) :
  untouched (engine l) ->
  let l' := fold_left (fun l tick => onTick tick l) ticks l in
  untouched (engine l') /\
  tickCount l' = (tickCount l + Z.of_nat (length ticks)) mod 2 ^ 64
                 \/ ticks = [] /\ l' = l.
Proof.
  revert l. induction ticks as [|tick ticks IH]; intros l Hl; cbv zeta.
  - right. split; reflexivity.
  - left. cbn [fold_left].
    assert (Hl' : untouched (engine (onTick tick l))).
    { destruct (onTick_engine tick l) as (signal & -> & _).
      apply untouched_step. exact Hl. }
    assert (Hcount : tickCount (onTick tick l) = wrap_u64 (tickCount l + 1)).
    { unfold onTick. destruct (SignalGenerator.generate _ _ _). reflexivity. }
    destruct (IH (onTick tick l) Hl') as [[Hu Hc]|[-> ->]].
    + split; [exact Hu|]. rewrite Hc, Hcount. unfold wrap_u64.
      rewrite Zplus_mod_idemp_l. f_equal. cbn [length]. lia.
    + split; [exact Hl'|]. cbn [fold_left length]. rewrite Hcount.
      unfold wrap_u64. f_equal.
Qed.

Lemma loop_lastTick (ticks : list (Tick double)) (l : loop double) :
  ticks <> [] ->
  exists tick,
    lastTick (fold_left (fun l tick => onTick tick l) ticks l) = Some tick.
Proof.
  revert l. induction ticks as [|tick ticks IH]; intros l Hne; [congruence|].
  cbn [fold_left]. destruct ticks as [|tick' ticks'].
  - exists tick. cbn [fold_left].
    destruct (onTick_engine tick l) as (_ & _ & Hlast). exact Hlast.
  - apply IH. discriminate.
Qed.

(** After a run over fewer than [2^64] ticks, an empty trade log means that
    the engine is untouched. *)
Lemma finish_untouched (b : t double) (threshold : double)
    (ticks : list (Tick double)) :
  Z.of_nat (length ticks) < 2 ^ 64 ->
  trades_ (finish (run_on b threshold ticks)) = [] ->
  pristine (finish (run_on b threshold ticks)).
Proof.
  intros Hlen. unfold run_on.
  assert (Hstart : untouched (engine (start b threshold)))
    by (intros _ _; split; reflexivity).
  pose proof (loop_counts ticks (start b threshold) Hstart) as Hcounts.
  cbv zeta in Hcounts.
  destruct ticks as [|tick ticks'].
  - intros _. split; reflexivity.
  - destruct Hcounts as [[Hu Hc]|[Hnil _]]; [|discriminate].
    destruct (loop_lastTick (tick :: ticks') (start b threshold)
                ltac:(discriminate)) as (last & Hlast).
    cbn [tickCount start] in Hc. rewrite Z.add_0_l, Z.mod_small in Hc
      by (cbn [length] in *; lia).
    set (l := fold_left _ (tick :: ticks') (start b threshold)) in *.
    unfold finish. rewrite Hlast.
    replace (0 <? tickCount l) with true
      by (symmetry; apply Z.ltb_lt; rewrite Hc; cbn [length]; lia).
    destruct (currentPosition_ (engine l)) eqn:Epos.
    + intros Hempty. exact (Hu Hempty Epos).
    + unfold closePosition. rewrite Epos. cbn [trades_].
      intros Hempty. destruct (trades_ (engine l)); discriminate.
    + unfold closePosition. rewrite Epos. cbn [trades_].
      intros Hempty. destruct (trades_ (engine l)); discriminate.
Qed.

(** The reported return and volatility are those of section 4.5, computed
    from the final equity and the equity curve, in an arithmetic where
    [(100000 - 100000) / 100000] is 0. *)
Lemma reported_return_and_volatility (b : t double) (threshold : double)
    (ticks : list (Tick double)) :
  Z.of_nat (length ticks) < 2 ^ 64 ->
  ((d_lit 100000 0 - d_lit 100000 0) / d_lit 100000 0)%dbl = d_lit 0 0 ->
  let l := run_on b threshold ticks in
  let m := calculateMetrics (finish l) (startTime l) (endTime l) (tickCount l) in
  totalReturn m = return_of (finish l) /\
  volatility m = volatilityOf (equityCurve_ (finish l)).
Proof.
  intros Hlen Hzero l m. subst m. unfold calculateMetrics.
  destruct (trades_ (finish l)) as [|trade trades] eqn:Et.
  - destruct (finish_untouched b threshold ticks Hlen Et) as [Heq Hcurve].
    fold l in Heq, Hcurve. cbn [totalReturn volatility].
    unfold return_of. rewrite Heq, Hcurve, Hzero. split; reflexivity.
  - cbn [totalReturn volatility]. split; reflexivity.
Qed.

Variable stod : list byte -> conv double.

Lemma lines_length (s : list byte) : (length (lines s) <= length s)%nat.
Proof.
  induction s as [|c s IH]; cbn [lines length]; [lia|].
  destruct (Byte.eqb c LF); cbn [length]; [lia|].
  destruct (lines s); cbn [length] in *; lia.
Qed.

Lemma scan_length (ls : list (list byte)) :
  (length (fst (scan stod ls)) <= length ls)%nat.
Proof.
  induction ls as [|l ls IH]; cbn [scan]; [cbn; lia|].
  destruct l as [|c l]; [cbn; lia|].
  destruct (parse_record stod (c :: l)); cbn [length fst].
  - destruct (scan stod ls) as [ticks e]. cbn [fst length] in *. lia.
  - lia.
  - lia.
Qed.

(** A pass yields at most as many ticks as the file has bytes. *)
Lemma iterate_length (file : list byte) :
  (length (fst (iterate stod (MarketDataReader.new (Some file))))
   <= length file)%nat.
Proof.
  rewrite iterate_scan.
  pose proof (scan_length (lines (body_of file))) as H1.
  pose proof (lines_length (body_of file)) as H2.
  assert (H3 : (length (body_of file) <= length file)%nat).
  { unfold body_of. destruct (MarketDataReader.find_byte LF file); [|lia].
    rewrite length_skipn. lia. }
  lia.
Qed.

(** For a completed run over a file of a size that [size_t] holds, the
    reported return and volatility are those of section 4.5. *)
Lemma run_reports_formulas (b : t double) (file : list byte) (threshold : double) :
  Z.of_nat (length file) < 2 ^ 64 ->
  ((d_lit 100000 0 - d_lit 100000 0) / d_lit 100000 0)%dbl = d_lit 0 0 ->
  match run stod b (Some file) threshold with
  | (inr m, b') =>
      totalReturn m = return_of b' /\
      volatility m = volatilityOf (equityCurve_ b')
  | (inl _, _) => True
  end.
Proof.
  intros Hsize Hzero. destruct file as [|c file]; [exact I|].
  rewrite run_scan. unfold run_of.
  pose proof (iterate_length (c :: file)) as Hticks.
  rewrite iterate_scan in Hticks.
  destruct (scan stod (lines (body_of (c :: file)))) as [ticks [e|]];
    cbn [fst snd] in *; [exact I|].
  apply reported_return_and_volatility; [lia | exact Hzero].
Qed.

End ReportedFacts.

(** Both arithmetics have [(100000 - 100000) / 100000 = 0]. *)
Lemma zero_return :
  ((d_lit 100000 0 - d_lit 100000 0) / d_lit 100000 0)%dbl
  = d_lit (Double := IEEE) 0 0 /\
  ((d_lit 100000 0 - d_lit 100000 0) / d_lit 100000 0)%dbl
  = d_lit (Double := Ideal) 0 0.
Proof.
  split; [vm_compute; reflexivity|].
  ideal. field.
Qed.

(** C8: a run that completes reports
    [sharpe = total_return / volatility * sqrt 252] when the reported
    volatility exceeds [1e-10], and 0 otherwise; no risk-free rate is
    subtracted.  For a file of a size that [size_t] holds, the reported
    return and volatility are those of section 4.5 of the specification,
    computed from the final equity and the equity curve.  In binary64 and
    over the reals, whatever [std::stod] is. *)
Theorem sharpe_of_completed_run :
  (forall (stod : list byte -> conv float) (b : Backtester.t float)
          (file : list byte) (threshold : float),
      match Backtester.run stod b (Some file) threshold with
      | (inr m, b') =>
          sharpe_rule m /\
          (Z.of_nat (length file) < 2 ^ 64 ->
           totalReturn m = return_of b' /\
           volatility m = Backtester.volatilityOf (Backtester.equityCurve_ b'))
      | (inl _, _) => True
      end) /\
  (forall (stod : list byte -> conv R) (b : Backtester.t R)
          (file : list byte) (threshold : R),
      match Backtester.run stod b (Some file) threshold with
      | (inr m, b') =>
          sharpe_rule m /\
          (Z.of_nat (length file) < 2 ^ 64 ->
           totalReturn m = return_of b' /\
           volatility m = Backtester.volatilityOf (Backtester.equityCurve_ b'))
      | (inl _, _) => True
      end).
Proof.
  destruct zero_return as [Hieee Hreal].
  split; intros stod b file threshold.
  - assert (Htest : @d_lt float IEEE (d_lit 1 (-10)) (d_lit 0 0) = false)
      by (vm_compute; reflexivity).
    pose proof (run_sharpe stod b (Some file) threshold Htest) as Hsharpe.
    pose proof (fun Hsize =>
                  run_reports_formulas stod b file threshold Hsize Hieee) as Hform.
    destruct (Backtester.run stod b (Some file) threshold) as [[e|m] b'];
      [exact I | split; assumption].
  - assert (Htest : @d_lt R Ideal (d_lit 1 (-10)) (d_lit 0 0) = false)
      by (apply Rltb_false; cbn; lra).
    pose proof (run_sharpe stod b (Some file) threshold Htest) as Hsharpe.
    pose proof (fun Hsize =>
                  run_reports_formulas stod b file threshold Hsize Hreal) as Hform.
    destruct (Backtester.run stod b (Some file) threshold) as [[e|m] b'];
      [exact I | split; assumption].
Qed.


(** The theorem of C8 applied, in binary64, to the run over
    [file_open_at_end], which completes with one trade. *)
Lemma sharpe_of_completed_run_witness :
  Z.of_nat (length file_open_at_end) < 2 ^ 64 /\
  exists (m : PerformanceMetrics float) (b' : Backtester.t float),
    Backtester.run stod backtester0 (Some file_open_at_end) threshold0
    = (inr m, b') /\
    totalTrades m = 1 /\
    sharpe_rule m /\
    totalReturn m = return_of b' /\
    volatility m = Backtester.volatilityOf (Backtester.equityCurve_ b').
Proof.
  assert (Hsize : Z.of_nat (length file_open_at_end) < 2 ^ 64)
    by (vm_compute; reflexivity).
  split; [exact Hsize|].
  pose proof (proj1 sharpe_of_completed_run stod backtester0
                file_open_at_end threshold0) as Hthm.
  assert (Hrun : exists m b',
             Backtester.run stod backtester0 (Some file_open_at_end) threshold0
             = (inr m, b') /\ totalTrades m = 1).
  { unfold file_open_at_end. rewrite run_scan_header. unfold run_of.
    set (pass := scan stod _).
    assert (Hpass : (snd pass,
                     length (Backtester.trades_
                               (Backtester.finish (run_on backtester0 threshold0 (fst pass)))))
                    = (None, 1%nat))
      by (vm_compute; reflexivity).
    remember (length (Backtester.trades_
                        (Backtester.finish (run_on backtester0 threshold0 (fst pass)))))
      as n eqn:Hn.
    revert Hpass. generalize (snd pass). intros e Hpass.
    injection Hpass as -> ->.
    do 2 eexists. split; [reflexivity|].
    unfold Backtester.calculateMetrics.
    destruct (Backtester.trades_ _) as [|trade trades]; [discriminate|].
    cbn [totalTrades]. rewrite <- Hn. reflexivity. }
  destruct Hrun as (m & b' & Hrun & Htrades).
  rewrite Hrun in Hthm. destruct Hthm as [Hsharpe Hform].
  exists m, b'. split; [exact Hrun|]. split; [exact Htrades|].
  split; [exact Hsharpe | exact (Hform Hsize)].
Defined.

(** ** Backtester: the peak, over the reals *)

Section PeakFacts.
Import Backtester.
Local Open Scope R_scope.

(** Every call of [updatePosition] that changes the position ends by
    raising the peak to the equity, so a state with [equity <= peak] is
    followed by one. *)
Lemma updatePosition_peak (b : Backtester.t R) (price : R) (time : Z)
    (signal : Signal) :
  equity_ b <= peakEquity_ b ->
  equity_ (updatePosition b price time signal)
  <= peakEquity_ (updatePosition b price time signal).
Proof.
  intros Hb. unfold updatePosition.
  destruct (Signal_eqb signal (currentPosition_ b)); [exact Hb|].
  unfold recordEquity. cbn [equity_ peakEquity_]. ideal.
  match goal with |- context [Rltb ?p ?e] =>
    destruct (Rltb p e) eqn:E; ideal_tests; lra end.
Qed.

(** Through the loop of [run], before the forced close, the peak is never
    below the equity. *)
Lemma run_on_peak (b : Backtester.t R) (threshold : R) (ticks : list (Tick R)) :
  equity_ (engine (run_on b threshold ticks))
  <= peakEquity_ (engine (run_on b threshold ticks)).
Proof.
  unfold run_on.
  assert (Hstart : equity_ (engine (start b threshold))
                   <= peakEquity_ (engine (start b threshold)))
    by (cbn; lra).
  revert Hstart. generalize (start b threshold).
  induction ticks as [|tick ticks IH]; intros l Hl; [exact Hl|].
  cbn [fold_left]. apply IH.
  destruct (onTick_engine tick l) as (signal & -> & _).
  apply updatePosition_peak. exact Hl.
Qed.

End PeakFacts.

(** ** The engine at concrete files, in binary64 *)

Lemma valid_entry_at_last_tick :
  MarketDataReader.isValid
    (MarketDataReader.new (Some file_entry_at_last_tick)) = true.
Proof. vm_compute. reflexivity. Qed.

(** The timestamps of that file increase strictly. *)
Lemma increasing_entry_at_last_tick :
  increasingb
    (map timestamp
         (fst (iterate stod (MarketDataReader.new (Some file_entry_at_last_tick)))))
  = true /\
  nondecreasingb
    (map timestamp
         (fst (iterate stod (MarketDataReader.new (Some file_entry_at_last_tick)))))
  = true.
Proof.
  unfold file_entry_at_last_tick. rewrite iterate_header.
  set (times := map timestamp _).
  assert (E : (increasingb times, nondecreasingb times) = (true, true))
    by (vm_compute; reflexivity).
  revert E. generalize (increasingb times) (nondecreasingb times).
  intros x y E. injection E as -> ->. split; reflexivity.
Qed.

(** C5, as stated, fails: on [file_entry_at_last_tick] (the ticks at the
    times 1 to 20000 fill the window, the tick at time 20001 opens a LONG) the
    stream ends with the position open, the forced close exits at that same
    tick, and the one trade of the log has [entry_time = exit_time = 20001]
    and duration 0, although the timestamps of the stream increase
    strictly. *)
Lemma trade_of_zero_duration :
  increasingb
    (map timestamp
         (fst (iterate stod (MarketDataReader.new (Some file_entry_at_last_tick)))))
  = true /\
  map (fun trade => (entryTime trade, exitTime trade, duration trade))
      (Backtester.trades_
         (snd (Backtester.run stod backtester0
                 (Some file_entry_at_last_tick) threshold0)))
  = [(20001, 20001, 0)].
Proof.
  split; [exact (proj1 increasing_entry_at_last_tick)|].
  unfold file_entry_at_last_tick. rewrite run_scan_header.
  vm_compute. reflexivity.
Qed.

Lemma valid_two_trades :
  MarketDataReader.isValid (MarketDataReader.new (Some file_two_trades)) = true.
Proof. vm_compute. reflexivity. Qed.

Lemma increasing_two_trades :
  increasingb
    (map timestamp
         (fst (iterate stod (MarketDataReader.new (Some file_two_trades)))))
  = true /\
  nondecreasingb
    (map timestamp
         (fst (iterate stod (MarketDataReader.new (Some file_two_trades)))))
  = true.
Proof.
  unfold file_two_trades. rewrite iterate_header.
  set (times := map timestamp _).
  assert (E : (increasingb times, nondecreasingb times) = (true, true))
    by (vm_compute; reflexivity).
  revert E. generalize (increasingb times) (nondecreasingb times).
  intros x y E. injection E as -> ->. split; reflexivity.
Qed.

(** The run over [file_two_trades] logs two trades: the one a signal closed
    and the one of the forced close, of a position open since time 20003. *)
Lemma trades_two_trades :
  map (fun trade => (entryTime trade, exitTime trade, duration trade))
      (Backtester.trades_
         (snd (Backtester.run stod backtester0 (Some file_two_trades) threshold0)))
  = [(20001, 20002, 1); (20003, 20004, 1)] /\
  length (Backtester.trades_
            (Backtester.engine
               (run_on backtester0 threshold0
                  (fst (iterate stod
                          (MarketDataReader.new (Some file_two_trades)))))))
  = 1%nat.
Proof.
  unfold file_two_trades. rewrite iterate_header, run_scan_header.
  split; vm_compute; reflexivity.
Qed.

(** The theorem of C5 applied to that run: both trades have
    [entry_time < exit_time]. *)
Lemma trade_times_ordered_witness :
  MarketDataReader.isValid (MarketDataReader.new (Some file_two_trades)) = true /\
  nondecreasingb
    (map timestamp
         (fst (iterate stod (MarketDataReader.new (Some file_two_trades)))))
  = true /\
  increasingb
    (map timestamp
         (fst (iterate stod (MarketDataReader.new (Some file_two_trades)))))
  = true /\
  map (fun trade => (entryTime trade, exitTime trade, duration trade))
      (Backtester.trades_
         (snd (Backtester.run stod backtester0 (Some file_two_trades) threshold0)))
  = [(20001, 20002, 1); (20003, 20004, 1)] /\
  Forall (fun trade =>
            entryTime trade <= exitTime trade /\
            duration trade = wrap_i64 (exitTime trade - entryTime trade) /\
            (exitTime trade - entryTime trade < 2 ^ 63 ->
             duration trade = exitTime trade - entryTime trade))
         (Backtester.trades_
            (snd (Backtester.run stod backtester0 (Some file_two_trades) threshold0))) /\
  exists forced : list (Trade float),
    Backtester.trades_
      (snd (Backtester.run stod backtester0 (Some file_two_trades) threshold0))
    = Backtester.trades_
        (Backtester.engine
           (run_on backtester0 threshold0
              (fst (iterate stod (MarketDataReader.new (Some file_two_trades))))))
      ++ forced /\
    Forall (fun trade => entryTime trade < exitTime trade)
           (Backtester.trades_
              (Backtester.engine
                 (run_on backtester0 threshold0
                    (fst (iterate stod
                            (MarketDataReader.new (Some file_two_trades))))))) /\
    (forced = [] \/
     exists (trade : Trade float) (front : list (Tick float)) (tick : Tick float),
       forced = [trade] /\
       fst (iterate stod (MarketDataReader.new (Some file_two_trades)))
       = front ++ [tick] /\
       exitTime trade = timestamp tick /\
       direction trade
       = Backtester.currentPosition_
           (Backtester.engine
              (run_on backtester0 threshold0
                 (fst (iterate stod
                         (MarketDataReader.new (Some file_two_trades)))))) /\
       direction trade <> FLAT /\
       (Backtester.currentPosition_
          (Backtester.engine (run_on backtester0 threshold0 front))
        = direction trade ->
        entryTime trade < exitTime trade) /\
       (Backtester.currentPosition_
          (Backtester.engine (run_on backtester0 threshold0 front))
        <> direction trade ->
        entryTime trade = exitTime trade)).
Proof.
  split; [exact valid_two_trades|].
  split; [exact (proj2 increasing_two_trades)|].
  split; [exact (proj1 increasing_two_trades)|].
  split; [exact (proj1 trades_two_trades)|].
  pose proof (trade_times_ordered stod backtester0 (Some file_two_trades)
                threshold0 valid_two_trades (proj2 increasing_two_trades))
    as [Hall Hstrict].
  split; [exact Hall|].
  exact (Hstrict (proj1 increasing_two_trades)).
Defined.





(** C4, at the input where the code departs from it: on [file_open_at_end]
    the LONG opened at 90.25 is still open when the stream ends; the forced
    close sells at 94.75 and adds the profit to the equity, and nothing
    raises the peak: the run ends with [peak_equity = 100000] below
    [equity], about 100220.8. *)
Theorem forced_close_leaves_peak_below_equity :
  Backtester.peakEquity_
    (snd (Backtester.run stod backtester0 (Some file_open_at_end) threshold0))
  = 100000%float /\
  (Backtester.peakEquity_
     (snd (Backtester.run stod backtester0 (Some file_open_at_end) threshold0))
   <? Backtester.equity_
        (snd (Backtester.run stod backtester0 (Some file_open_at_end) threshold0)))%dbl
  = true /\
  (100220%float
   <? Backtester.equity_
        (snd (Backtester.run stod backtester0 (Some file_open_at_end) threshold0)))%dbl
  = true.
Proof.
  unfold file_open_at_end. rewrite run_scan_header.
  set (b' := snd (run_of backtester0 threshold0 _)).
  assert (E : (Backtester.peakEquity_ b',
               (Backtester.peakEquity_ b' <? Backtester.equity_ b')%dbl,
               (100220%float <? Backtester.equity_ b')%dbl)
              = (100000%float, true, true)) by (vm_compute; reflexivity).
  revert E. generalize (Backtester.peakEquity_ b') (Backtester.equity_ b').
  clear b'. intros p e E. injection E as H1 H2 H3.
  subst p. repeat split; assumption.
Qed.

(** * Further properties of the sources *)

Lemma land_mask (k x : Z) : 0 <= k -> Z.land x (2 ^ k - 1) = x mod 2 ^ k.
Proof.
  intros Hk. rewrite <- Z.land_ones by assumption.
  rewrite Z.ones_equiv. reflexivity.
Qed.

Lemma wrap_u64_small (x : Z) : 0 <= x < 2 ^ 64 -> wrap_u64 x = x.
Proof. intros Hx. unfold wrap_u64. apply Z.mod_small. exact Hx. Qed.

Lemma pow2_bounds (k : Z) : 0 <= k < 64 -> 0 < 2 ^ k <= 2 ^ 63.
Proof.
  intros Hk. split; [apply Z.pow_pos_nonneg; lia|].
  apply Z.pow_le_mono_r; lia.
Qed.

Lemma mod_shift (c h n : Z) :
  0 < c -> 0 <= h < c -> 0 <= n < c ->
  (h + n) mod c = if h + n <? c then h + n else h + n - c.
Proof.
  intros Hc Hh Hn. destruct (h + n <? c) eqn:E.
  - apply Z.ltb_lt in E. apply Z.mod_small. lia.
  - apply Z.ltb_ge in E. symmetry. apply (Z.mod_unique _ _ 1); lia.
Qed.

Lemma mod_shift_inj (c h i j : Z) :
  0 < c -> 0 <= h < c -> 0 <= i < c -> 0 <= j < c ->
  (h + i) mod c = (h + j) mod c -> i = j.
Proof.
  intros Hc Hh Hi Hj. rewrite !mod_shift by lia.
  destruct (h + i <? c) eqn:Ei, (h + j <? c) eqn:Ej;
    rewrite ?Z.ltb_lt, ?Z.ltb_ge in *; lia.
Qed.

Lemma mod_shift_fix (c h n : Z) :
  0 < c -> 0 <= h < c -> 0 <= n < c -> (h + n) mod c = h -> n = 0.
Proof.
  intros Hc Hh Hn. rewrite mod_shift by lia.
  destruct (h + n <? c) eqn:E; rewrite ?Z.ltb_lt, ?Z.ltb_ge in *; lia.
Qed.

Section QueueOrder.
Context {T : Type}.
Import LockFreeQueue.

Lemma nth_error_store_at (l : list (option T)) (i j : nat) (v : option T) :
  (i < length l)%nat ->
  nth_error (store_at l i v) j = if (j =? i)%nat then Some v else nth_error l j.
Proof.
  revert i j. induction l as [|x l IH]; intros [|i] [|j] Hi; cbn in *;
    try lia; try reflexivity.
  apply IH. lia.
Qed.

Lemma length_store_at (l : list (option T)) (i : nat) (v : option T) :
  length (store_at l i v) = length l.
Proof.
  revert i. induction l as [|x l IH]; intros [|i]; cbn; try reflexivity.
  rewrite IH. reflexivity.
Qed.

Lemma slot_set_slot (q : t T) (i j : Z) (v : option T) :
  0 <= i < Z.of_nat (length (buffer_ q)) -> 0 <= j ->
  slot (set_slot q i v) j = if j =? i then Some v else slot q j.
Proof.
  intros Hi Hj. unfold slot, set_slot. cbn.
  destruct (0 <=? j) eqn:E; [|apply Z.leb_gt in E; lia].
  rewrite nth_error_store_at by lia.
  destruct (j =? i) eqn:Eji.
  - apply Z.eqb_eq in Eji. subst. rewrite Nat.eqb_refl. reflexivity.
  - apply Z.eqb_neq in Eji.
    destruct (Nat.eqb_spec (Z.to_nat j) (Z.to_nat i)); [lia|reflexivity].
Qed.


Lemma holds_size (q : t T) (l : list T) :
  holds q l -> size q = Z.of_nat (length l) /\ empty q = (length l =? 0)%nat.
Proof.
  intros ([k [Hk Hc]] & Hmask & Hlen & Hhead & Hl & Htail & Hslots).
  pose proof (pow2_bounds k Hk) as Hck. rewrite <- Hc in Hck.
  assert (Hn : 0 <= Z.of_nat (length l)) by lia.
  unfold size, empty. rewrite Hmask, Hc, land_mask by lia.
  unfold wrap_u64.
  rewrite Z.mod_mod_divide.
  2:{ exists (2 ^ (64 - k)). rewrite <- Z.pow_add_r by lia. f_equal. lia. }
  rewrite <- Hc. rewrite Htail.
  rewrite mod_shift by lia.
  split.
  - destruct (head_ q + Z.of_nat (length l) <? capacity_ q) eqn:E.
    + replace (head_ q + Z.of_nat (length l) - head_ q) with (Z.of_nat (length l)) by lia.
      apply Z.mod_small. lia.
    + apply Z.ltb_ge in E. symmetry.
      apply (Z.mod_unique _ _ (-1)); lia.
  - destruct (head_ q + Z.of_nat (length l) <? capacity_ q) eqn:E.
    + destruct (length l); cbn [Nat.eqb].
      * apply Z.eqb_eq. lia.
      * apply Z.eqb_neq. lia.
    + apply Z.ltb_ge in E. destruct (length l); cbn [Nat.eqb].
      * lia.
      * apply Z.eqb_neq. lia.
Qed.

Lemma holds_next (q : t T) (l : list T) (i : Z) :
  holds q l -> 0 <= i < capacity_ q ->
  Z.land (wrap_u64 ((head_ q + i) mod capacity_ q + 1)) (mask_ q)
  = (head_ q + (i + 1)) mod capacity_ q.
Proof.
  intros ([k [Hk Hc]] & Hmask & Hlen & Hhead & Hl & Htail & Hslots) Hi.
  pose proof (pow2_bounds k Hk) as Hck. rewrite <- Hc in Hck.
  pose proof (Z.mod_pos_bound (head_ q + i) (capacity_ q) ltac:(lia)) as Hm.
  rewrite wrap_u64_small by lia.
  rewrite Hmask. replace (capacity_ q - 1) with (2 ^ k - 1) by lia.
  rewrite land_mask by lia. rewrite <- Hc.
  rewrite Z.add_mod_idemp_l by lia. f_equal. lia.
Qed.

Lemma push_room (q : t T) (l : list T) (x : T) :
  holds q l -> Z.of_nat (length l) + 1 < capacity_ q ->
  exists q' : t T,
    tryPush q (Some x) false = Some (true, q') /\ holds q' (l ++ [x]).
Proof.
  intros Hq Hroom.
  pose proof (holds_next q l (Z.of_nat (length l)) Hq) as Hnext.
  destruct Hq as ([k [Hk Hc]] & Hmask & Hlen & Hhead & Hl & Htail & Hslots).
  pose proof (pow2_bounds k Hk) as Hck. rewrite <- Hc in Hck.
  specialize (Hnext ltac:(lia)). rewrite <- Htail in Hnext.
  unfold tryPush. rewrite Hnext.
  destruct ((head_ q + (Z.of_nat (length l) + 1)) mod capacity_ q =? head_ q) eqn:E.
  { apply Z.eqb_eq in E. apply mod_shift_fix in E; lia. }
  pose proof (Hslots (Z.of_nat (length l)) ltac:(lia)) as Hslot.
  rewrite <- Htail in Hslot. rewrite Hslot.
  rewrite Nat2Z.id.
  rewrite (proj2 (nth_error_None l (length l))) by lia.
  eexists. split; [reflexivity|].
  pose proof (Z.mod_pos_bound (head_ q + Z.of_nat (length l)) (capacity_ q) ltac:(lia)) as Hm.
  rewrite <- Htail in Hm.
  unfold holds. cbn [capacity_ mask_ buffer_ head_ tail_ set_tail set_slot].
  rewrite length_store_at, length_app. cbn [length].
  split; [exists k; split; [lia|assumption]|].
  split; [assumption|]. split; [assumption|]. split; [assumption|].
  split; [lia|]. split; [f_equal; lia|].
  intros i Hi.
  {
    pose proof (Z.mod_pos_bound (head_ q + i) (capacity_ q) ltac:(lia)) as Hmi.
    change (slot (set_tail (set_slot q (tail_ q) (Some x))
                    ((head_ q + (Z.of_nat (length l) + 1)) mod capacity_ q))
                 ((head_ q + i) mod capacity_ q))
      with (slot (set_slot q (tail_ q) (Some x)) ((head_ q + i) mod capacity_ q)).
    rewrite slot_set_slot by lia.
    destruct ((head_ q + i) mod capacity_ q =? tail_ q) eqn:Ei.
    + apply Z.eqb_eq in Ei. rewrite Htail in Ei.
      apply mod_shift_inj in Ei; try lia. subst i.
      rewrite Nat2Z.id. rewrite nth_error_app2 by lia.
      rewrite Nat.sub_diag. reflexivity.
    + apply Z.eqb_neq in Ei. rewrite Hslots by lia. f_equal.
      assert (i <> Z.of_nat (length l)) by (intros ->; apply Ei; symmetry; exact Htail).
      destruct (Z_lt_le_dec i (Z.of_nat (length l))).
      * rewrite nth_error_app1 by lia. reflexivity.
      * rewrite (proj2 (nth_error_None l _)) by lia.
        symmetry. apply nth_error_None. rewrite length_app. cbn. lia. }
Qed.

Lemma push_full (q : t T) (l : list T) (x : T) (spurious : bool) :
  holds q l -> Z.of_nat (length l) + 1 = capacity_ q ->
  tryPush q (Some x) spurious = Some (false, q).
Proof.
  intros Hq Hfull.
  pose proof (holds_next q l (Z.of_nat (length l)) Hq) as Hnext.
  destruct Hq as ([k [Hk Hc]] & Hmask & Hlen & Hhead & Hl & Htail & Hslots).
  pose proof (pow2_bounds k Hk) as Hck. rewrite <- Hc in Hck.
  specialize (Hnext ltac:(lia)). rewrite <- Htail in Hnext.
  unfold tryPush. rewrite Hnext.
  replace (head_ q + (Z.of_nat (length l) + 1)) with (head_ q + 1 * capacity_ q) by lia.
  rewrite Z.mod_add by lia. rewrite Z.mod_small by lia.
  rewrite Z.eqb_refl. reflexivity.
Qed.

Lemma pop_empty (q : t T) : holds q [] -> tryPop q = Some (None, q).
Proof.
  intros ([k [Hk Hc]] & Hmask & Hlen & Hhead & Hl & Htail & Hslots).
  cbn in Htail. rewrite Z.add_0_r, Z.mod_small in Htail by lia.
  unfold tryPop. rewrite Htail, Z.eqb_refl. reflexivity.
Qed.

Lemma pop_item (q : t T) (x : T) (l : list T) :
  holds q (x :: l) ->
  exists q' : t T, tryPop q = Some (Some x, q') /\ holds q' l.
Proof.
  intros Hq.
  pose proof (holds_next q (x :: l) 0 Hq) as Hnext.
  destruct Hq as ([k [Hk Hc]] & Hmask & Hlen & Hhead & Hl & Htail & Hslots).
  pose proof (pow2_bounds k Hk) as Hck. rewrite <- Hc in Hck.
  cbn [length] in Hl, Htail. rewrite Nat2Z.inj_succ in Hl, Htail.
  specialize (Hnext ltac:(lia)).
  rewrite Z.add_0_r, Z.mod_small in Hnext by lia. cbn [Z.add] in Hnext.
  unfold tryPop.
  destruct (head_ q =? tail_ q) eqn:E.
  { apply Z.eqb_eq in E. rewrite Htail in E. symmetry in E.
    apply mod_shift_fix in E; lia. }
  pose proof (Hslots 0 ltac:(lia)) as Hslot.
  rewrite Z.add_0_r, Z.mod_small in Hslot by lia. cbn in Hslot.
  rewrite Hslot, Hnext.
  eexists. split; [reflexivity|].
  pose proof (Z.mod_pos_bound (head_ q + 1) (capacity_ q) ltac:(lia)) as Hm.
  unfold holds. cbn [capacity_ mask_ buffer_ head_ tail_ set_head set_slot].
  rewrite length_store_at.
  split; [exists k; split; [lia|assumption]|].
  split; [assumption|]. split; [assumption|]. split; [assumption|].
  split; [lia|].
  split; [rewrite Z.add_mod_idemp_l by lia; rewrite Htail; f_equal; lia|].
  intros i Hi.
  {
    pose proof (Z.mod_pos_bound ((head_ q + 1) mod capacity_ q + i) (capacity_ q)
                  ltac:(lia)) as Hmi.
    change (slot (set_head (set_slot q (head_ q) None) ((head_ q + 1) mod capacity_ q))
                 (((head_ q + 1) mod capacity_ q + i) mod capacity_ q))
      with (slot (set_slot q (head_ q) None)
                 (((head_ q + 1) mod capacity_ q + i) mod capacity_ q)).
    rewrite slot_set_slot by lia.
    rewrite Z.add_mod_idemp_l by lia.
    destruct (Z.eq_dec (i + 1) (capacity_ q)) as [Elast|Elast].
    + replace (head_ q + 1 + i) with (head_ q + 1 * capacity_ q) by lia.
      rewrite Z.mod_add by lia. rewrite Z.mod_small by lia.
      rewrite Z.eqb_refl. f_equal. symmetry. apply nth_error_None. lia.
    + destruct ((head_ q + 1 + i) mod capacity_ q =? head_ q) eqn:Ei.
      { apply Z.eqb_eq in Ei.
        replace (head_ q + 1 + i) with (head_ q + (i + 1)) in Ei by lia.
        apply mod_shift_fix in Ei; lia. }
      replace (head_ q + 1 + i) with (head_ q + (i + 1)) by lia.
      rewrite Hslots by lia. f_equal.
      replace (Z.to_nat (i + 1)) with (S (Z.to_nat i)) by lia.
      reflexivity. }
Qed.

Lemma destroy_eq (q : t T) :
  destroy q =
  match tryPop q with
  | None => None
  | Some (None, _) => Some []
  | Some (Some item, q') => option_map (cons item) (destroy q')
  end.
Proof.
  funelim (destroy q);
    match goal with E : tryPop _ = _ |- _ => rewrite E end; reflexivity.
Qed.



Lemma destroy_holds (l : list T) :
  forall q : t T, holds q l -> destroy q = Some l.
Proof.
  induction l as [|x l IH]; intros q Hq; rewrite destroy_eq.
  - rewrite (pop_empty q Hq). reflexivity.
  - destruct (pop_item q x l Hq) as (q1 & Hpop & Hq1).
    rewrite Hpop, (IH q1 Hq1). reflexivity.
Qed.

End QueueOrder.

(** ** LockFreeQueue: the queue as a bounded first-in first-out list *)

Lemma queue78_holds : holds queue78 [7; 8].
Proof.
  unfold holds. cbn.
  split; [exists 2; split; [lia|reflexivity]|].
  split; [reflexivity|]. split; [reflexivity|]. split; [lia|].
  split; [lia|]. split; [reflexivity|].
  intros i Hi.
  assert (Hcases : i = 0 \/ i = 1 \/ i = 2 \/ i = 3) by lia.
  destruct Hcases as [-> | [-> | [-> | ->]]]; reflexivity.
Qed.

Section QueueExtras.
Context {T : Type}.
Import LockFreeQueue.

(** X1: operations on a queue that holds the items [l], oldest first.
    [tryPush] of a non-null item, when the exchange does not fail spuriously
    and fewer than capacity - 1 items are held, succeeds and leaves the queue
    holding [l] followed by the item.  [tryPop] returns the oldest item and
    leaves the rest; with no item held it fails and changes nothing. *)
Theorem queue_is_fifo (q : t T) (l : list T) :
  holds q l ->
  (forall x : T,
      Z.of_nat (length l) + 1 < capacity_ q ->
      exists q' : t T,
        tryPush q (Some x) false = Some (true, q') /\ holds q' (l ++ [x])) /\
  match l with
  | [] => tryPop q = Some (None, q)
  | x :: l' => exists q' : t T, tryPop q = Some (Some x, q') /\ holds q' l'
  end.
Proof.
  intros Hq. split.
  - intros x Hroom. apply push_room; assumption.
  - destruct l as [|x l'].
    + apply pop_empty. exact Hq.
    + apply pop_item. exact Hq.
Qed.

(** X2: a queue that holds [c - 1] items, [c] its capacity, is full: every
    [tryPush] fails and changes nothing. *)
Theorem tryPush_on_full_queue (q : t T) (l : list T) (x : T) (spurious : bool) :
  holds q l -> Z.of_nat (length l) + 1 = capacity_ q ->
  tryPush q (Some x) spurious = Some (false, q).
Proof. apply push_full. Qed.

(** X3: [size] is the number of items held, and [empty] tells whether there
    is none. *)
Theorem size_counts_items (q : t T) (l : list T) :
  holds q l ->
  size q = Z.of_nat (length l) /\ empty q = (length l =? 0)%nat.
Proof. apply holds_size. Qed.

(** X4: the destructor deletes the items still held, each once, oldest
    first, and then stops. *)
Theorem destructor_deletes_held_items (q : t T) (l : list T) :
  holds q l -> destroy q = Some l.
Proof. intros Hq. apply destroy_holds. exact Hq. Qed.



(** X7: an operation that reports failure has not changed the queue,
    whatever state the queue is in. *)
Theorem failed_operation_changes_nothing (q q' : t T) (item : option T)
    (spurious : bool) :
  (tryPush q item spurious = Some (false, q') -> q' = q) /\
  (tryPop q = Some (None, q') -> q' = q).
Proof.
  split.
  - unfold tryPush. destruct item as [x|]; [|intros [= <-]; reflexivity].
    destruct (_ =? _); [intros [= <-]; reflexivity|].
    destruct (slot q (tail_ q)) as [[y|]|]; try discriminate.
    + intros [= <-]. reflexivity.
    + destruct spurious; [intros [= <-]; reflexivity|discriminate].
  - unfold tryPop. destruct (_ =? _); [intros [= <-]; reflexivity|].
    destruct (slot q (head_ q)) as [[y|]|]; try discriminate.
    intros [= <-]. reflexivity.
Qed.

(** X8: the queue the constructor builds for capacity 0 has no slot:
    [tryPush] of a non-null item reads [buffer_[0]] outside the array, while
    [tryPop], [empty] and [size] see an empty queue. *)
Theorem capacity_zero_queue (x : T) (spurious : bool) :
  exists q : t T,
    new 0 = inr q /\
    tryPush q (Some x) spurious = None /\
    tryPop q = Some (None, q) /\
    empty q = true /\ size q = 0.
Proof.
  eexists. split; [reflexivity|]. cbn. repeat split; reflexivity.
Qed.

End QueueExtras.

Lemma queue_is_fifo_witness :
  holds queue78 [7; 8] /\
  (exists q' : LockFreeQueue.t Z,
      LockFreeQueue.tryPush queue78 (Some 9) false = Some (true, q') /\
      holds q' [7; 8; 9]) /\
  (exists q' : LockFreeQueue.t Z,
      LockFreeQueue.tryPop queue78 = Some (Some 7, q') /\ holds q' [8]).
Proof.
  split; [exact queue78_holds|].
  split.
  - apply (proj1 (queue_is_fifo queue78 [7; 8] queue78_holds) 9). cbn. lia.
  - exact (proj2 (queue_is_fifo queue78 [7; 8] queue78_holds)).
Defined.


Lemma queue789_holds : holds queue789 [7; 8; 9].
Proof.
  unfold holds. cbn.
  split; [exists 2; split; [lia|reflexivity]|].
  split; [reflexivity|]. split; [reflexivity|]. split; [lia|].
  split; [lia|]. split; [reflexivity|].
  intros i Hi.
  assert (Hcases : i = 0 \/ i = 1 \/ i = 2 \/ i = 3) by lia.
  destruct Hcases as [-> | [-> | [-> | ->]]]; reflexivity.
Qed.

Lemma tryPush_on_full_queue_witness :
  holds queue789 [7; 8; 9] /\
  Z.of_nat (length [7; 8; 9]) + 1 = LockFreeQueue.capacity_ queue789 /\
  LockFreeQueue.tryPush queue789 (Some 10) false = Some (false, queue789).
Proof.
  split; [exact queue789_holds|]. split; [reflexivity|].
  apply (tryPush_on_full_queue queue789 [7; 8; 9] 10 false queue789_holds).
  reflexivity.
Defined.

Lemma size_counts_items_witness :
  holds queue78 [7; 8] /\
  LockFreeQueue.size queue78 = 2 /\ LockFreeQueue.empty queue78 = false.
Proof.
  split; [exact queue78_holds|].
  exact (size_counts_items queue78 [7; 8] queue78_holds).
Defined.

Lemma destructor_deletes_held_items_witness :
  holds queue789 [7; 8; 9] /\ LockFreeQueue.destroy queue789 = Some [7; 8; 9].
Proof.
  split; [exact queue789_holds|].
  exact (destructor_deletes_held_items queue789 [7; 8; 9] queue789_holds).
Defined.



(** ** Lines of a file around one newline *)

Lemma lines_snoc_LF (a : list byte) : lines (a ++ [LF]) <> [].
Proof.
  induction a as [|x a IH]; cbn; [discriminate|].
  destruct (Byte.eqb x LF); [discriminate|].
  destruct (lines (a ++ [LF])); [contradiction|discriminate].
Qed.

Lemma lines_app_LF (a b : list byte) :
  lines (a ++ LF :: b) = lines (a ++ [LF]) ++ lines b.
Proof.
  induction a as [|x a IH]; cbn; [reflexivity|].
  destruct (Byte.eqb x LF).
  - rewrite IH. reflexivity.
  - rewrite IH. pose proof (lines_snoc_LF a) as Hne.
    destruct (lines (a ++ [LF])); [contradiction|reflexivity].
Qed.

Lemma body_of_app_Some (pre x : list byte) (i : nat) :
  MarketDataReader.find_byte LF pre = Some i ->
  body_of (pre ++ x) = body_of pre ++ x.
Proof.
  intros E. unfold body_of. rewrite E.
  assert (Hi : MarketDataReader.find_byte LF (pre ++ x) = Some i /\
               (i < length pre)%nat).
  { clear - E. revert i E. induction pre as [|b pre IH]; intros i E; cbn in *;
      [discriminate|].
    destruct (Byte.eqb b LF).
    - injection E as <-. split; [reflexivity|lia].
    - destruct (MarketDataReader.find_byte LF pre) as [j|]; [|discriminate].
      injection E as <-. destruct (IH j eq_refl) as [-> Hj].
      split; [reflexivity|lia]. }
  destruct Hi as [-> Hi].
  rewrite skipn_app.
  replace (S i - length pre)%nat with 0%nat by lia. reflexivity.
Qed.

Lemma body_of_app_None (pre x : list byte) :
  MarketDataReader.find_byte LF pre = None ->
  body_of (pre ++ LF :: x) = x.
Proof.
  intros E. unfold body_of.
  assert (Hi : MarketDataReader.find_byte LF (pre ++ LF :: x) = Some (length pre)).
  { clear - E. induction pre as [|b pre IH]; cbn in *; [reflexivity|].
    destruct (Byte.eqb b LF); [discriminate|].
    destruct (MarketDataReader.find_byte LF pre); [discriminate|].
    rewrite IH by reflexivity. reflexivity. }
  rewrite Hi.
  replace (S (length pre)) with (length (pre ++ [LF])) by (rewrite length_app; cbn; lia).
  replace (pre ++ LF :: x) with ((pre ++ [LF]) ++ x) by (rewrite <- app_assoc; reflexivity).
  rewrite skipn_app, skipn_all, Nat.sub_diag. reflexivity.
Qed.

Section ScanFacts.
Context {double : Type}.
Variable stod : list byte -> conv double.

Lemma scan_app_empty (ls1 ls2 : list (list byte)) :
  scan stod (ls1 ++ [] :: ls2) = scan stod ls1.
Proof.
  induction ls1 as [|l ls1 IH]; cbn [app scan]; [reflexivity|].
  destruct l as [|b l]; [reflexivity|].
  destruct (parse_record stod (b :: l)); try reflexivity.
  - rewrite IH. reflexivity.
  - exact IH.
Qed.

Lemma scan_app_skip (ls1 ls2 : list (list byte)) (l : list byte) :
  l <> [] -> parse_record stod l = NotParsed ->
  scan stod (ls1 ++ l :: ls2) = scan stod (ls1 ++ ls2).
Proof.
  intros Hl Hp. induction ls1 as [|l1 ls1 IH]; cbn [app].
  - destruct l as [|b l]; [contradiction|]. cbn [scan]. rewrite Hp. reflexivity.
  - cbn [scan]. destruct l1 as [|b1 l1]; [reflexivity|].
    destruct (parse_record stod (b1 :: l1)); try reflexivity.
    + rewrite IH. reflexivity.
    + exact IH.
Qed.

Lemma scan_prefix (ls : list (list byte)) :
  exists later : list (Tick double),
    records stod ls = fst (scan stod ls) ++ later.
Proof.
  induction ls as [|l ls [later IH]].
  - exists []. reflexivity.
  - destruct l as [|b l].
    + exists (records stod ([] :: ls)). reflexivity.
    + cbn [scan records].
      destruct (parse_record stod (b :: l)) as [tick| |e].
      * exists later. rewrite IH. destruct (scan stod ls). reflexivity.
      * exists later. exact IH.
      * exists (records stod ls). reflexivity.
Qed.

End ScanFacts.

Section ReaderExtras.
Context {double : Type}.
Variable stod : list byte -> conv double.
Import MarketDataReader.

(** X9: a call of [next] that returns false, or that throws, leaves the
    reader where the next call does the same: the end of the stream is
    final, and a line that throws is never passed. *)
Theorem next_end_and_throw_are_final (r : t) :
  (forall r' : t,
      next stod r = (EndOfStream, r') -> next stod r' = (EndOfStream, r')) /\
  (forall (e : exn) (r' : t),
      next stod r = (Raise e, r') -> next stod r' = (Raise e, r')).
Proof.
  funelim (next stod r).
  - split; [|discriminate]. intros r' [= <-].
    rewrite next_eq.
    match goal with E : has_input _ = _ |- _ => rewrite E end. reflexivity.
  - split; [|discriminate]. intros r' [= <-].
    rewrite next_eq.
    repeat match goal with
           | E : has_input _ = _ |- _ => rewrite E
           | E : Nat.leb _ _ = _ |- _ => rewrite E
           end. reflexivity.
  - split; discriminate.
  - assumption.
  - split; [discriminate|]. intros e' r' [= <- <-].
    rewrite next_eq.
    repeat match goal with
           | E : has_input _ = _ |- _ => rewrite E
           | E : Nat.leb _ _ = _ |- _ => rewrite E
           | E : parse_at _ _ _ = _ |- _ => rewrite E
           end. reflexivity.
Qed.

(** X10: nothing that follows an empty line is read: a file gives the same
    ticks, and the same exception if any, as the file cut after the newline
    before the empty line. *)
Theorem nothing_is_read_after_an_empty_line (pre rest : list byte) :
  iterate stod (new (Some (pre ++ LF :: LF :: rest)))
  = iterate stod (new (Some (pre ++ [LF]))).
Proof.
  rewrite !iterate_scan.
  destruct (find_byte LF pre) as [i|] eqn:E.
  - rewrite !(body_of_app_Some pre _ i E).
    rewrite lines_app_LF.
    change (lines (LF :: rest)) with ([] :: lines rest).
    apply scan_app_empty.
  - rewrite !(body_of_app_None pre _ E). reflexivity.
Qed.

(** X11: a non-empty line that [parseLine] rejects by returning false (too
    few fields), or that holds a carriage return only, is skipped: the file
    gives the same pass as the file without that line. *)
Theorem rejected_line_is_skipped (pre l rest : list byte) :
  l <> [] -> find_byte LF l = None -> parse_record stod l = NotParsed ->
  iterate stod (new (Some (pre ++ LF :: l ++ LF :: rest)))
  = iterate stod (new (Some (pre ++ LF :: rest))).
Proof.
  intros Hl Hnl Hp. rewrite !iterate_scan.
  assert (Hline : lines (l ++ LF :: rest) = l :: lines rest).
  { rewrite lines_cut by (destruct l; discriminate).
    assert (Hcut : cut (l ++ LF :: rest) = (l, rest)).
    { clear - Hnl. induction l as [|b l IH]; cbn in *.
      - reflexivity.
      - destruct (Byte.eqb b LF); [discriminate|].
        destruct (find_byte LF l); [discriminate|].
        rewrite IH by reflexivity. reflexivity. }
    rewrite Hcut. reflexivity. }
  destruct (find_byte LF pre) as [i|] eqn:E.
  - rewrite !(body_of_app_Some pre _ i E).
    rewrite (lines_app_LF (body_of pre) (l ++ LF :: rest)).
    rewrite (lines_app_LF (body_of pre) rest), Hline.
    apply scan_app_skip; assumption.
  - rewrite !(body_of_app_None pre _ E). rewrite Hline.
    apply (scan_app_skip stod [] (lines rest)); assumption.
Qed.

(** X12: the ticks of a pass are an initial part of the records of the file,
    in file order; they are all of them when no line after the header is
    empty and none throws. *)
Theorem ticks_are_the_first_records (file : list byte) :
  (exists later : list (Tick double),
      records stod (lines (body_of file))
      = fst (iterate stod (new (Some file))) ++ later) /\
  (Forall (fun l => l <> [] /\ forall e, parse_record stod l <> Threw e)
          (lines (body_of file)) ->
   iterate stod (new (Some file)) = (records stod (lines (body_of file)), None)).
Proof.
  rewrite iterate_scan. split.
  - apply scan_prefix.
  - apply scan_records.
Qed.

End ReaderExtras.

(** The theorem applied to the file whose first line after the header holds
    a carriage return only. *)
Lemma rejected_line_is_skipped_witness :
  [CR] <> [] /\
  MarketDataReader.find_byte LF [CR] = None /\
  parse_record stod [CR] = NotParsed /\
  iterate stod
    (MarketDataReader.new
       (Some (list_byte_of_string "timestamp,bid,ask,volume"
              ++ LF :: [CR] ++ LF :: line "1000000,4500.25,4500.50,100")))
  = iterate stod
      (MarketDataReader.new
         (Some (list_byte_of_string "timestamp,bid,ask,volume"
                ++ LF :: line "1000000,4500.25,4500.50,100"))).
Proof.
  assert (H1 : [CR] <> []) by discriminate.
  assert (H2 : MarketDataReader.find_byte LF [CR] = None) by reflexivity.
  assert (H3 : parse_record stod [CR] = NotParsed) by reflexivity.
  split; [exact H1|]. split; [exact H2|]. split; [exact H3|].
  exact (rejected_line_is_skipped stod
           (list_byte_of_string "timestamp,bid,ask,volume") [CR]
           (line "1000000,4500.25,4500.50,100") H1 H2 H3).
Defined.

(** ** RollingStatistics: what the estimates stay within, over the reals *)

Section StatsBounds.
Import RollingStatistics.
Local Open Scope R_scope.



Lemma update_mean_between (w : Z) (lo hi : R) (s : t R) (x : R) :
  (1 <= w)%Z -> windowSize_ s = w -> alpha_ s = 2 / (IZR w + 1) ->
  (0 <= count_ s)%Z ->
  (count_ s = 0%Z \/ lo <= mean_ s <= hi) ->
  lo <= x <= hi ->
  (windowSize_ (update s x) = w /\ alpha_ (update s x) = 2 / (IZR w + 1) /\
   (0 <= count_ (update s x))%Z) /\
  lo <= mean_ (update s x) <= hi.
Proof.
  intros Hw Hws Ha Hc Hmean Hx.
  destruct (update_fixed s x) as (Hws' & Ha' & Hc').
  split.
  { rewrite Hws', Ha', Hc'. split; [exact Hws|]. split; [exact Ha|].
    unfold wrap_u64. apply Z.mod_pos_bound. lia. }
  unfold update, updateEWMA. cbn [windowSize_ count_ alpha_ mean_ variance_ m2_].
  destruct (count_ s <? windowSize_ s)%Z eqn:Efill.
  - destruct (count_ s =? 0)%Z eqn:E0; cbn; [exact Hx|].
    apply Z.eqb_neq in E0. destruct Hmean as [Hzero | Hmean]; [contradiction|].
    ideal.
    assert (Hn : 2 <= IZR (count_ s + 1)) by (apply IZR_le; lia).
    set (n := IZR (count_ s + 1)) in *.
    assert (Ht : 0 < / n <= 1).
    { split; [apply Rinv_0_lt_compat; lra|].
      assert (/ n <= / 2) by (apply Rinv_le_contravar; lra). lra. }
    unfold Rdiv. set (t := / n) in *. split; nra.
  - apply Z.ltb_ge in Efill.
    destruct Hmean as [Hzero | Hmean]; [lia|].
    cbn. ideal. rewrite Ha.
    assert (Hw' : 2 <= IZR w + 1).
    { assert (1 <= IZR w) by (apply IZR_le; lia). lra. }
    assert (Ht : 0 < 2 / (IZR w + 1) <= 1).
    { split.
      - apply Rdiv_lt_0_compat; lra.
      - apply (Rmult_le_reg_r (IZR w + 1)); [lra|].
        unfold Rdiv. rewrite Rmult_assoc, Rinv_l by lra. lra. }
    set (t := 2 / (IZR w + 1)) in *. split; nra.
Qed.

(** X14: with a window of at least one sample, the mean always lies between
    the smallest and the largest sample absorbed so far, in the fill phase
    and in the steady phase alike. *)
Theorem mean_stays_within_samples (windowSize : Z) (xs : list R) (lo hi : R) :
  (1 <= windowSize)%Z -> xs <> [] ->
  Forall (fun x => lo <= x <= hi) xs ->
  lo <= mean (absorbed windowSize xs) <= hi.
Proof.
  intros Hw Hxs Hall. unfold absorbed, mean.
  assert (Hnew : (windowSize_ (new (double := R) windowSize) = windowSize /\
                  alpha_ (new (double := R) windowSize) = 2 / (IZR windowSize + 1) /\
                  (0 <= count_ (new (double := R) windowSize))%Z) /\
                 (count_ (new (double := R) windowSize) = 0%Z \/
                  lo <= mean_ (new (double := R) windowSize) <= hi)).
  { cbn. ideal. split; [|left; reflexivity].
    split; [reflexivity|]. split; [reflexivity|lia]. }
  revert Hnew Hxs. generalize (new (double := R) windowSize).
  induction Hall as [|x xs Hx Hall IH]; intros s Hs Hne; [contradiction|].
  cbn [fold_left].
  destruct Hs as ((Hws & Ha & Hc) & Hmean).
  destruct (update_mean_between windowSize lo hi s x Hw Hws Ha Hc Hmean Hx)
    as [Hinv' Hmean'].
  destruct xs as [|x' xs'].
  - exact Hmean'.
  - apply IH; [split; [exact Hinv' | right; exact Hmean'] | discriminate].
Qed.

End StatsBounds.

Lemma mean_stays_within_samples_witness :
  (1 <= 2)%Z /\ [99%R; 101%R; 90%R] <> [] /\
  Forall (fun x => 90 <= x <= 101)%R [99%R; 101%R; 90%R] /\
  (90 <= RollingStatistics.mean (absorbed 2 [99%R; 101%R; 90%R]) <= 101)%R.
Proof.
  assert (H1 : (1 <= 2)%Z) by lia.
  assert (H2 : [99%R; 101%R; 90%R] <> []) by discriminate.
  assert (H3 : Forall (fun x => 90 <= x <= 101)%R [99%R; 101%R; 90%R]).
  { repeat constructor; lra. }
  split; [exact H1|]. split; [exact H2|]. split; [exact H3|].
  exact (mean_stays_within_samples 2 [99%R; 101%R; 90%R] 90 101 H1 H2 H3).
Defined.

Section StatsReady.
Context {double : Type} `{Double double}.
Import RollingStatistics.


End StatsReady.


(** ** Backtester: the shape of a run *)

Section RunShape.
Context {double : Type} `{Double double}.
Import Backtester.

Lemma generate_moves (g : SignalGenerator.t double) (price : double)
    (stats : RollingStatistics.t double) :
  let signal := fst (SignalGenerator.generate g price stats) in
  let g' := snd (SignalGenerator.generate g price stats) in
  (signal = FLAT \/ signal = SignalGenerator.currentSignal_ g') /\
  (SignalGenerator.currentSignal_ g = LONG ->
   SignalGenerator.currentSignal_ g' <> SHORT) /\
  (SignalGenerator.currentSignal_ g = SHORT ->
   SignalGenerator.currentSignal_ g' <> LONG).
Proof.
  cbv zeta. unfold SignalGenerator.generate.
  destruct (negb (RollingStatistics.isReady stats)).
  - cbn [fst snd]. split; [left; reflexivity|]. split; congruence.
  - cbn [fst snd SignalGenerator.currentSignal_ SignalGenerator.threshold_].
    split; [right; reflexivity|].
    destruct (SignalGenerator.currentSignal_ g);
      repeat match goal with
             | |- context [if ?c then _ else _] => destruct c
             end; cbn; split; congruence.
Qed.

Lemma onTick_position (tick : Tick double) (l : loop double) :
  currentPosition_ (engine (onTick tick l))
  = fst (SignalGenerator.generate (signalGen l) (mid tick)
           (RollingStatistics.update (stats l) (mid tick))) /\
  signalGen (onTick tick l)
  = snd (SignalGenerator.generate (signalGen l) (mid tick)
           (RollingStatistics.update (stats l) (mid tick))).
Proof.
  unfold onTick.
  destruct (SignalGenerator.generate _ _ _) as [signal g'].
  cbn [engine signalGen fst snd]. split; [|reflexivity].
  destruct (updatePosition_logs (engine l) (mid tick) (timestamp tick) signal)
    as (_ & Hsame & Hnew). cbv zeta in Hsame, Hnew.
  destruct (Signal_eqb signal (currentPosition_ (engine l))) eqn:E.
  - rewrite (Hsame eq_refl). apply Signal_eqb_eq in E. congruence.
  - exact (proj1 (Hnew eq_refl)).
Qed.

Lemma follows_step (tick : Tick double) (l : loop double) :
  follows l ->
  follows (onTick tick l) /\
  (currentPosition_ (engine l) = FLAT \/
   currentPosition_ (engine (onTick tick l)) = FLAT \/
   currentPosition_ (engine (onTick tick l)) = currentPosition_ (engine l)).
Proof.
  intros Hl. destruct (onTick_position tick l) as [Hpos Hgen].
  destruct (generate_moves (signalGen l) (mid tick)
              (RollingStatistics.update (stats l) (mid tick)))
    as (Hsig & Hlong & Hshort).
  cbv zeta in Hsig, Hlong, Hshort.
  rewrite <- Hpos, <- Hgen in Hsig. rewrite <- Hgen in Hlong, Hshort.
  split; [exact Hsig|].
  destruct Hl as [Hflat | Hheld]; [left; exact Hflat|].
  destruct (currentPosition_ (engine l)) eqn:Ep; [left; reflexivity| |];
    right; symmetry in Hheld.
  - specialize (Hlong Hheld).
    destruct Hsig as [-> | ->]; [left; reflexivity|].
    destruct (SignalGenerator.currentSignal_ (signalGen (onTick tick l)));
      [left; reflexivity | right; reflexivity | contradiction].
  - specialize (Hshort Hheld).
    destruct Hsig as [-> | ->]; [left; reflexivity|].
    destruct (SignalGenerator.currentSignal_ (signalGen (onTick tick l)));
      [left; reflexivity | contradiction | right; reflexivity].
Qed.

Lemma follows_run_on (b : t double) (threshold : double)
    (ticks : list (Tick double)) :
  follows (run_on b threshold ticks).
Proof.
  unfold run_on.
  assert (Hstart : follows (start b threshold)) by (left; reflexivity).
  revert Hstart. generalize (start b threshold).
  induction ticks as [|tick ticks IH]; intros l Hl; [exact Hl|].
  cbn [fold_left]. apply IH. apply follows_step. exact Hl.
Qed.

(** X16: a run never reverses a position within one tick: from one tick to
    the next the position stays as it is, is opened from flat, or is closed
    to flat, so every call of [updatePosition] in [run] either opens a
    position or closes one, never both. *)
Theorem run_never_reverses_a_position (b : t double) (threshold : double)
    (front : list (Tick double)) (tick : Tick double) :
  let before := currentPosition_ (engine (run_on b threshold front)) in
  let after := currentPosition_ (engine (run_on b threshold (front ++ [tick]))) in
  before = FLAT \/ after = FLAT \/ after = before.
Proof.
  cbv zeta. rewrite run_on_snoc.
  apply follows_step. apply follows_run_on.
Qed.





Variable stod : list byte -> conv double.


End RunShape.

(** ** Backtester: exceptions of [run], and runs on a used engine *)

Section RunAgain.
Context {double : Type} `{Double double}.
Import Backtester.
Variable stod : list byte -> conv double.

(** X18: [run] on a file that cannot be opened, or that is empty, throws
    [std::runtime_error] and leaves the engine as it was.  On any other
    file [run] throws exactly when a conversion throws during the pass, with
    that exception, and the engine then keeps the state reached at the
    ticks before the line that threw: nothing is rolled back and no
    position is closed. *)
Theorem run_exceptions (b : t double) (file : option (list byte))
    (threshold : double) :
  (MarketDataReader.isValid (MarketDataReader.new file) = false ->
   run stod b file threshold = (inl runtime_error, b)) /\
  (MarketDataReader.isValid (MarketDataReader.new file) = true ->
   forall e : exn,
     (fst (run stod b file threshold) = inl e <->
      snd (iterate stod (MarketDataReader.new file)) = Some e) /\
     (snd (iterate stod (MarketDataReader.new file)) = Some e ->
      snd (run stod b file threshold)
      = engine (run_on b threshold
                  (fst (iterate stod (MarketDataReader.new file)))))).
Proof.
  split.
  - intros Hinvalid. unfold run. rewrite Hinvalid. reflexivity.
  - intros Hvalid e. destruct (isValid_new _ Hvalid) as (c & rest & ->).
    rewrite run_scan, iterate_scan. unfold run_of.
    destruct (snd (scan stod (lines (body_of (c :: rest))))) as [e'|];
      cbn [fst snd].
    + split; [split; intros [= ->]; reflexivity | reflexivity].
    + split; [split; discriminate | discriminate].
Qed.

Lemma same_books_refl_start (b1 b2 : t double) (threshold : double) :
  commission_ b1 = commission_ b2 -> slippage_ b1 = slippage_ b2 ->
  same_books (engine (start b1 threshold)) (engine (start b2 threshold)).
Proof.
  intros Hc Hs. unfold same_books, start. cbn.
  do 9 (split; [first [assumption | reflexivity]|]). congruence.
Qed.

Lemma updatePosition_same_books (b1 b2 : t double) (price : double) (time : Z)
    (signal : Signal) :
  same_books b1 b2 ->
  same_books (updatePosition b1 price time signal)
             (updatePosition b2 price time signal).
Proof.
  destruct b1 as [c1 s1 tr1 ec1 et1 pos1 ep1 en1 eq1 pk1 dd1].
  destruct b2 as [c2 s2 tr2 ec2 et2 pos2 ep2 en2 eq2 pk2 dd2].
  unfold same_books. cbn.
  intros (-> & -> & -> & -> & -> & -> & -> & -> & -> & Hentry).
  unfold updatePosition. cbn [currentPosition_].
  destruct (Signal_eqb signal pos2) eqn:E.
  - cbn. do 9 (split; [reflexivity|]). exact Hentry.
  - destruct pos2, signal; try discriminate; cbn;
      try (destruct (Hentry ltac:(discriminate)) as [-> ->]);
      do 9 (split; [reflexivity|]); intros Hopen;
      first [split; reflexivity | contradiction].
Qed.

Lemma finish_same_books (l1 l2 : loop double) :
  same_books (engine l1) (engine l2) ->
  lastTick l1 = lastTick l2 -> tickCount l1 = tickCount l2 ->
  same_books (finish l1) (finish l2).
Proof.
  intros Hb Hlast Hcount. unfold finish. rewrite <- Hlast, <- Hcount.
  pose proof Hb as (_ & _ & _ & _ & _ & Hpos & _). rewrite <- Hpos.
  destruct (currentPosition_ (engine l1)) eqn:Ep; [exact Hb| |];
    (destruct (lastTick l1) as [tick|]; [|exact Hb]);
    (destruct (0 <? tickCount l1); [|exact Hb]);
    destruct (engine l1) as [c1 s1 tr1 ec1 et1 pos1 ep1 en1 eq1 pk1 dd1];
    destruct (engine l2) as [c2 s2 tr2 ec2 et2 pos2 ep2 en2 eq2 pk2 dd2];
    unfold same_books in *; cbn in *;
    destruct Hb as (-> & -> & -> & -> & -> & -> & -> & -> & -> & Hentry);
    subst; destruct (Hentry ltac:(discriminate)) as [-> ->];
    unfold closePosition; cbn;
    do 9 (split; [reflexivity|]); congruence.
Qed.

Lemma calculateMetrics_same_books (b1 b2 : t double) (startTime endTime count : Z) :
  same_books b1 b2 ->
  calculateMetrics b1 startTime endTime count
  = calculateMetrics b2 startTime endTime count.
Proof.
  intros (_ & _ & Htr & Hcurve & _ & _ & Heq & _ & Hdd & _).
  unfold calculateMetrics. rewrite Htr, Hcurve, Heq, Hdd. reflexivity.
Qed.

Lemma run_on_same_books (b1 b2 : t double) (threshold : double)
    (ticks : list (Tick double)) :
  commission_ b1 = commission_ b2 -> slippage_ b1 = slippage_ b2 ->
  let l1 := run_on b1 threshold ticks in
  let l2 := run_on b2 threshold ticks in
  same_books (engine l1) (engine l2) /\
  lastTick l1 = lastTick l2 /\ tickCount l1 = tickCount l2 /\
  startTime l1 = startTime l2 /\ endTime l1 = endTime l2.
Proof.
  intros Hc Hs. cbv zeta. unfold run_on.
  assert (Hstart :
            same_books (engine (start b1 threshold)) (engine (start b2 threshold)) /\
            stats (start b1 threshold) = stats (start b2 threshold) /\
            signalGen (start b1 threshold) = signalGen (start b2 threshold) /\
            lastTick (start b1 threshold) = lastTick (start b2 threshold) /\
            tickCount (start b1 threshold) = tickCount (start b2 threshold) /\
            startTime (start b1 threshold) = startTime (start b2 threshold) /\
            endTime (start b1 threshold) = endTime (start b2 threshold)).
  { split; [apply same_books_refl_start; assumption|].
    repeat split; reflexivity. }
  revert Hstart.
  generalize (start b1 threshold) (start b2 threshold).
  induction ticks as [|tick ticks IH]; intros l1 l2 Hl.
  - cbn [fold_left]. tauto.
  - cbn [fold_left]. apply IH.
    destruct Hl as (Hb & Hst & Hg & Hlast & Hcount & Hstart & Hend).
    unfold onTick. rewrite <- Hst, <- Hg, <- Hcount, <- Hstart.
    destruct (SignalGenerator.generate _ _ _) as [signal g'].
    cbn [engine stats signalGen lastTick tickCount startTime endTime].
    split; [apply updatePosition_same_books; exact Hb|].
    repeat split; reflexivity.
Qed.

(** X19: what a run computes does not depend on what the engine did before:
    two engines with the same commission and slippage return the same
    metrics, or throw the same exception, on the same file and threshold,
    and on a valid file they end with the same trade log, equity curve,
    equity, peak and drawdown.  So an engine can be run again. *)
Theorem run_is_repeatable (b1 b2 : t double) (file : option (list byte))
    (threshold : double) :
  commission_ b1 = commission_ b2 -> slippage_ b1 = slippage_ b2 ->
  fst (run stod b1 file threshold) = fst (run stod b2 file threshold) /\
  (MarketDataReader.isValid (MarketDataReader.new file) = true ->
   same_books (snd (run stod b1 file threshold))
              (snd (run stod b2 file threshold))).
Proof.
  intros Hc Hs.
  destruct (MarketDataReader.isValid (MarketDataReader.new file)) eqn:Hvalid.
  - destruct (isValid_new _ Hvalid) as (c & rest & ->).
    rewrite !run_scan. unfold run_of.
    destruct (run_on_same_books b1 b2 threshold
                (fst (scan stod (lines (body_of (c :: rest))))) Hc Hs)
      as (Hb & Hlast & Hcount & Hstart & Hend).
    cbv zeta in Hb, Hlast, Hcount, Hstart, Hend.
    destruct (snd (scan stod (lines (body_of (c :: rest))))) as [e|];
      cbn [fst snd].
    + split; [reflexivity | intros _; exact Hb].
    + pose proof (finish_same_books _ _ Hb Hlast Hcount) as Hfin.
      rewrite <- Hstart, <- Hend, <- Hcount.
      split; [|intros _; exact Hfin].
      f_equal. apply calculateMetrics_same_books. exact Hfin.
  - unfold run. rewrite Hvalid. cbn. split; [reflexivity | discriminate].
Qed.

End RunAgain.


(** ** Backtester: the books, over the reals *)

Section Accounting.
Import Backtester.
Local Open Scope R_scope.




Variable stod : list byte -> conv R.


End Accounting.

(** ** Backtester: the name of the trades file *)

Lemma find_last_of_absent (c : byte) (s : list byte) :
  Forall (fun b => b <> c) s -> Backtester.find_last_of c s = None.
Proof.
  induction 1 as [|b s Hb _ IH]; cbn; [reflexivity|].
  rewrite IH. destruct (Byte.eqb b c) eqn:E; [|reflexivity].
  apply Byte.byte_dec_bl in E. contradiction.
Qed.

Lemma find_last_of_last (c : byte) (stem ext : list byte) :
  Forall (fun b => b <> c) ext ->
  Backtester.find_last_of c (stem ++ c :: ext) = Some (length stem).
Proof.
  intros Hext. induction stem as [|b stem IH]; cbn.
  - rewrite (find_last_of_absent c ext Hext).
    rewrite (Byte.byte_dec_lb (x := c) eq_refl). reflexivity.
  - rewrite IH. reflexivity.
Qed.

(** X21: the trades file of [writeResults] is named after the equity file:
    what follows the last dot of the name is replaced by [_trades.csv], and
    a name without a dot gets [_trades.csv] appended.  The dot is looked for
    in the whole name, directories included. *)
Theorem tradesFile_replaces_the_extension (stem ext : list byte) :
  Forall (fun b => b <> x2e) ext ->
  Backtester.tradesFile (stem ++ x2e :: ext)
  = stem ++ list_byte_of_string "_trades.csv" /\
  Backtester.tradesFile ext = ext ++ list_byte_of_string "_trades.csv".
Proof.
  intros Hext. unfold Backtester.tradesFile.
  rewrite (find_last_of_last x2e stem ext Hext), (find_last_of_absent x2e ext Hext).
  rewrite firstn_app, firstn_all, Nat.sub_diag. cbn [firstn].
  rewrite app_nil_r. split; reflexivity.
Qed.

Lemma tradesFile_replaces_the_extension_witness :
  Forall (fun b => b <> x2e) (list_byte_of_string "csv") /\
  Backtester.tradesFile (list_byte_of_string "results.csv")
  = list_byte_of_string "results_trades.csv" /\
  Backtester.tradesFile (list_byte_of_string "csv")
  = list_byte_of_string "csv_trades.csv" /\
  Backtester.tradesFile (list_byte_of_string "out.d/results")
  = list_byte_of_string "out_trades.csv".
Proof.
  assert (Hext : Forall (fun b => b <> x2e) (list_byte_of_string "csv")).
  { repeat constructor; discriminate. }
  split; [exact Hext|].
  pose proof (tradesFile_replaces_the_extension
                (list_byte_of_string "results") (list_byte_of_string "csv") Hext)
    as [Hdot Hplain].
  split; [exact Hdot|]. split; [exact Hplain | reflexivity].
Defined.

(** ** SignalGenerator: the private predicates *)

Section Predicates.
Context {double : Type} `{Double double}.
Import SignalGenerator.

(** X22: [generate] moves as the private predicates of the class say, though
    it does not call them: on ready statistics, with [z] the z-score of the
    price, a flat generator turns LONG when [shouldEnterLong z], else SHORT
    when [shouldEnterShort z], else stays flat; a generator in a position
    turns flat exactly when [shouldExit z].  [setThreshold] changes the
    threshold and nothing else. *)
Theorem generate_agrees_with_predicates (g : t double) (price : double)
    (stats : RollingStatistics.t double) :
  RollingStatistics.isReady stats = true ->
  let z := RollingStatistics.zscore stats price in
  currentSignal_ (snd (generate g price stats))
  = match currentSignal_ g with
    | FLAT =>
        if shouldEnterLong g z then LONG
        else if shouldEnterShort g z then SHORT else FLAT
    | held => if shouldExit g z then FLAT else held
    end /\
  forall threshold : double,
    getThreshold (setThreshold g threshold) = threshold /\
    currentSignal (setThreshold g threshold) = currentSignal g.
Proof.
  intros Hready. cbv zeta. split; [|intros threshold; split; reflexivity].
  unfold generate, shouldEnterLong, shouldEnterShort, shouldExit.
  rewrite Hready. cbn [negb snd currentSignal_ threshold_].
  destruct (currentSignal_ g); cbn [Signal_eqb andb orb];
    rewrite ?orb_false_r;
    repeat match goal with
           | |- context [if ?c then _ else _] => destruct c
           end; reflexivity.
Qed.

End Predicates.

Lemma generate_agrees_with_predicates_witness :
  RollingStatistics.isReady statistics_ready = true /\
  SignalGenerator.shouldEnterLong (SignalGenerator.new threshold0)
    (RollingStatistics.zscore statistics_ready 90%float) = true /\
  SignalGenerator.currentSignal_
    (snd (SignalGenerator.generate (SignalGenerator.new threshold0) 90%float
            statistics_ready))
  = LONG.
Proof.
  assert (Hready : RollingStatistics.isReady statistics_ready = true)
    by reflexivity.
  assert (Hlong : SignalGenerator.shouldEnterLong (SignalGenerator.new threshold0)
                    (RollingStatistics.zscore statistics_ready 90%float) = true)
    by (vm_compute; reflexivity).
  split; [exact Hready|]. split; [exact Hlong|].
  pose proof (proj1 (generate_agrees_with_predicates
                       (SignalGenerator.new threshold0) 90%float
                       statistics_ready Hready)) as Hthm.
  cbv zeta in Hthm. rewrite Hlong in Hthm. exact Hthm.
Defined.

Lemma run_is_repeatable_witness :
  Backtester.commission_ backtester0 = Backtester.commission_ backtester_used /\
  Backtester.slippage_ backtester0 = Backtester.slippage_ backtester_used /\
  fst (Backtester.run stod backtester0 (Some file_blank) threshold0)
  = fst (Backtester.run stod backtester_used (Some file_blank) threshold0).
Proof.
  split; [reflexivity|]. split; [reflexivity|].
  exact (proj1 (run_is_repeatable stod backtester0 backtester_used
                  (Some file_blank) threshold0 eq_refl eq_refl)).
Defined.




(** ** Tick Source: Windows line endings *)

Lemma to_crlf_cons (b : byte) (s : list byte) :
  to_crlf (b :: s) = (if Byte.eqb b LF then [CR; LF] else [b]) ++ to_crlf s.
Proof. reflexivity. Qed.

Lemma find_byte_to_crlf_None (s : list byte) :
  MarketDataReader.find_byte LF s = None -> to_crlf s = s.
Proof.
  induction s as [|b s IH]; [reflexivity|].
  rewrite to_crlf_cons. cbn [MarketDataReader.find_byte].
  destruct (Byte.eqb b LF) eqn:E; [discriminate|].
  destruct (MarketDataReader.find_byte LF s); [discriminate|].
  intros _. rewrite IH by reflexivity. reflexivity.
Qed.

Lemma find_byte_to_crlf_Some (s : list byte) (i : nat) :
  MarketDataReader.find_byte LF s = Some i ->
  exists j : nat, MarketDataReader.find_byte LF (to_crlf s) = Some j.
Proof.
  revert i. induction s as [|b s IH]; intros i; [discriminate|].
  rewrite to_crlf_cons. cbn [MarketDataReader.find_byte].
  destruct (Byte.eqb b LF) eqn:E.
  - intros _. exists 1%nat. reflexivity.
  - cbn [app MarketDataReader.find_byte]. rewrite E.
    destruct (MarketDataReader.find_byte LF s) as [k|]; [|discriminate].
    intros _. destruct (IH k eq_refl) as [j ->]. exists (S j). reflexivity.
Qed.

Lemma body_of_cons (b : byte) (s : list byte) :
  Byte.eqb b LF = false ->
  body_of (b :: s)
  = match MarketDataReader.find_byte LF s with
    | Some _ => body_of s
    | None => b :: s
    end.
Proof.
  intros E. unfold body_of. cbn [MarketDataReader.find_byte]. rewrite E.
  destruct (MarketDataReader.find_byte LF s); reflexivity.
Qed.

Lemma body_of_to_crlf (file : list byte) :
  body_of (to_crlf file) = to_crlf (body_of file).
Proof.
  induction file as [|b file IH]; [reflexivity|].
  rewrite to_crlf_cons.
  destruct (Byte.eqb b LF) eqn:E.
  - unfold body_of. cbn [app MarketDataReader.find_byte]. rewrite E.
    reflexivity.
  - cbn [app]. rewrite (body_of_cons b file E), (body_of_cons b (to_crlf file) E).
    destruct (MarketDataReader.find_byte LF file) as [i|] eqn:Ef.
    + destruct (find_byte_to_crlf_Some file i Ef) as [j ->]. exact IH.
    + rewrite (find_byte_to_crlf_None file Ef), Ef.
      rewrite to_crlf_cons, E, (find_byte_to_crlf_None file Ef). reflexivity.
Qed.

Lemma lines_to_crlf (s : list byte) :
  Forall2 with_cr (lines (to_crlf s)) (lines s).
Proof.
  induction s as [|b s IH]; [constructor|].
  rewrite to_crlf_cons.
  destruct (Byte.eqb b LF) eqn:E.
  - cbn [app lines]. rewrite E.
    change (Byte.eqb CR LF) with false. change (Byte.eqb LF LF) with true.
    cbv iota. constructor; [right; reflexivity | exact IH].
  - cbn [app lines]. rewrite E.
    destruct IH as [|l' l ls' ls Hl Hls]; constructor.
    + left. reflexivity.
    + constructor.
    + destruct Hl as [-> | ->]; [left | right]; reflexivity.
    + exact Hls.
Qed.

Lemma strip_cr_plain (l : list byte) :
  plain_line l -> strip_cr l = l /\ strip_cr (l ++ [CR]) = l.
Proof.
  intros [Hne Hlast]. unfold strip_cr. split.
  - destruct (exists_last Hne) as (front & b & ->).
    rewrite last_last in Hlast.
    rewrite length_app. cbn [length].
    replace (length front + 1 - 1)%nat with (length front) by lia.
    rewrite nth_error_app2, Nat.sub_diag by lia. cbn.
    destruct (Byte.eqb b CR) eqn:E.
    + apply Byte.byte_dec_bl in E. contradiction.
    + rewrite andb_false_r. reflexivity.
  - rewrite length_app. cbn [length].
    replace (length l + 1 - 1)%nat with (length l) by lia.
    rewrite nth_error_app2, Nat.sub_diag by lia.
    replace (0 <? length l + 1)%nat with true
      by (symmetry; apply Nat.ltb_lt; lia).
    cbn [nth_error]. change (Byte.eqb CR CR) with true. cbn [andb].
    rewrite firstn_app, firstn_all, Nat.sub_diag. cbn [firstn].
    apply app_nil_r.
Qed.

Section Crlf.
Context {double : Type}.
Variable stod : list byte -> conv double.

Lemma parse_record_with_cr (l' l : list byte) :
  with_cr l' l -> plain_line l ->
  parse_record stod l' = parse_record stod l.
Proof.
  intros [-> | ->] Hl; [reflexivity|].
  unfold parse_record. destruct (strip_cr_plain l Hl) as [-> ->]. reflexivity.
Qed.

Lemma scan_with_cr (ls' ls : list (list byte)) :
  Forall2 with_cr ls' ls -> Forall plain_line ls ->
  scan stod ls' = scan stod ls.
Proof.
  induction 1 as [|l' l ls' ls Hl Hls IH]; intros Hplain; [reflexivity|].
  inversion Hplain as [|? ? Hp Hps]; subst.
  cbn [scan]. rewrite (parse_record_with_cr l' l Hl Hp), (IH Hps).
  destruct l as [|b l]; [destruct Hp as [Hne _]; contradiction|].
  destruct l' as [|b' l']; [|reflexivity].
  destruct Hl as [Hl | Hl]; [discriminate|].
  destruct l; discriminate.
Qed.

(** X23: Windows line endings are accepted: when no line after the header is
    empty or ends in a carriage return, the file with every newline turned
    into carriage return and newline gives the same ticks, and the same
    exception if any, as the file itself. *)
Theorem crlf_file_gives_the_same_ticks (file : list byte) :
  Forall plain_line (lines (body_of file)) ->
  iterate stod (MarketDataReader.new (Some (to_crlf file)))
  = iterate stod (MarketDataReader.new (Some file)).
Proof.
  intros Hplain. rewrite !iterate_scan, body_of_to_crlf.
  apply scan_with_cr; [apply lines_to_crlf | exact Hplain].
Qed.

End Crlf.

Lemma crlf_file_gives_the_same_ticks_witness :
  Forall plain_line (lines (body_of file_unix)) /\
  iterate stod (MarketDataReader.new (Some (to_crlf file_unix)))
  = iterate stod (MarketDataReader.new (Some file_unix)) /\
  iterate stod (MarketDataReader.new (Some file_unix)) = ([tick1; tick2], None).
Proof.
  assert (Hplain : Forall plain_line (lines (body_of file_unix))).
  { vm_compute. repeat constructor; discriminate. }
  split; [exact Hplain|].
  split; [exact (crlf_file_gives_the_same_ticks stod file_unix Hplain)|].
  unfold file_unix. rewrite iterate_header. vm_compute. reflexivity.
Defined.

(** ** Tick Source: the fields of a line *)

Lemma until_delim_comma (token rest : list byte) :
  no_comma token ->
  until_delim comma (token ++ comma :: rest) = (token, Some rest).
Proof.
  induction 1 as [|b token Hb _ IH]; cbn [app until_delim].
  - change (Byte.eqb comma comma) with true. reflexivity.
  - destruct (Byte.eqb b comma) eqn:E.
    + apply Byte.byte_dec_bl in E. contradiction.
    + rewrite IH. reflexivity.
Qed.

Lemma until_delim_end (token : list byte) :
  no_comma token -> until_delim comma token = (token, None).
Proof.
  induction 1 as [|b token Hb _ IH]; cbn [until_delim]; [reflexivity|].
  destruct (Byte.eqb b comma) eqn:E.
  - apply Byte.byte_dec_bl in E. contradiction.
  - rewrite IH. reflexivity.
Qed.

Lemma getline_comma (token rest : list byte) :
  no_comma token ->
  getline (Some (token ++ comma :: rest)) comma = (Some token, Some rest).
Proof.
  intros Ht. unfold getline.
  destruct (token ++ comma :: rest) eqn:E; [destruct token; discriminate|].
  rewrite <- E, until_delim_comma by exact Ht. reflexivity.
Qed.

Lemma getline_end (token : list byte) :
  no_comma token -> token <> [] ->
  getline (Some token) comma = (Some token, None).
Proof.
  intros Ht Hne. unfold getline.
  destruct token as [|b token]; [contradiction|].
  rewrite until_delim_end by exact Ht. reflexivity.
Qed.

Section Fields.
Context {double : Type}.
Variable stod : list byte -> conv double.
Import MarketDataReader.

Lemma field_comma {A : Type} (sto : list byte -> conv A) (token rest : list byte) :
  no_comma token ->
  field sto (Some (token ++ comma :: rest))
  = match sto token with
    | Converted a => Parsed (a, Some rest)
    | ConvFail e => Threw e
    end.
Proof. intros Ht. unfold field. rewrite getline_comma by exact Ht. reflexivity. Qed.

Lemma field_end {A : Type} (sto : list byte -> conv A) (token : list byte) :
  no_comma token -> token <> [] ->
  field sto (Some token)
  = match sto token with
    | Converted a => Parsed (a, None)
    | ConvFail e => Threw e
    end.
Proof. intros Ht Hne. unfold field. rewrite getline_end by assumption. reflexivity. Qed.

(** X24: [parseLine] splits a line at its first three commas; the fourth
    field ends at the next comma or at the end of the line, and what follows
    it is ignored.  The fields are converted in order, timestamp, bid, ask,
    volume, and the first conversion that fails throws; an empty field
    followed by a comma is converted too, and so throws.  A line of three
    fields whose conversions succeed is not a record: [parseLine] returns
    false. *)
Theorem parseLine_splits_at_commas (t1 t2 t3 t4 more : list byte) :
  no_comma t1 -> no_comma t2 -> no_comma t3 -> no_comma t4 ->
  (more = [] /\ t4 <> [] \/ exists ignored, more = comma :: ignored) ->
  parseLine stod (t1 ++ comma :: t2 ++ comma :: t3 ++ comma :: t4 ++ more)
  = match stoll t1 with
    | ConvFail e => Threw e
    | Converted time =>
        match stod t2 with
        | ConvFail e => Threw e
        | Converted bid =>
            match stod t3 with
            | ConvFail e => Threw e
            | Converted ask =>
                match stoll t4 with
                | ConvFail e => Threw e
                | Converted volume =>
                    Parsed {| timestamp := time; bid := bid; ask := ask;
                              volume := volume |}
                end
            end
        end
    end /\
  (t3 <> [] ->
   parseLine stod (t1 ++ comma :: t2 ++ comma :: t3)
   = match stoll t1 with
     | ConvFail e => Threw e
     | Converted _ =>
         match stod t2 with
         | ConvFail e => Threw e
         | Converted _ =>
             match stod t3 with
             | ConvFail e => Threw e
             | Converted _ => NotParsed
             end
         end
     end).
Proof.
  intros H1 H2 H3 H4 Hmore. unfold parseLine. split.
  - rewrite (field_comma stoll t1 _ H1).
    destruct (stoll t1) as [time|e]; cbn [parsed_bind]; [|reflexivity].
    rewrite (field_comma stod t2 _ H2).
    destruct (stod t2) as [bid|e]; cbn [parsed_bind]; [|reflexivity].
    rewrite (field_comma stod t3 _ H3).
    destruct (stod t3) as [ask|e]; cbn [parsed_bind]; [|reflexivity].
    destruct Hmore as [[-> Hne] | [ignored ->]].
    + rewrite app_nil_r, (field_end stoll t4 H4 Hne).
      destruct (stoll t4); reflexivity.
    + rewrite (field_comma stoll t4 _ H4).
      destruct (stoll t4); reflexivity.
  - intros Hne.
    rewrite (field_comma stoll t1 _ H1).
    destruct (stoll t1) as [time|e]; cbn [parsed_bind]; [|reflexivity].
    rewrite (field_comma stod t2 _ H2).
    destruct (stod t2) as [bid|e]; cbn [parsed_bind]; [|reflexivity].
    rewrite (field_end stod t3 H3 Hne).
    destruct (stod t3) as [ask|e]; cbn [parsed_bind]; reflexivity.
Qed.

End Fields.

Lemma parseLine_splits_at_commas_witness :
  no_comma (list_byte_of_string "1000000") /\
  no_comma (list_byte_of_string "4500.25") /\
  no_comma (list_byte_of_string "4500.50") /\
  no_comma (list_byte_of_string "100") /\
  MarketDataReader.parseLine stod
    (list_byte_of_string "1000000,4500.25,4500.50,100,ignored")
  = Parsed tick1 /\
  MarketDataReader.parseLine stod (list_byte_of_string "1000000,4500.25,4500.50")
  = NotParsed.
Proof.
  assert (H1 : no_comma (list_byte_of_string "1000000"))
    by (repeat constructor; discriminate).
  assert (H2 : no_comma (list_byte_of_string "4500.25"))
    by (repeat constructor; discriminate).
  assert (H3 : no_comma (list_byte_of_string "4500.50"))
    by (repeat constructor; discriminate).
  assert (H4 : no_comma (list_byte_of_string "100"))
    by (repeat constructor; discriminate).
  split; [exact H1|]. split; [exact H2|]. split; [exact H3|]. split; [exact H4|].
  pose proof (parseLine_splits_at_commas stod
                (list_byte_of_string "1000000") (list_byte_of_string "4500.25")
                (list_byte_of_string "4500.50") (list_byte_of_string "100")
                (list_byte_of_string ",ignored") H1 H2 H3 H4
                (or_intror (ex_intro _ (list_byte_of_string "ignored") eq_refl)))
    as [Hfour Hthree].
  split.
  - etransitivity; [exact Hfour|]. vm_compute. reflexivity.
  - etransitivity; [apply Hthree; discriminate|]. vm_compute. reflexivity.
Defined.
